(** * OpenCLRayTracer: a shallow embedding of the acceleration-structure core

    The development follows the layout of the repository:

    - [CLPortability.h], [RTKernelUtils.h]: machine integers, IEEE-754
      binary32 arithmetic and the small vector types;
    - [Primitives/AABB.h], [Primitives/Triangle.h], [Transform.h];
    - [AccelerationStructs/BVH.h], [AccelerationStructs/TwoLevelGrid.h];
    - [BitonicSort.cpp], [PrefixSum.cpp] (host side drivers).

    Kernel code is written once in the sources and compiled for the host
    and for the device through the macros of [CLPortability.h].  Numbers of
    type [float] are modelled by [spec_float] at precision 24 and maximal
    exponent 128, the executable IEEE-754 specification of the standard
    library, so that rounding, infinities and NaN behave as they do in the
    program.  Unsigned 32-bit integers are integers of [Z] reduced modulo
    [2^32] after every operation that can leave the range; [int] values
    are reduced to the two's complement range, and the statements bound
    the sizes so that no signed operation overflows.

    Where [CLPortability.h] gives a host definition ([min], [max],
    [cross], [dot], [cpu_normalize], [software_clz], [floor3],
    [convert_uint3]) the embedding follows it; [sign], which the host
    shim only defines as a textual macro, follows the device built-in.
    Reads and writes outside an array, divisions of integers by zero and
    loops that cannot terminate are undefined in the sources and are the
    failure [None] of the option monad here. *)

From Stdlib Require Import ZArith Lia Bool.
From Stdlib Require Import SpecFloat.
From stdpp Require Import prelude strings.

Open Scope Z_scope.

(** ** Machine integers *)

Definition UINT_MAX : Z := 4294967295.

(** Reduction of an integer to [CL_UINT]. *)
Definition u32 (n : Z) : Z := n mod 2 ^ 32.

(** Reduction of an integer to [size_t] / [CL_ULONG], taken as 64 bits
    wide. *)
Definition u64 (n : Z) : Z := n mod 2 ^ 64.

(** Reduction of an integer to [int] (two's complement, 32 bits). *)
Definition i32 (n : Z) : Z := (n + 2 ^ 31) mod 2 ^ 32 - 2 ^ 31.

(** A C truth value used as an integer. *)
Definition b2z (b : bool) : Z := if b then 1 else 0.

(** The host macros [min(X, Y)] and [max(X, Y)] on integers. *)
Definition zmin (a b : Z) : Z := if a <? b then a else b.
Definition zmax (a b : Z) : Z := if a >? b then a else b.

(** Arrays are lists read and written by index.  A read or a write
    outside the array is undefined behaviour in the sources; here it is
    the failure [None] of the option monad. *)
Definition rd {A} (l : list A) (i : Z) : option A :=
  if decide (0 <= i) then l !! Z.to_nat i else None.

Definition wr {A} (l : list A) (i : Z) (v : A) : option (list A) :=
  if decide (0 <= i < Z.of_nat (length l)) then Some (<[Z.to_nat i := v]> l)
  else None.

(** ** IEEE-754 binary32 *)

Module F32.

Definition prec : Z := 24.
Definition emax : Z := 128.

Definition float := spec_float.

Definition add : float -> float -> float := SFadd prec emax.
Definition sub : float -> float -> float := SFsub prec emax.
Definition mul : float -> float -> float := SFmul prec emax.
Definition div : float -> float -> float := SFdiv prec emax.
Definition sqrt : float -> float := SFsqrt prec emax.
Definition neg : float -> float := SFopp.
Definition fabs : float -> float := SFabs.

Definition ltb : float -> float -> bool := SFltb.
Definition leb : float -> float -> bool := SFleb.
Definition gtb (a b : float) : bool := SFltb b a.
Definition geb (a b : float) : bool := SFleb b a.
Definition eqb : float -> float -> bool := SFeqb.

(** Conversion of an integer to [float], rounding to nearest even. *)
Definition of_Z (n : Z) : float := binary_normalize prec emax n 0 false.

Definition zero : float := S754_zero false.
Definition one : float := Eval cbv in of_Z 1.
Definition half : float := S754_finite false 8388608 (-24).

(** [float.h]: [FLT_EPSILON = 2^-23], [FLT_MAX = (2^24 - 1) * 2^104],
    [FLT_MIN = 2^-126]. *)
Definition FLT_EPSILON : float := S754_finite false 8388608 (-46).
Definition FLT_MAX : float := S754_finite false 16777215 104.
Definition FLT_MIN : float := S754_finite false 8388608 (-149).

(** A C truth value used as a [float] (0.0f or 1.0f). *)
Definition of_bool (b : bool) : float := if b then one else zero.

Definition is_zero (x : float) : bool :=
  match x with S754_zero _ => true | _ => false end.

(** The host macros [min(X, Y)] and [max(X, Y)] on floats:
    [((X) < (Y)) ? (X) : (Y)] and [((X) > (Y)) ? (X) : (Y)]. *)
Definition min (a b : float) : float := if ltb a b then a else b.
Definition max (a b : float) : float := if gtb a b then a else b.

(** [floor] of [math.h].  A finite float [m * 2^e] with [e >= 0] is an
    integer already; otherwise the integer part has fewer than 24 bits
    and converts back exactly. *)
Definition floor (x : float) : float :=
  match x with
  | S754_finite s m e =>
      if 0 <=? e then x
      else
        let q := Z.shiftr (Zpos m) (- e) in
        let exact := Z.shiftl q (- e) =? Zpos m in
        if s then
          let n := if exact then q else q + 1 in
          binary_normalize prec emax (- n) 0 true
        else binary_normalize prec emax q 0 false
  | _ => x
  end.

(** Conversion of a [float] to [CL_UINT]: truncation toward zero.  The
    sources only convert values that are integers in range; outside of
    [0, 2^32) the conversion is undefined in C and is reduced modulo
    [2^32] here, NaN and the infinities giving 0. *)
Definition to_uint (x : float) : Z :=
  match x with
  | S754_finite s m e =>
      let a := if 0 <=? e then Z.shiftl (Zpos m) e
               else Z.shiftr (Zpos m) (- e) in
      u32 (if s then - a else a)
  | _ => 0
  end.

(** The OpenCL built-in [sign]: 1.0f for positive, -1.0f for negative
    arguments, the argument itself for zeros and 0.0f for NaN. *)
Definition sign (x : float) : float :=
  match x with
  | S754_nan => zero
  | S754_zero _ => x
  | S754_infinity s | S754_finite s _ _ => if s then neg one else one
  end.

End F32.

Import F32.

(** ** Vector types: [CL_FLOAT3], [CL_FLOAT4], [CL_UINT2], [CL_UINT3] *)

Record float3 := mkFloat3 { fx : float; fy : float; fz : float }.
Record float4 := mkFloat4 { qx : float; qy : float; qz : float; qw : float }.
Record uint2 := mkUint2 { ux : Z; uy : Z }.
Record uint3 := mkUint3 { cx : Z; cy : Z; cz : Z }.

(** Componentwise operators of [CLPortability.h]. *)
Definition sub3 (a b : float3) : float3 :=
  mkFloat3 (sub (fx a) (fx b)) (sub (fy a) (fy b)) (sub (fz a) (fz b)).

Definition div3 (a b : float3) : float3 :=
  mkFloat3 (div (fx a) (fx b)) (div (fy a) (fy b)) (div (fz a) (fz b)).

Definition add3s (a : float3) (s : float) : float3 :=
  mkFloat3 (add (fx a) s) (add (fy a) s) (add (fz a) s).

Definition cross (a b : float3) : float3 :=
  mkFloat3 (sub (mul (fy a) (fz b)) (mul (fz a) (fy b)))
           (sub (mul (fz a) (fx b)) (mul (fx a) (fz b)))
           (sub (mul (fx a) (fy b)) (mul (fy a) (fx b))).

Definition dot (a b : float3) : float :=
  add (add (mul (fx a) (fx b)) (mul (fy a) (fy b))) (mul (fz a) (fz b)).

Definition min3 (a b : float3) : float3 :=
  mkFloat3 (min (fx a) (fx b)) (min (fy a) (fy b)) (min (fz a) (fz b)).

Definition max3 (a b : float3) : float3 :=
  mkFloat3 (max (fx a) (fx b)) (max (fy a) (fy b)) (max (fz a) (fz b)).

Definition umin3 (a b : uint3) : uint3 :=
  mkUint3 (zmin (cx a) (cx b)) (zmin (cy a) (cy b)) (zmin (cz a) (cz b)).

Definition floor3 (v : float3) : float3 :=
  mkFloat3 (floor (fx v)) (floor (fy v)) (floor (fz v)).

Definition convert_uint3 (v : float3) : uint3 :=
  mkUint3 (to_uint (fx v)) (to_uint (fy v)) (to_uint (fz v)).

(** [cpu_normalize]: [l = 1 / sqrt(x*x + y*y + z*z)], each lane times [l]. *)
Definition normalize (v : float3) : float3 :=
  let l := div one (sqrt (add (add (mul (fx v) (fx v)) (mul (fy v) (fy v)))
                              (mul (fz v) (fz v)))) in
  mkFloat3 (mul (fx v) l) (mul (fy v) l) (mul (fz v) l).

(** ** Primitives/AABB.h *)

(** [struct AABB]: [bounds[0]] is the minimum, [bounds[1]] the maximum
    corner; the [w] lane of [bounds[0]] carries the node type of a BVH
    node. *)
Record AABB := mkAABB { bounds0 : float4; bounds1 : float4 }.

Definition bounds (a : AABB) (i : bool) : float4 :=
  if i then bounds1 a else bounds0 a.

Definition calculateTriangleAABB (v1 v2 v3 : float3) : AABB :=
  let lo := min3 (min3 v1 v2) v3 in
  let hi := max3 (max3 v1 v2) v3 in
  let xFlat := ltb (sub (fx hi) (fx lo)) FLT_EPSILON in
  let yFlat := ltb (sub (fy hi) (fy lo)) FLT_EPSILON in
  let zFlat := ltb (sub (fz hi) (fz lo)) FLT_EPSILON in
  let hx := add (fx hi) (mul (of_bool xFlat) FLT_EPSILON) in
  let hy := add (fy hi) (mul (of_bool yFlat) FLT_EPSILON) in
  let hz := add (fz hi) (mul (of_bool zFlat) FLT_EPSILON) in
  let lx := sub (fx lo) (mul (of_bool xFlat) FLT_EPSILON) in
  let ly := sub (fy lo) (mul (of_bool yFlat) FLT_EPSILON) in
  let lz := sub (fz lo) (mul (of_bool zFlat) FLT_EPSILON) in
  mkAABB (mkFloat4 lx ly lz zero) (mkFloat4 hx hy hz zero).


(** The macros [INV_DIR_X(dir)], [INV_DIR_Y], [INV_DIR_Z] expand to
    [1.0f/(dir).x] without parentheses.  As an array index the macro is
    compared with [0.0f], which reads [0.0f > (1.0f / d)]; as a factor,
    [(b - o) * INV_DIR_X(rd)] reads [((b - o) * 1.0f) / rd.x]. *)
Definition invDirNegative (d : float) : bool := gtb zero (div one d).

Definition slab (lo hi o d : float) : float * float :=
  let neg := invDirNegative d in
  (div (mul (sub (if neg then hi else lo) o) one) d,
   div (mul (sub (if negb neg then hi else lo) o) one) d).

Definition AABBIntersect (aabb : AABB) (ro rd : float3) : float :=
  let '(tmin, tmax) :=
    slab (qx (bounds0 aabb)) (qx (bounds1 aabb)) (fx ro) (fx rd) in
  let '(tymin, tymax) :=
    slab (qy (bounds0 aabb)) (qy (bounds1 aabb)) (fy ro) (fy rd) in
  let flag := negb (gtb tmin tymax || gtb tymin tmax) in
  let tmin := max tmin tymin in
  let tmax := min tmax tymax in
  let '(tzmin, tzmax) :=
    slab (qz (bounds0 aabb)) (qz (bounds1 aabb)) (fz ro) (fz rd) in
  let flag := flag && negb (gtb tmin tzmax || gtb tzmin tmax) in
  let tmin := max tmin tzmin in
  mul tmin (of_bool flag).

(** [containedInRange(lo,hi,value)] is [(lo <= value) && (value <= hi)]. *)
Definition containedInRange (lo hi value : float) : bool :=
  leb lo value && leb value hi.

Definition isPointInside (aabb : AABB) (point : float3) : bool :=
  let xIn := containedInRange (qx (bounds0 aabb)) (qx (bounds1 aabb)) (fx point) in
  let yIn := containedInRange (qy (bounds0 aabb)) (qy (bounds1 aabb)) (fy point) in
  let zIn := containedInRange (qz (bounds0 aabb)) (qz (bounds1 aabb)) (fz point) in
  xIn && yIn && zIn.

(** The six [AXISTEST_*] macros share one shape: two projections [p] and
    [q], their minimum and maximum, and the radius [rad] of the box. *)
Definition axisTest (p q rad : float) : bool :=
  let minimum := min p q in
  let maximum := max p q in
  leb minimum rad && geb maximum (neg rad).

Definition AXISTEST_X (a b fa fb : float) (boxhalfsize u w : float3) : bool :=
  axisTest (sub (mul a (fy u)) (mul b (fz u)))
           (sub (mul a (fy w)) (mul b (fz w)))
           (add (mul fa (fy boxhalfsize)) (mul fb (fz boxhalfsize))).

Definition AXISTEST_Y (a b fa fb : float) (boxhalfsize u w : float3) : bool :=
  axisTest (add (mul (neg a) (fx u)) (mul b (fz u)))
           (add (mul (neg a) (fx w)) (mul b (fz w)))
           (add (mul fa (fx boxhalfsize)) (mul fb (fz boxhalfsize))).

Definition AXISTEST_Z (a b fa fb : float) (boxhalfsize u w : float3) : bool :=
  axisTest (sub (mul a (fx u)) (mul b (fy u)))
           (sub (mul a (fx w)) (mul b (fy w)))
           (add (mul fa (fx boxhalfsize)) (mul fb (fy boxhalfsize))).

Definition planeBoxOverlap (normal vert maxbox : float3) : bool :=
  let vmin :=
    mkFloat3 (sub (mul (neg (sign (fx normal))) (fx maxbox)) (fx vert))
             (sub (mul (neg (sign (fy normal))) (fy maxbox)) (fy vert))
             (sub (mul (neg (sign (fz normal))) (fz maxbox)) (fz vert)) in
  let vmax :=
    mkFloat3 (sub (mul (sign (fx normal)) (fx maxbox)) (fx vert))
             (sub (mul (sign (fy normal)) (fy maxbox)) (fy vert))
             (sub (mul (sign (fz normal)) (fz maxbox)) (fz vert)) in
  leb (dot normal vmin) zero && geb (dot normal vmax) zero.

Definition AABBTriangleIntersect (boxcenter boxhalfsize v0 v1 v2 : float3) : bool :=
  let v0 := sub3 boxcenter v0 in
  let v1 := sub3 boxcenter v1 in
  let v2 := sub3 boxcenter v2 in
  (* edge = v1 - v0 *)
  let e := sub3 v1 v0 in
  let f := AXISTEST_X (fz e) (fy e) (fabs (fz e)) (fabs (fy e)) boxhalfsize v0 v2 in
  let f := f && AXISTEST_Y (fz e) (fx e) (fabs (fz e)) (fabs (fx e)) boxhalfsize v0 v2 in
  let f := f && AXISTEST_Z (fy e) (fx e) (fabs (fy e)) (fabs (fx e)) boxhalfsize v1 v2 in
  (* edge = v2 - v1 *)
  let e := sub3 v2 v1 in
  let f := f && AXISTEST_X (fz e) (fy e) (fabs (fz e)) (fabs (fy e)) boxhalfsize v0 v2 in
  let f := f && AXISTEST_Y (fz e) (fx e) (fabs (fz e)) (fabs (fx e)) boxhalfsize v0 v2 in
  let f := f && AXISTEST_Z (fy e) (fx e) (fabs (fy e)) (fabs (fx e)) boxhalfsize v0 v1 in
  (* edge = v0 - v2 *)
  let e := sub3 v0 v2 in
  let f := f && AXISTEST_X (fz e) (fy e) (fabs (fz e)) (fabs (fy e)) boxhalfsize v0 v1 in
  let f := f && AXISTEST_Y (fz e) (fx e) (fabs (fz e)) (fabs (fx e)) boxhalfsize v0 v1 in
  let f := f && AXISTEST_Z (fy e) (fx e) (fabs (fy e)) (fabs (fx e)) boxhalfsize v1 v2 in
  (* the three box axes *)
  let f := f && (leb (min (fx v0) (min (fx v1) (fx v2))) (fx boxhalfsize)
                 && geb (max (fx v0) (max (fx v1) (fx v2))) (neg (fx boxhalfsize))) in
  let f := f && (leb (min (fy v0) (min (fy v1) (fy v2))) (fy boxhalfsize)
                 && geb (max (fy v0) (max (fy v1) (fy v2))) (neg (fy boxhalfsize))) in
  let f := f && (leb (min (fz v0) (min (fz v1) (fz v2))) (fz boxhalfsize)
                 && geb (max (fz v0) (max (fz v1) (fz v2))) (neg (fz boxhalfsize))) in
  (* the plane of the triangle *)
  let normal := cross (sub3 v1 v0) (sub3 v2 v1) in
  f && planeBoxOverlap normal v0 boxhalfsize.

(** ** Primitives/Triangle.h *)

Definition triangleIntersect (vert0 vert1 vert2 orig dir : float3) : float4 :=
  let edge1 := sub3 vert1 vert0 in
  let edge2 := sub3 vert2 vert0 in
  let pvec := cross dir edge2 in
  let det := dot edge1 pvec in
  let flag := geb (fabs det) FLT_EPSILON in
  let inv_det := div one det in
  let tvec := sub3 orig vert0 in
  let u := mul (dot tvec pvec) inv_det in
  let flag := flag && ltb u one in
  let flag := flag && geb u zero in
  let qvec := cross tvec edge1 in
  let v := mul (dot dir qvec) inv_det in
  let flag := flag && leb (add u v) one in
  let flag := flag && geb v zero in
  let t := mul (mul (dot edge2 qvec) inv_det) (of_bool flag) in
  let normal := normalize (cross edge1 edge2) in
  mkFloat4 (fx normal) (fy normal) (fz normal) t.

(** ** Transform.h *)

Module Transform.

Record Quaternion := mkQuaternion { r : float; i : float; j : float; k : float }.

Definition squaredMagnitude (q : Quaternion) : float :=
  add (add (add (mul (r q) (r q)) (mul (i q) (i q))) (mul (j q) (j q)))
      (mul (k q) (k q)).

Definition zeroRotation : Quaternion := mkQuaternion one zero zero zero.

Definition normalizeQuaternion (q : Quaternion) : Quaternion :=
  let d := squaredMagnitude q in
  if ltb d FLT_EPSILON then mkQuaternion one zero zero zero
  else
    let d := div one (sqrt d) in
    mkQuaternion (mul (r q) d) (mul (i q) d) (mul (j q) d) (mul (k q) d).

End Transform.

(** ** SceneBufferParser.h

    The scene is one packed byte buffer: a header, then the models, each
    a header followed by its submeshes, each a header followed by its
    vertices and 16-bit indices.  The accessors walk the buffer by the
    sizes stored in the headers.  Here the buffer is the structured value
    it encodes, and a walk past the last model or submesh, or an index
    past the end of a vertex or index array, is a failed read. *)

Record Mesh := mkMesh {
  mesh_numberOfTriangles : Z;
  materialIndex : Z;
  vertices : list float3;
  indices : list Z }.

Record Model := mkModel {
  model_numberOfTriangles : Z;
  submeshes : list Mesh }.

Record Scene := mkScene {
  models : list Model;
  modelsBoundingBox : AABB }.

Definition getModelAtIndex (index : Z) (scene : Scene) : option Model :=
  rd (models scene) index.

Definition getMeshAtIndex (index : Z) (model : Model) : option Mesh :=
  rd (submeshes model) index.

Definition getVertexAt (index : Z) (mesh : Mesh) : option float3 :=
  rd (vertices mesh) index.

Definition getIndexAt (index : Z) (mesh : Mesh) : option Z :=
  rd (indices mesh) index.

(** The two [while (!flag)] loops of [getTriangleRefByIndex]: advance to
    the next model (submesh), add its triangle count to the [int]
    accumulator and stop when the accumulator, compared as unsigned,
    exceeds the triangle index. *)
Fixpoint walkModels (ms : list Model) (currentModelIndex accumulatedTriangles
                     triangleIndex : Z) : option (Z * Model * Z) :=
  match ms with
  | [] => None
  | m :: rest =>
      let acc := i32 (accumulatedTriangles + model_numberOfTriangles m) in
      if u32 acc >? triangleIndex then Some (currentModelIndex, m, acc)
      else walkModels rest (currentModelIndex + 1) acc triangleIndex
  end.

Fixpoint walkMeshes (ms : list Mesh) (currentSubmeshIndex accumulatedTriangles
                     triangleIndex : Z) : option (Z * Mesh * Z) :=
  match ms with
  | [] => None
  | m :: rest =>
      let acc := i32 (accumulatedTriangles + mesh_numberOfTriangles m) in
      if u32 acc >? triangleIndex then Some (currentSubmeshIndex, m, acc)
      else walkMeshes rest (currentSubmeshIndex + 1) acc triangleIndex
  end.

Definition getTriangleRefByIndex (scene : Scene) (triangleIndex : Z) : option uint3 :=
  '(currentModelIndex, currentModel, acc) ← walkModels (models scene) 0 0 triangleIndex;
  let acc := i32 (acc - model_numberOfTriangles currentModel) in
  '(currentSubmeshIndex, currentMesh, acc) ←
     walkMeshes (submeshes currentModel) 0 acc triangleIndex;
  let acc := i32 (acc - mesh_numberOfTriangles currentMesh) in
  let currentTriangleIndex := i32 (zmax 0 (u32 (triangleIndex - acc))) in
  Some (mkUint3 (u32 currentModelIndex) (u32 currentSubmeshIndex)
                (u32 currentTriangleIndex)).

(** The three vertices of the triangle [localTri] of a submesh, as every
    kernel fetches them:
    [getVertexAt(getIndexAt(base + n, mesh), mesh)] with [base = 3 * localTri]. *)
Definition triangleVertices (mesh : Mesh) (localTri : Z)
  : option (float3 * float3 * float3) :=
  let baseIndex := u32 (localTri * 3) in
  i0 ← getIndexAt baseIndex mesh; v0 ← getVertexAt i0 mesh;
  i1 ← getIndexAt (u32 (baseIndex + 1)) mesh; v1 ← getVertexAt i1 mesh;
  i2 ← getIndexAt (u32 (baseIndex + 2)) mesh; v2 ← getVertexAt i2 mesh;
  Some (v0, v1, v2).

(** Submesh and vertices of the triangle with global index [g]:
    [getTriangleRefByIndex], then [getMeshAtIndex(ref.y,
    getModelAtIndex(ref.x, scene))] and the three vertex fetches. *)
Definition fetchTriangle (scene : Scene) (g : Z) : option (float3 * float3 * float3) :=
  triangleRef ← getTriangleRefByIndex scene g;
  model ← getModelAtIndex (cx triangleRef) scene;
  submesh ← getMeshAtIndex (cy triangleRef) model;
  triangleVertices submesh (cz triangleRef).

(** ** CLStructs.h *)

Record Ray := mkRay { idx : Z; origin : float3; direction : float3 }.


(** ** AccelerationStructs/BVHData.h *)

Record BVHNode := mkBVHNode {
  data0 : Z; data1 : Z; data2 : Z; data3 : Z;
  boundingBox : AABB }.

Definition LEAF_NODE : float := one.
Definition INNER_NODE : float := zero.

Definition parent (n : BVHNode) : Z := data0 n.
Definition childA (n : BVHNode) : Z := data1 n.
Definition childB (n : BVHNode) : Z := data2 n.
Definition triangleIndex (n : BVHNode) : Z := data1 n.
Definition submeshIndex (n : BVHNode) : Z := data2 n.
Definition modelIndex (n : BVHNode) : Z := data3 n.
Definition type (n : BVHNode) : float := qw (bounds0 (boundingBox n)).

Definition set_parent (v : Z) (n : BVHNode) : BVHNode :=
  mkBVHNode v (data1 n) (data2 n) (data3 n) (boundingBox n).
Definition set_childA (v : Z) (n : BVHNode) : BVHNode :=
  mkBVHNode (data0 n) v (data2 n) (data3 n) (boundingBox n).
Definition set_childB (v : Z) (n : BVHNode) : BVHNode :=
  mkBVHNode (data0 n) (data1 n) v (data3 n) (boundingBox n).
Definition set_type (t : float) (n : BVHNode) : BVHNode :=
  let b := boundingBox n in
  let b0 := bounds0 b in
  mkBVHNode (data0 n) (data1 n) (data2 n) (data3 n)
            (mkAABB (mkFloat4 (qx b0) (qy b0) (qz b0) t) (bounds1 b)).

(** [fillVector3(v, a, b, c)] assigns the lanes [x], [y], [z] and keeps [w]. *)
Definition fillVector3 (v : float4) (a b c : float) : float4 :=
  mkFloat4 a b c (qw v).

Definition set_emptyBox (n : BVHNode) : BVHNode :=
  let b := boundingBox n in
  mkBVHNode (data0 n) (data1 n) (data2 n) (data3 n)
            (mkAABB (fillVector3 (bounds0 b) FLT_MAX FLT_MAX FLT_MAX)
                    (fillVector3 (bounds1 b) FLT_MIN FLT_MIN FLT_MIN)).

(** Read-modify-write of one array element. *)
Definition upd {A} (l : list A) (i : Z) (f : A -> A) : option (list A) :=
  x ← rd l i; wr l i (f x).

(** ** AccelerationStructs/BVH.h *)

(** [software_clz]: move a one-bit mask down from bit 31 while the masked
    bit is clear and fewer than 32 positions were tried. *)
Fixpoint clz_loop (fuel : nat) (x mask counter : Z) : Z :=
  match fuel with
  | O => counter
  | S fuel =>
      if (Z.land x mask =? 0) && (counter <? 32)
      then clz_loop fuel x (Z.shiftr mask 1) (counter + 1)
      else counter
  end.

Definition CLZ (x : Z) : Z := clz_loop 33 x 2147483648 0.

(** The key ([.x]) of entry [i] of a pair array. *)
Definition keyAt (list : list uint2) (i : Z) : option Z :=
  p ← rd list i; Some (ux p).

(** The [do ... while (step > 1)] loop of [findSplit]. *)
Fixpoint splitSearch (fuel : nat) (list : list uint2)
         (firstCode commonPrefix last split step : Z) : option Z :=
  match fuel with
  | O => None
  | S fuel =>
      let step := Z.shiftr (i32 (step + 1)) 1 in
      let newSplit := i32 (split + step) in
      split ←
        (if newSplit <? last then
           splitCode ← keyAt list newSplit;
           let splitPrefix := CLZ (Z.lxor firstCode splitCode) in
           Some (if splitPrefix >? commonPrefix then newSplit else split)
         else Some split);
      if step >? 1
      then splitSearch fuel list firstCode commonPrefix last split step
      else Some split
  end.

Definition findSplit (list : list uint2) (first last : Z) : option Z :=
  firstCode ← keyAt list first;
  lastCode ← keyAt list last;
  if firstCode =? lastCode then Some first
  else
    let commonPrefix := CLZ (Z.lxor firstCode lastCode) in
    splitSearch 32 list firstCode commonPrefix last first (i32 (last - first)).

(** The walk over a run of equal codes:
    [while (index > 0 && index < lso) { index += 1;
       if (index >= lso || list[index].x != list[index+1].x) break; }]. *)
Fixpoint equalRunEnd (fuel : nat) (list : list uint2) (lso index : Z) : option Z :=
  match fuel with
  | O => None
  | S fuel =>
      if (index >? 0) && (index <? lso) then
        let index := i32 (index + 1) in
        if index >=? lso then Some index
        else
          a ← keyAt list index;
          b ← keyAt list (index + 1);
          if negb (a =? b) then Some index
          else equalRunEnd fuel list lso index
      else Some index
  end.

(** The doubling of [l_max]:
    [while ((testindex <= lso && testindex >= 0)
             ? (CLZ(precis ^ list[testindex].x) > d_min) : false)
       { l_max = l_max << 1; testindex = index + l_max * dir; }]. *)
Fixpoint growLMax (fuel : nat) (list : list uint2)
         (lso index dir precis d_min l_max testindex : Z) : option Z :=
  match fuel with
  | O => None
  | S fuel =>
      if (testindex <=? lso) && (testindex >=? 0) then
        code ← keyAt list testindex;
        if CLZ (Z.lxor precis code) >? d_min then
          let l_max := i32 (Z.shiftl l_max 1) in
          growLMax fuel list lso index dir precis d_min l_max
                   (i32 (index + l_max * dir))
        else Some l_max
      else Some l_max
  end.

(** The binary search for the other end of the range:
    [for (int div = 2; l_max / div >= 1; div = div << 1) ...]. *)
Fixpoint searchL (fuel : nat) (list : list uint2)
         (lso index dir precis d_min l_max div l : Z) : option Z :=
  match fuel with
  | O => None
  | S fuel =>
      if Z.quot l_max div >=? 1 then
        let t := Z.quot l_max div in
        let newTest := i32 (index + (l + t) * dir) in
        l ←
          (if (newTest <=? lso) && (newTest >=? 0) then
             code ← keyAt list newTest;
             let splitPrefix := CLZ (Z.lxor precis code) in
             Some (if splitPrefix >? d_min then i32 (l + t) else l)
           else Some l);
        searchL fuel list lso index dir precis d_min l_max
                (i32 (Z.shiftl div 1)) l
      else Some l
  end.

Definition determineRange (list : list uint2) (index size : Z) : option uint2 :=
  let lso := i32 (u32 (size - 1)) in
  if index =? 0 then Some (mkUint2 0 (u32 lso))
  else
    let initialindex := index in
    minone ← keyAt list (index - 1);
    precis ← keyAt list index;
    pluone ← keyAt list (index + 1);
    if (minone =? precis) && (pluone =? precis) then
      index ← equalRunEnd (Z.to_nat size) list lso index;
      Some (mkUint2 (u32 initialindex) (u32 index))
    else
      let lrx := CLZ (Z.lxor precis minone) in
      let lry := CLZ (Z.lxor precis pluone) in
      let '(dir, d_min) := if lrx >? lry then (-1, lry) else (1, lrx) in
      l_max ← growLMax 32 list lso index dir precis d_min 2 (i32 (index + 2 * dir));
      l ← searchL 33 list lso index dir precis d_min l_max 2 0;
      Some (mkUint2 (u32 (zmin index (i32 (index + l * dir))))
                    (u32 (zmax index (i32 (index + l * dir))))).

Definition constructNode (nodes : list BVHNode) (mcToLeaves : list uint2)
           (numLeaves idx : Z) : option (list BVHNode) :=
  range ← determineRange mcToLeaves idx numLeaves;
  split ← findSplit mcToLeaves (i32 (ux range)) (i32 (uy range));
  let internalNodeIndex := u32 (idx + numLeaves) in
  let first := zmin (ux range) (uy range) in
  let last := zmax (ux range) (uy range) in
  let aIsLeaf := first =? u32 split in
  let bIsLeaf := last =? u32 (split + 1) in
  pairA ← rd mcToLeaves split;
  pairB ← rd mcToLeaves (split + 1);
  let child_A := u32 (uy pairA * b2z aIsLeaf
                      + u32 (split + numLeaves) * b2z (negb aIsLeaf)) in
  let child_B := u32 (uy pairB * b2z bIsLeaf
                      + u32 (split + 1 + numLeaves) * b2z (negb bIsLeaf)) in
  nodes ← upd nodes internalNodeIndex set_emptyBox;
  nodes ← upd nodes internalNodeIndex (set_type INNER_NODE);
  nodes ← (if internalNodeIndex =? numLeaves
           then upd nodes internalNodeIndex (set_parent UINT_MAX)
           else Some nodes);
  nodes ← upd nodes internalNodeIndex (set_childA child_A);
  nodes ← upd nodes internalNodeIndex (set_childB child_B);
  nodes ← upd nodes child_A (set_parent internalNodeIndex);
  upd nodes child_B (set_parent internalNodeIndex).

(** State of the traversal loop of [bvh_generate_contact]. *)
Record Traversal := mkTraversal {
  stack : list Z;
  stackPointer : Z;
  currentIdx : Z;
  resContactData : float4;
  resMaterialIdx : Z }.

(** [stack[stackPointer++] = v]. *)
Definition push (v : Z) (st : Traversal) : option Traversal :=
  stack' ← wr (stack st) (stackPointer st) v;
  Some (mkTraversal stack' (u32 (stackPointer st + 1)) (currentIdx st)
                    (resContactData st) (resMaterialIdx st)).

(** [currentIdx = stack[--stackPointer]]. *)
Definition pop (st : Traversal) : option Traversal :=
  let sp := u32 (stackPointer st - 1) in
  v ← rd (stack st) sp;
  Some (mkTraversal (stack st) sp v (resContactData st) (resMaterialIdx st)).

Definition descend (child : Z) (st : Traversal) : Traversal :=
  mkTraversal (stack st) (stackPointer st) child
              (resContactData st) (resMaterialIdx st).

Definition childValid (box : AABB) (ray : Ray) : bool :=
  gtb (AABBIntersect box (origin ray) (direction ray)) zero
  || isPointInside box (origin ray).

(** The branch [type(node) == INNER_NODE] of the loop body. *)
Definition visitInner (ray : Ray) (bvh : list BVHNode) (node : BVHNode)
           (st : Traversal) : option Traversal :=
  let child_A_idx := childA node in
  let child_B_idx := childB node in
  nodeA ← rd bvh child_A_idx;
  nodeB ← rd bvh child_B_idx;
  let aValid := childValid (boundingBox nodeA) ray in
  let bValid := childValid (boundingBox nodeB) ray in
  if aValid && bValid then push child_B_idx (descend child_A_idx st)
  else if aValid then Some (descend child_A_idx st)
  else if bValid then Some (descend child_B_idx st)
  else pop st.

(** The leaf branch of the loop body. *)
Definition visitLeaf (ray : Ray) (scene : Scene) (node : BVHNode)
           (st : Traversal) : option Traversal :=
  model ← getModelAtIndex (modelIndex node) scene;
  mesh ← getMeshAtIndex (submeshIndex node) model;
  '(v0, v1, v2) ← triangleVertices mesh (triangleIndex node);
  let contactData := triangleIntersect v0 v1 v2 (origin ray) (direction ray) in
  let st :=
    if gtb (qw contactData) zero && ltb (qw contactData) (qw (resContactData st))
    then mkTraversal (stack st) (stackPointer st) (currentIdx st)
                     contactData (u32 (materialIndex mesh))
    else st in
  pop st.

Definition visit (ray : Ray) (bvh : list BVHNode) (scene : Scene)
           (st : Traversal) : option Traversal :=
  node ← rd bvh (currentIdx st);
  if eqb (type node) INNER_NODE then visitInner ray bvh node st
  else visitLeaf ray scene node st.



(** ** AccelerationStructs/TwoLevelGridData.h, TwoLevelGrid.h *)

Record TopLevelCell := mkTopLevelCell {
  cell_resX : Z; cell_resY : Z; cell_resZ : Z;
  firstLeafIdx : Z }.

Record GridData := mkGridData {
  resX : Z; resY : Z; resZ : Z;
  stepX : float; stepY : float; stepZ : float;
  leafDensity : float;
  box : AABB }.

Definition getCellIndex (ix iy iz rx ry rz : Z) : Z :=
  u32 (iz * rx * ry + iy * rx + ix).

(** [idx / a], [b % rx] and [b / rx] divide by the resolution; a division
    by zero is undefined and is the failure [None]. *)
Definition getCellRefFromIndex (idx rx ry rz : Z) : option uint3 :=
  let a := u32 (rx * ry) in
  if (a =? 0) || (rx =? 0) then None
  else
    let z := Z.quot idx a in
    let b := u32 (idx - a * z) in
    Some (mkUint3 (Z.rem b rx) (Z.quot b rx) z).

Definition gridOrigin (grid : GridData) : float3 :=
  let b := bounds0 (box grid) in mkFloat3 (qx b) (qy b) (qz b).

Definition gridStep (grid : GridData) : float3 :=
  mkFloat3 (stepX grid) (stepY grid) (stepZ grid).

Definition countOverlappingCells (v0 v1 v2 : float3) (grid : GridData) : Z :=
  let lastIndices :=
    mkFloat3 (of_Z (u32 (resX grid - 1))) (of_Z (u32 (resY grid - 1)))
             (of_Z (u32 (resZ grid - 1))) in
  let startCells :=
    min3 (floor3 (div3 (sub3 (min3 v0 (min3 v1 v2)) (gridOrigin grid))
                       (gridStep grid))) lastIndices in
  let endCells :=
    min3 (floor3 (div3 (sub3 (max3 v0 (max3 v1 v2)) (gridOrigin grid))
                       (gridStep grid))) lastIndices in
  let cells := add3s (sub3 endCells startCells) one in
  to_uint (mul (mul (fx cells) (fy cells)) (fz cells)).

(** A [for (CL_UINT v = lo; v <= hi; v++)] loop visits [lo, ..., hi]; with
    [hi = UINT_MAX] its condition never fails and the loop does not
    terminate, which is the failure [None]. *)
Definition uintRange (lo hi : Z) : option (list Z) :=
  if hi =? UINT_MAX then None else Some (seqZ lo (hi - lo + 1)).

(** First cell and last cell ([cell], [cellExtents]) of the bounding box
    of a triangle, in cell coordinates clamped to the grid. *)
Definition cellSpan (v0 v1 v2 : float3) (grid : GridData) : uint3 * uint3 :=
  let bboxOrigin := gridOrigin grid in
  let step := gridStep grid in
  let maxGridIdx :=
    mkUint3 (u32 (resX grid - 1)) (u32 (resY grid - 1)) (u32 (resZ grid - 1)) in
  let cell :=
    umin3 (convert_uint3 (floor3 (div3 (sub3 (min3 v0 (min3 v1 v2)) bboxOrigin) step)))
          maxGridIdx in
  let cellExtents :=
    umin3 (convert_uint3 (floor3 (div3 (sub3 (max3 v0 (max3 v1 v2)) bboxOrigin) step)))
          maxGridIdx in
  (cell, cellExtents).

(** A kernel that fills an output array is modelled by the sequence of
    assignments [array[index] = value] it executes, in program order, and
    the array after them. *)
Definition Store := (Z * uint2)%type.

Fixpoint storeAll (stores : list Store) (array : list uint2) : option (list uint2) :=
  match stores with
  | [] => Some array
  | (i, v) :: rest => array ← wr array i v; storeAll rest array
  end.

(** Body of the innermost loop of [writeOverlappingPairs]: the state is
    [cellCounter] and the assignments executed so far. *)
Definition writeCell (grid : GridData) (firstPairIdx triangleIdx : Z)
           (st : Z * list Store) (x y z : Z) : Z * list Store :=
  let pair := mkUint2 (getCellIndex x y z (resX grid) (resY grid) (resZ grid))
                      triangleIdx in
  (u32 (st.1 + 1), st.2 ++ [(u32 (firstPairIdx + st.1), pair)]).

Definition overlappingPairStores (v0 v1 v2 : float3) (grid : GridData)
           (firstPairIdx triangleIdx : Z) : option (list Store) :=
  let '(cell, cellExtents) := cellSpan v0 v1 v2 grid in
  zs ← uintRange (cz cell) (cz cellExtents);
  ys ← uintRange (cy cell) (cy cellExtents);
  xs ← uintRange (cx cell) (cx cellExtents);
  Some (foldl (fun st z =>
          foldl (fun st y =>
            foldl (fun st x => writeCell grid firstPairIdx triangleIdx st x y z)
                  st xs) st ys) (0, []) zs).2.

Definition writeOverlappingPairs (v0 v1 v2 : float3) (grid : GridData)
           (firstPairIdx triangleIdx : Z) (pairsArray : list uint2)
  : option (list uint2) :=
  stores ← overlappingPairStores v0 v1 v2 grid firstPairIdx triangleIdx;
  storeAll stores pairsArray.

(** The assignments executed by [writePairs] for triangle [triangleIndex]. *)
Definition pairStores (scene : Scene) (triangleIndex : Z) (grid : GridData)
           (prefixSum counters : list Z) : option (list Store) :=
  '(v0, v1, v2) ← fetchTriangle scene triangleIndex;
  p ← rd prefixSum triangleIndex;
  c ← rd counters triangleIndex;
  let myStart := u32 (p - c) in
  overlappingPairStores v0 v1 v2 grid myStart triangleIndex.

Definition writePairs (scene : Scene) (triangleIndex : Z) (grid : GridData)
           (prefixSum counters : list Z) (pairs : list uint2)
  : option (list uint2) :=
  stores ← pairStores scene triangleIndex grid prefixSum counters;
  storeAll stores pairs.

(** Centre of the leaf cell [(x, y, z)] of a top-level cell. *)
Definition leafCellCenter (topBase leafStep leafCellHalfSize : float3)
           (x y z : Z) : float3 :=
  mkFloat3
    (add (add (fx topBase) (mul (of_Z x) (fx leafStep))) (fx leafCellHalfSize))
    (add (add (fy topBase) (mul (of_Z y) (fy leafStep))) (fy leafCellHalfSize))
    (add (add (fz topBase) (mul (of_Z z) (fz leafStep))) (fz leafCellHalfSize)).

Definition leafStepOf (grid : GridData) (topLevelCell : TopLevelCell) : float3 :=
  mkFloat3 (div (stepX grid) (of_Z (cell_resX topLevelCell)))
           (div (stepY grid) (of_Z (cell_resY topLevelCell)))
           (div (stepZ grid) (of_Z (cell_resZ topLevelCell))).

Definition topBaseOf (grid : GridData) (topLevelCoordinates : uint3) : float3 :=
  let b := bounds0 (box grid) in
  mkFloat3 (add (qx b) (mul (of_Z (cx topLevelCoordinates)) (stepX grid)))
           (add (qy b) (mul (of_Z (cy topLevelCoordinates)) (stepY grid)))
           (add (qz b) (mul (of_Z (cz topLevelCoordinates)) (stepZ grid))).

Definition halfSizeOf (leafStep : float3) : float3 :=
  mkFloat3 (mul (fx leafStep) half) (mul (fy leafStep) half)
           (mul (fz leafStep) half).

(** Body of the innermost loop of [writeOverlappingLeafPairs]: the state is
    [relevantLeafCount] and the assignments executed so far. *)
Definition writeLeaf (v0 v1 v2 topBase leafStep leafCellHalfSize : float3)
           (topLevelCell : TopLevelCell) (topLevelPair : uint2) (startIndex : Z)
           (st : Z * list Store) (x y z : Z) : Z * list Store :=
  if AABBTriangleIntersect
       (leafCellCenter topBase leafStep leafCellHalfSize x y z)
       leafCellHalfSize v0 v1 v2
  then
    let pair :=
      mkUint2 (u32 (getCellIndex x y z (cell_resX topLevelCell)
                       (cell_resY topLevelCell) (cell_resZ topLevelCell)
                    + firstLeafIdx topLevelCell))
              (uy topLevelPair) in
    (u32 (st.1 + 1), st.2 ++ [(u32 (startIndex + st.1), pair)])
  else st.

Definition overlappingLeafPairStores (v0 v1 v2 : float3) (grid : GridData)
           (topLevelCell : TopLevelCell) (topLevelPair : uint2)
           (startIndex : Z) : option (list Store) :=
  let leafStep := leafStepOf grid topLevelCell in
  topLevelCoordinates ←
    getCellRefFromIndex (ux topLevelPair) (resX grid) (resY grid) (resZ grid);
  let topBase := topBaseOf grid topLevelCoordinates in
  let leafCellHalfSize := halfSizeOf leafStep in
  Some (foldl (fun st z =>
          foldl (fun st y =>
            foldl (fun st x =>
                     writeLeaf v0 v1 v2 topBase leafStep leafCellHalfSize
                               topLevelCell topLevelPair startIndex st x y z)
                  st (seqZ 0 (cell_resX topLevelCell)))
                st (seqZ 0 (cell_resY topLevelCell)))
              (0, []) (seqZ 0 (cell_resZ topLevelCell))).2.

Definition writeOverlappingLeafPairs (v0 v1 v2 : float3) (grid : GridData)
           (topLevelCell : TopLevelCell) (topLevelPair : uint2)
           (startIndex : Z) (pairs : list uint2) : option (list uint2) :=
  stores ← overlappingLeafPairStores v0 v1 v2 grid topLevelCell topLevelPair
                                     startIndex;
  storeAll stores pairs.

(** ** Common/Errata.h *)

Inductive Result := Success | Error.

(** An [Errata] as [FILL_ERRATA] builds it; of its fields only the
    message is kept, the others record the source position. *)
Record Errata := mkErrata { message : string }.

(** ** CLRayTracerEngine/BitonicSort.cpp *)

Module BitonicSort.

Inductive Kernels :=
| PARALLEL_BITONIC_B2_KERNEL
| PARALLEL_BITONIC_B4_KERNEL
| PARALLEL_BITONIC_B8_KERNEL
| PARALLEL_BITONIC_B16_KERNEL
| PARALLEL_BITONIC_C2_KERNEL
| PARALLEL_BITONIC_C4_KERNEL.

(** Allowed "Bx" kernels (bit mask): [#define ALLOWB (2+4+8)]. *)
Definition ALLOWB : Z := 2 + 4 + 8.

(** One kernel launch: the kernel, its arguments [inc] and [length << 1],
    and the global and local work sizes. *)
Record Launch := mkLaunch {
  kid : Kernels;
  arg_inc : Z;
  arg_dir : Z;
  nThreads : Z;
  wg : Z }.

(** The chain of conditionals that picks [kid] and [ninc]; each
    [#if (ALLOWB & n)] keeps or removes one of them. *)
Definition selectKernel (inc : Z) : Kernels * Z :=
  let st := (PARALLEL_BITONIC_B2_KERNEL, 0) in
  let st := if negb (Z.land ALLOWB 16 =? 0) && (inc >=? 8) && (st.2 =? 0)
            then (PARALLEL_BITONIC_B16_KERNEL, 4) else st in
  let st := if negb (Z.land ALLOWB 8 =? 0) && (inc >=? 4) && (st.2 =? 0)
            then (PARALLEL_BITONIC_B8_KERNEL, 3) else st in
  let st := if negb (Z.land ALLOWB 4 =? 0) && (inc >=? 2) && (st.2 =? 0)
            then (PARALLEL_BITONIC_B4_KERNEL, 2) else st in
  if st.2 =? 0 then (PARALLEL_BITONIC_B2_KERNEL, 1) else st.

Section Sort.

(** The compute backend: setting the arguments, enqueueing, flushing
    and waiting either all succeed or the launch reports an error. *)
Variable backend : Launch -> option Errata.
Variable _maxWorkgroupSize : Z.

Definition launchOf (num_items length inc : Z) : Launch * Z :=
  let '(kid, ninc) := selectKernel inc in
  let nThreads := i32 (Z.shiftr num_items ninc) in
  let wg := i32 _maxWorkgroupSize in
  let wg := zmin wg 256 in
  let wg := zmin wg nThreads in
  (mkLaunch kid inc (i32 (Z.shiftl length 1)) nThreads wg, ninc).

(** [while (inc > 0) { ...; inc >>= ninc; }]: the result, the
    [Errata] written on failure and the launches issued. *)
Fixpoint incLoop (fuel : nat) (num_items length inc : Z)
  : option (Result * option Errata * list Launch) :=
  match fuel with
  | O => None
  | S fuel =>
      if inc >? 0 then
        let '(launch, ninc) := launchOf num_items length inc in
        match backend launch with
        | Some e => Some (Error, Some e, [launch])
        | None =>
            '(res, err, rest) ← incLoop fuel num_items length (Z.shiftr inc ninc);
            Some (res, err, launch :: rest)
        end
      else Some (Success, None, [])
  end.

(** [for (int length = 1; length < num_items; length <<= 1)]; the
    comparison is made in [size_t]. *)
Fixpoint lengthLoop (fuel : nat) (num_items length : Z)
  : option (Result * option Errata * list Launch) :=
  match fuel with
  | O => None
  | S fuel =>
      if u64 length <? num_items then
        '(res, err, ls) ← incLoop 32 num_items length length;
        match res with
        | Error => Some (Error, err, ls)
        | Success =>
            '(res, err, rest) ←
               lengthLoop fuel num_items (i32 (Z.shiftl length 1));
            Some (res, err, ls ++ rest)
        end
      else Some (Success, None, [])
  end.

Definition sort (num_items : Z) : option (Result * option Errata * list Launch) :=
  lengthLoop 64 num_items 1.

End Sort.

End BitonicSort.

(** ** RTKernelUtils.h (host part) *)

(** [for (int shift = 1; shift < 64; shift++) if ((pow2 << shift) == x) return true;] *)
Fixpoint isPowerOfTwo_loop (fuel : nat) (x shift : Z) : bool :=
  match fuel with
  | O => false
  | S fuel =>
      if shift <? 64 then
        if u64 (Z.shiftl 1 shift) =? x then true
        else isPowerOfTwo_loop fuel x (shift + 1)
      else false
  end.

Definition isPowerOfTwo (x : Z) : bool :=
  if (x =? 0) || (x =? 1) then true else isPowerOfTwo_loop 64 x 1.

(** ** CLRayTracerEngine/PrefixSum.cpp *)

Module PrefixSum.

Inductive Kernel := group_prefixSum | global_prefixSum.

Record Launch := mkLaunch {
  kernel : Kernel;
  arg_offset : Z;
  arg_length : Z;
  globalThreads : Z;
  localThreads : Z }.

Section Compute.

Variable backend : Launch -> option Errata.
Variable _maxWorkgroupSize : Z.
Variable _deviceLocalMemory : Z.

(** Rounding of the global size up to a multiple of the local size. *)
Definition roundUp (globalThreads localThreads : Z) : option Z :=
  if localThreads =? 0 then None
  else Some (u64 (Z.quot (u64 (globalThreads + localThreads - 1)) localThreads
                  * localThreads)).

Definition invokeGroupKernel (offset length : Z) : option (option Errata * Launch) :=
  if offset =? 0 then None
  else
    let dataSize := Z.quot length offset in
    let localThreads := _maxWorkgroupSize in
    let globalThreads := Z.shiftr (u64 (dataSize + 1)) 1 in
    globalThreads ← roundUp globalThreads localThreads;
    let launch := mkLaunch group_prefixSum offset length globalThreads
                           _maxWorkgroupSize in
    Some (backend launch, launch).

Definition invokeGlobalKernel (offset length : Z) : option (option Errata * Launch) :=
  let localThreads := _maxWorkgroupSize in
  let localDataSize := u64 (Z.shiftl localThreads 1) in
  let globalThreads := u32 (length - offset) in
  if u64 (offset * localDataSize) =? 0 then None
  else
    let globalThreads :=
      u64 (globalThreads
           - Z.quot globalThreads (u64 (offset * localDataSize)) * offset) in
    globalThreads ← roundUp globalThreads localThreads;
    let launch := mkLaunch global_prefixSum offset length globalThreads
                           _maxWorkgroupSize in
    Some (backend launch, launch).

(** [for (size_t offset = 1; offset < size; offset *= localDataSize)]. *)
Fixpoint scanLoop (fuel : nat) (size localDataSize offset : Z)
  : option (Result * option Errata * list Launch) :=
  match fuel with
  | O => None
  | S fuel =>
      if offset <? size then
        if offset =? 0 then None
        else
          '(err1, ls1) ←
             (if Z.quot size offset >? 1 then
                '(e, l) ← invokeGroupKernel (u32 offset) (u32 size);
                Some (e, [l])
              else Some (None, []));
          match err1 with
          | Some e => Some (Error, Some e, ls1)
          | None =>
              '(err2, ls2) ←
                 (if offset >? 1 then
                    '(e, l) ← invokeGlobalKernel (u32 offset) (u32 size);
                    Some (e, [l])
                  else Some (None, []));
              match err2 with
              | Some e => Some (Error, Some e, ls1 ++ ls2)
              | None =>
                  '(res, err, rest) ←
                     scanLoop fuel size localDataSize (u64 (offset * localDataSize));
                  Some (res, err, ls1 ++ ls2 ++ rest)
              end
          end
      else Some (Success, None, [])
  end.

Definition sizeof_CL_INT : Z := 4.

Definition computePrefixSum (fuel : nat) (size : Z)
  : option (Result * option Errata * list Launch) :=
  if negb (isPowerOfTwo size) then
    Some (Error,
          Some (mkErrata "Input size must be adjusted to power of 2"),
          [])
  else
    let localDataSize := u64 (Z.shiftl _maxWorkgroupSize 1) in
    let neededLocalMemory := u64 (localDataSize * sizeof_CL_INT) in
    if neededLocalMemory >? _deviceLocalMemory then
      Some (Error,
            Some (mkErrata "Insufficient Local Memory"),
            [])
    else scanLoop fuel size localDataSize 1.

End Compute.

End PrefixSum.

(** ** RTKernelUtils.h, CLPortability.h: sizes of buffers and launches *)

Definition packIntsToLong (a b : Z) : Z :=
  Z.lor (u64 (Z.shiftl a 32)) (Z.land b 4294967295).

(** [software_clz(cl_ulong)]: the mask starts at bit 63 and at most 64
    positions are tried. *)
Fixpoint clz64_loop (fuel : nat) (x mask counter : Z) : Z :=
  match fuel with
  | O => counter
  | S fuel =>
      if (Z.land x mask =? 0) && (counter <? 64)
      then clz64_loop fuel x (Z.shiftr mask 1) (counter + 1)
      else counter
  end.

Definition CLZ64 (x : Z) : Z := clz64_loop 65 x 9223372036854775808 0.

(** [CL_USHORT shift = 64 - CLZ(x); return 1L << (shift - 1);].  The
    function is compiled for the host only, where [long] has 32 bits: the
    shift of [1L] is undefined for a negative count and leaves the range
    of [long] from 31 on; both are the failure [None]. *)
Definition largestPowerOfTwo (x : Z) : option Z :=
  let shift := (64 - CLZ64 x) mod 2 ^ 16 in
  let count := shift - 1 in
  if (0 <=? count) && (count <? 31) then Some (u64 (Z.shiftl 1 count))
  else None.

(** [number % multiple] divides by [multiple]; a zero divisor is the
    failure [None]. *)
Definition closestMultipleTo (number multiple : Z) : option Z :=
  if multiple =? 0 then None
  else if Z.rem number multiple =? 0 then Some number
  else Some (u32 (u32 (Z.quot number multiple + 1) * multiple)).

(** ** CLRayTracerEngine/BVHManager.cpp, TwoLevelGridManager.cpp *)

Module BVHManager.

(** [initializeFrame]: the number of entries of the buffer handed to the
    bitonic sorter,
    [_mortonBufferItems = largestPowerOfTwo(_bvhLeavesCount);
     if (_mortonBufferItems < _bvhLeavesCount) _mortonBufferItems *= 2;]. *)
Definition mortonBufferItems (_bvhLeavesCount : Z) : option Z :=
  p ← largestPowerOfTwo _bvhLeavesCount;
  let items := u32 p in
  Some (if items <? _bvhLeavesCount then u32 (items * 2) else items).

End BVHManager.

Module TwoLevelGridManager.

(** [initializeFrame]: the padded sizes
    [_cellsCountPowOfTwo = largestPowerOfTwo(_cellsCount) << 1] and
    [_numPrimitivesPowOfTwo = largestPowerOfTwo(_numPrimitives) << 1]. *)
Definition powOfTwo (count : Z) : option Z :=
  p ← largestPowerOfTwo count;
  Some (u32 (u64 (Z.shiftl p 1))).

End TwoLevelGridManager.

(** ** AccelerationStructs/BVH.h: Morton codes *)

(** The multipliers and masks are [0x00010001], [0xFF0000FF], [0x00000101],
    [0x0F00F00F], [0x00000011], [0xC30C30C3], [0x00000005], [0x49249249]. *)
Definition expandBits (v : Z) : Z :=
  let v := Z.land (u32 (v * 65537)) 4278190335 in
  let v := Z.land (u32 (v * 257)) 251719695 in
  let v := Z.land (u32 (v * 17)) 3272356035 in
  let v := Z.land (u32 (v * 5)) 1227133513 in
  v.

(** One coordinate of [morton3D]:
    [x = min(max(x * 1024.0f, 0.0f), 1023.0f); ... (CL_UINT)x]. *)
Definition mortonCell (x : float) : Z :=
  to_uint (min (max (mul x (of_Z 1024)) zero) (of_Z 1023)).

Definition morton3D (x y z : float) : Z :=
  let xx := expandBits (mortonCell x) in
  let yy := expandBits (mortonCell y) in
  let zz := expandBits (mortonCell z) in
  u32 (u32 (u32 (xx * 4) + u32 (yy * 2)) + zz).

(** [translateScale] and [normalizeScale] of [RTKernelUtils.h]. *)
Definition translateScale (oldMin oldMax value newMin newMax : float) : float :=
  let oldLen := sub oldMax oldMin in
  let percentage := div value oldLen in
  let newLen := sub newMax newMin in
  add (mul percentage newLen) newMin.

Definition normalizeScale (oldMin oldMax value : float) : float :=
  translateScale oldMin oldMax value zero one.

(** [calculateMorton]: the leaf node and the (code, leaf) pair of the
    triangle [leafIndex].  [struct BVHNode result] is not initialised by
    the sources; its initial content is the parameter [result0], of which
    only the parent field survives. *)
Definition calculateMorton (result0 : BVHNode) (leavesBuffer : list BVHNode)
           (mortonCodesToLeaves : list uint2) (leafIndex : Z) (scene : Scene)
  : option (list BVHNode * list uint2) :=
  triangleRef ← getTriangleRefByIndex scene leafIndex;
  model ← getModelAtIndex (cx triangleRef) scene;
  mesh ← getMeshAtIndex (cy triangleRef) model;
  '(vertex1, vertex2, vertex3) ← triangleVertices mesh (cz triangleRef);
  let result :=
    mkBVHNode (data0 result0) (data1 result0) (data2 result0) (data3 result0)
              (calculateTriangleAABB vertex1 vertex2 vertex3) in
  let three := of_Z 3 in
  let vertex1 :=
    mkFloat3 (div (add (add (fx vertex1) (fx vertex2)) (fx vertex3)) three)
             (div (add (add (fy vertex1) (fy vertex2)) (fy vertex3)) three)
             (div (add (add (fz vertex1) (fz vertex2)) (fz vertex3)) three) in
  let sceneBB := modelsBoundingBox scene in
  let vertex1 :=
    mkFloat3
      (normalizeScale (qx (bounds0 sceneBB)) (qx (bounds1 sceneBB)) (fx vertex1))
      (normalizeScale (qy (bounds0 sceneBB)) (qy (bounds1 sceneBB)) (fy vertex1))
      (normalizeScale (qz (bounds0 sceneBB)) (qz (bounds1 sceneBB)) (fz vertex1)) in
  let result := set_type LEAF_NODE result in
  let result :=
    mkBVHNode (data0 result) (cz triangleRef) (cy triangleRef) (cx triangleRef)
              (boundingBox result) in
  let mortonToLeaf :=
    mkUint2 (morton3D (fx vertex1) (fy vertex1) (fz vertex1)) leafIndex in
  leavesBuffer ← wr leavesBuffer leafIndex result;
  mortonCodesToLeaves ← wr mortonCodesToLeaves leafIndex mortonToLeaf;
  Some (leavesBuffer, mortonCodesToLeaves).

(** ** Primitives/AABB.h: unions and containment *)

Definition min4 (a b : float4) : float4 :=
  mkFloat4 (min (qx a) (qx b)) (min (qy a) (qy b)) (min (qz a) (qz b))
           (min (qw a) (qw b)).

Definition max4 (a b : float4) : float4 :=
  mkFloat4 (max (qx a) (qx b)) (max (qy a) (qy b)) (max (qz a) (qz b))
           (max (qw a) (qw b)).

Definition merge (a b : AABB) : AABB :=
  mkAABB (min4 (bounds0 a) (bounds0 b)) (max4 (bounds1 a) (bounds1 b)).

Definition merge3 (a b c : AABB) : AABB :=
  mkAABB (min4 (min4 (bounds0 a) (bounds0 b)) (bounds0 c))
         (max4 (max4 (bounds1 a) (bounds1 b)) (bounds1 c)).

Definition AABBContains (container contained : AABB) : bool :=
  let xIn :=
    containedInRange (qx (bounds0 container)) (qx (bounds1 container))
                     (qx (bounds0 contained))
    && containedInRange (qx (bounds0 container)) (qx (bounds1 container))
                        (qx (bounds1 contained)) in
  let yIn :=
    containedInRange (qy (bounds0 container)) (qy (bounds1 container))
                     (qy (bounds0 contained))
    && containedInRange (qy (bounds0 container)) (qy (bounds1 container))
                        (qy (bounds1 contained)) in
  let zIn :=
    containedInRange (qz (bounds0 container)) (qz (bounds1 container))
                     (qz (bounds0 contained))
    && containedInRange (qz (bounds0 container)) (qz (bounds1 container))
                        (qz (bounds1 contained)) in
  zIn && yIn && xIn.

Definition AABBOverlaps (a b : AABB) : bool :=
  let xNoOverlap :=
    ltb (min (qx (bounds1 a)) (qx (bounds1 b))) (max (qx (bounds0 a)) (qx (bounds0 b))) in
  let yNoOverlap :=
    ltb (min (qy (bounds1 a)) (qy (bounds1 b))) (max (qy (bounds0 a)) (qy (bounds0 b))) in
  let zNoOverlap :=
    ltb (min (qz (bounds1 a)) (qz (bounds1 b))) (max (qz (bounds0 a)) (qz (bounds0 b))) in
  negb (xNoOverlap || yNoOverlap || zNoOverlap).

(** ** AccelerationStructs/BVH.h: bounding boxes of the inner nodes *)

Definition set_boundingBox (b : AABB) (n : BVHNode) : BVHNode :=
  mkBVHNode (data0 n) (data1 n) (data2 n) (data3 n) b.

Definition mergeBoundingBox (nodes : list BVHNode) (currentIdx : Z)
  : option (list BVHNode) :=
  current ← rd nodes currentIdx;
  let child_A := childA current in
  let child_B := childB current in
  nodeA ← rd nodes child_A;
  nodeB ← rd nodes child_B;
  upd nodes currentIdx
      (set_boundingBox (merge3 (boundingBox nodeA) (boundingBox nodeB)
                               (boundingBox current))).

(** The assignments executed by [writeLeafPairs] for the top-level pair
    [tlpIndex]. *)
Definition leafPairStores (scene : Scene) (topLevelPairs : list uint2)
           (topLevelCells : list TopLevelCell) (tlpIndex : Z) (grid : GridData)
           (prefixSum counters : list Z) : option (list Store) :=
  p ← rd prefixSum tlpIndex;
  c ← rd counters tlpIndex;
  let myStart := u32 (p - c) in
  topLevelPair ← rd topLevelPairs tlpIndex;
  '(v0, v1, v2) ← fetchTriangle scene (uy topLevelPair);
  topLevelCell ← rd topLevelCells (ux topLevelPair);
  overlappingLeafPairStores v0 v1 v2 grid topLevelCell topLevelPair myStart.

Definition writeLeafPairs (scene : Scene) (topLevelPairs : list uint2)
           (topLevelCells : list TopLevelCell) (tlpIndex : Z) (grid : GridData)
           (prefixSum counters : list Z) (pairs : list uint2)
  : option (list uint2) :=
  stores ← leafPairStores scene topLevelPairs topLevelCells tlpIndex grid
                          prefixSum counters;
  storeAll stores pairs.

(** ** Transform.h: the transform matrix *)

Module Matrix4.

(** [struct Matrix4]: the twelve entries [data[0]], ..., [data[11]] of a
    3 x 4 matrix, row by row. *)
Record Matrix4 := mkMatrix4 {
  m0 : float; m1 : float; m2 : float; m3 : float;
  m4 : float; m5 : float; m6 : float; m7 : float;
  m8 : float; m9 : float; m10 : float; m11 : float }.

Definition two : float := Eval cbv in of_Z 2.

Definition fillTranslate (t : float3) : Matrix4 :=
  mkMatrix4 one zero zero (fx t)
            zero one zero (fy t)
            zero zero one (fz t).

(** [setOrientationAndPos] assigns all twelve entries; the integer
    literals [1] and [2] are converted to [float]. *)
Definition setOrientationAndPos (q : Transform.Quaternion) (pos : float3) : Matrix4 :=
  let qr := Transform.r q in
  let qi := Transform.i q in
  let qj := Transform.j q in
  let qk := Transform.k q in
  mkMatrix4
    (sub one (add (mul (mul two qj) qj) (mul (mul two qk) qk)))
    (add (mul (mul two qi) qj) (mul (mul two qk) qr))
    (sub (mul (mul two qi) qk) (mul (mul two qj) qr))
    (fx pos)
    (sub (mul (mul two qi) qj) (mul (mul two qk) qr))
    (sub one (add (mul (mul two qi) qi) (mul (mul two qk) qk)))
    (add (mul (mul two qj) qk) (mul (mul two qi) qr))
    (fy pos)
    (add (mul (mul two qi) qk) (mul (mul two qj) qr))
    (sub (mul (mul two qj) qk) (mul (mul two qi) qr))
    (sub one (add (mul (mul two qi) qi) (mul (mul two qj) qj)))
    (fz pos).

End Matrix4.

(** ** Vocabulary of the statements and sample data *)

(** What the source launches at a step with increment [inc], on a device
    whose maximal workgroup size is [maxWG]. *)
Definition launchShape (maxWG N : Z) (l : BitonicSort.Launch) : Prop :=
  let inc := BitonicSort.arg_inc l in
  let ninc := if 4 <=? inc then 3 else if 2 <=? inc then 2 else 1 in
  BitonicSort.kid l =
    (if 4 <=? inc then BitonicSort.PARALLEL_BITONIC_B8_KERNEL
     else if 2 <=? inc then BitonicSort.PARALLEL_BITONIC_B4_KERNEL
     else BitonicSort.PARALLEL_BITONIC_B2_KERNEL) /\
  BitonicSort.nThreads l = Z.shiftr N ninc /\
  BitonicSort.wg l = Z.min (Z.min 256 maxWG) (Z.shiftr N ninc).

(** A hierarchy over two leaves: leaf 0 spans [5, 6] and leaf 1 spans
    [2, 3] along [x] (both [-1, 1] along [y] and [z]); node 2 is the root
    with children A = 0 and B = 1.  The ray leaves the origin along [x]. *)
Definition twoLeafBox (lo hi : Z) (ty : float) : AABB :=
  mkAABB (mkFloat4 (of_Z lo) (of_Z (-1)) (of_Z (-1)) ty)
         (mkFloat4 (of_Z hi) (of_Z 1) (of_Z 1) zero).

Definition twoLeafBVH : list BVHNode :=
  [ mkBVHNode 2 0 0 0 (twoLeafBox 5 6 LEAF_NODE);
    mkBVHNode 2 1 0 0 (twoLeafBox 2 3 LEAF_NODE);
    mkBVHNode UINT_MAX 0 1 0 (twoLeafBox 2 6 INNER_NODE) ].

Definition xRay : Ray :=
  mkRay 0 (mkFloat3 zero zero zero) (mkFloat3 one zero zero).

Definition atRoot : Traversal :=
  mkTraversal (UINT_MAX :: replicate 31 0) 1 2 (mkFloat4 zero zero zero FLT_MAX) 0.

Definition emptyScene : Scene :=
  mkScene [] (twoLeafBox 2 6 zero).

(** The cells visited by three nested loops, [z] outermost and [x]
    innermost. *)
Definition cellsOf (xs ys zs : list Z) : list (Z * Z * Z) :=
  z ← zs; y ← ys; x ← xs; [(x, y, z)].

(** The property of a pair written by [writeOverlappingLeafPairs]: it
    names a leaf cell [(x, y, z)] of the top-level cell whose box passes
    the separating-axis test against the triangle. *)
Definition preciseLeafPair (v0 v1 v2 : float3) (grid : GridData)
           (topLevelCell : TopLevelCell) (topLevelPair : uint2)
           (topLevelCoordinates : uint3) (p : uint2) : Prop :=
  exists x y z,
    0 <= x < cell_resX topLevelCell /\
    0 <= y < cell_resY topLevelCell /\
    0 <= z < cell_resZ topLevelCell /\
    AABBTriangleIntersect
      (leafCellCenter (topBaseOf grid topLevelCoordinates)
                      (leafStepOf grid topLevelCell)
                      (halfSizeOf (leafStepOf grid topLevelCell)) x y z)
      (halfSizeOf (leafStepOf grid topLevelCell)) v0 v1 v2 = true /\
    ux p = u32 (getCellIndex x y z (cell_resX topLevelCell)
                  (cell_resY topLevelCell) (cell_resZ topLevelCell)
                + firstLeafIdx topLevelCell) /\
    uy p = uy topLevelPair.

(** The cells between the first and the last cell of a span. *)
Definition spanCells (span : uint3 * uint3) : list (Z * Z * Z) :=
  cellsOf (seqZ (cx span.1) (cx span.2 - cx span.1 + 1))
          (seqZ (cy span.1) (cy span.2 - cy span.1 + 1))
          (seqZ (cz span.1) (cz span.2 - cz span.1 + 1)).

(** The pair written for a cell: its linear index and the triangle. *)
Definition pairOfCell (grid : GridData) (triangleIdx : Z) (c : Z * Z * Z) : uint2 :=
  mkUint2 (getCellIndex c.1.1 c.1.2 c.2 (resX grid) (resY grid) (resZ grid))
          triangleIdx.

(** A scene of one triangle, [(-0.5,-0.5,0) (0.5,-0.5,0) (0,0.5,0)], in a
    grid of 2 x 2 x 2 cells of size 1 over the box [[-1,1]^3]. *)
Definition oneTriangleScene : Scene :=
  mkScene
    [ mkModel 1
        [ mkMesh 1 0
            [ mkFloat3 (neg half) (neg half) zero;
              mkFloat3 half (neg half) zero;
              mkFloat3 zero half zero ]
            [0; 1; 2] ] ]
    (mkAABB (mkFloat4 (neg one) (neg one) (neg one) zero)
            (mkFloat4 one one one zero)).

Definition cubeGrid : GridData :=
  mkGridData 2 2 2 one one one (of_Z 2)
    (mkAABB (mkFloat4 (neg one) (neg one) (neg one) zero)
            (mkFloat4 one one one zero)).

Definition noPairs : list uint2 := replicate 4 (mkUint2 UINT_MAX UINT_MAX).

(** A grid of 4097 x 4097 x 1 unit cells and a triangle that spans it. *)
Definition wideGrid : GridData :=
  mkGridData 4097 4097 1 one one one (of_Z 2)
    (mkAABB (mkFloat4 zero zero zero zero)
            (mkFloat4 (of_Z 4097) (of_Z 4097) one zero)).

Definition wideTriangle : float3 * float3 * float3 :=
  (mkFloat3 zero zero zero, mkFloat3 (of_Z 4097) zero zero,
   mkFloat3 zero (of_Z 4097) zero).

(** Four leaves with Morton codes 1, 2, 4, 5 held by leaves 3, 0, 1, 2. *)
Definition fourCodes : list uint2 :=
  [mkUint2 1 3; mkUint2 2 0; mkUint2 4 1; mkUint2 5 2].

Definition blankNode : BVHNode :=
  mkBVHNode 0 0 0 0 (mkAABB (mkFloat4 zero zero zero zero)
                            (mkFloat4 zero zero zero zero)).

(** Bit [n] of [expandBits v]: bit [n / 3] of [v] at the positions
    [0, 3, ..., 27], zero elsewhere. *)
Definition expandBits_bit (v n : Z) : bool :=
  (n mod 3 =? 0) && (n <? 30) && Z.testbit v (n / 3).

(** The order of [float] comparisons: a number that is not NaN has a key,
    and [<=] on numbers is the lexicographic order of the keys. *)
Definition is_nan (x : float) : bool :=
  match x with S754_nan => true | _ => false end.

Definition fkey (x : float) : Z * Z * Z :=
  match x with
  | S754_infinity s => (if s then -2 else 2, 0, 0)
  | S754_finite s m e => if s then (-1, - e, - Zpos m) else (1, e, Zpos m)
  | _ => (0, 0, 0)
  end.

Definition lexle (a b : Z * Z * Z) : Prop :=
  a.1.1 < b.1.1 \/
  (a.1.1 = b.1.1 /\ (a.1.2 < b.1.2 \/ (a.1.2 = b.1.2 /\ a.2 <= b.2))).

(** A box whose six coordinates are numbers, and a box whose minimum
    corner is below its maximum corner on every axis. *)
Definition numeric3 (v : float4) : bool :=
  negb (is_nan (qx v)) && negb (is_nan (qy v)) && negb (is_nan (qz v)).

Definition numericBox (b : AABB) : bool :=
  numeric3 (bounds0 b) && numeric3 (bounds1 b).

Definition orderedBox (b : AABB) : bool :=
  leb (qx (bounds0 b)) (qx (bounds1 b)) && leb (qy (bounds0 b)) (qy (bounds1 b))
  && leb (qz (bounds0 b)) (qz (bounds1 b)).

(** The empty box of [defaultAABB] and [constructNode]. *)
Definition emptyBox : AABB :=
  mkAABB (mkFloat4 FLT_MAX FLT_MAX FLT_MAX INNER_NODE)
         (mkFloat4 FLT_MIN FLT_MIN FLT_MIN zero).




(** The outcome of a host driver that issues launches until one fails:
    [Success] after launches that all succeeded, or [Error] carrying the
    [Errata] of the last launch, the only one that failed. *)
Definition stopsAtFirstFailure {L} (backend : L -> option Errata)
           (res : Result) (err : option Errata) (ls : list L) : Prop :=
  match res with
  | Success => err = None /\ Forall (fun l => backend l = None) ls
  | Error =>
      exists ls' l e,
        ls = ls' ++ [l] /\ Forall (fun l => backend l = None) ls' /\
        backend l = Some e /\ err = Some e
  end.

(** Triangle counts of a list of models and of a list of submeshes, and
    the scenes whose headers agree with their content: the triangle count
    of every model is the sum of the counts of its submeshes, no count is
    negative, and the counts of triangles, models and submeshes fit the
    [int] and [CL_UINT] variables that hold them. *)
Definition modelTriangles (ms : list Model) : Z :=
  foldr (fun m acc => model_numberOfTriangles m + acc) 0 ms.

Definition meshTriangles (ms : list Mesh) : Z :=
  foldr (fun m acc => mesh_numberOfTriangles m + acc) 0 ms.

Definition consistentModel (m : Model) : Prop :=
  model_numberOfTriangles m = meshTriangles (submeshes m) /\
  Forall (fun s => 0 <= mesh_numberOfTriangles s) (submeshes m) /\
  Z.of_nat (length (submeshes m)) < 2 ^ 31.

Definition consistentScene (scene : Scene) : Prop :=
  Forall consistentModel (models scene) /\
  modelTriangles (models scene) < 2 ^ 31 /\
  Z.of_nat (length (models scene)) < 2 ^ 31.

(** Position [m] of the first [lso + 1] keys shares with the key [precis]
    a prefix of more than [d_min] bits. *)
Definition sharesPrefix (list : list uint2) (lso precis d_min m : Z) : Prop :=
  0 <= m <= lso /\
  exists code, keyAt list m = Some code /\ CLZ (Z.lxor precis code) > d_min.

(** Five leaves, three of which share the Morton code 3. *)
Definition equalCodes : list uint2 :=
  [mkUint2 3 0; mkUint2 3 1; mkUint2 3 2; mkUint2 7 3; mkUint2 9 4].

(** The leaf cells of a top-level cell in the order of the loops, the
    test that selects a leaf cell for a triangle, and the pair written
    for a selected leaf cell. *)
Definition leafCells (topLevelCell : TopLevelCell) : list (Z * Z * Z) :=
  cellsOf (seqZ 0 (cell_resX topLevelCell)) (seqZ 0 (cell_resY topLevelCell))
          (seqZ 0 (cell_resZ topLevelCell)).

Definition leafHit (v0 v1 v2 : float3) (grid : GridData)
           (topLevelCell : TopLevelCell) (topLevelCoordinates : uint3)
           (c : Z * Z * Z) : bool :=
  AABBTriangleIntersect
    (leafCellCenter (topBaseOf grid topLevelCoordinates)
                    (leafStepOf grid topLevelCell)
                    (halfSizeOf (leafStepOf grid topLevelCell)) c.1.1 c.1.2 c.2)
    (halfSizeOf (leafStepOf grid topLevelCell)) v0 v1 v2.

Definition pairOfLeaf (topLevelCell : TopLevelCell) (topLevelPair : uint2)
           (c : Z * Z * Z) : uint2 :=
  mkUint2 (u32 (getCellIndex c.1.1 c.1.2 c.2 (cell_resX topLevelCell)
                  (cell_resY topLevelCell) (cell_resZ topLevelCell)
                + firstLeafIdx topLevelCell))
          (uy topLevelPair).

(** Eight top-level cells of 2 x 2 x 1 leaf cells each. *)
Definition sampleCells : list TopLevelCell :=
  map (fun i => mkTopLevelCell 2 2 1 (4 * i)) (seqZ 0 8).

(** * Properties *)

(** ** Triangle bounding boxes *)

(** C8. A triangle lying in the plane [x = 4]: its raw extent along [x] is
    zero, so the box is marked flat in [x] and [FLT_EPSILON] is added to the
    maximum and subtracted from the minimum.  In binary32 both results
    round back to 4, the extent of the returned box along [x] is zero and
    the box is still a plane. *)
Theorem calculateTriangleAABB_stays_flat :
  let v1 := mkFloat3 (of_Z 4) zero zero in
  let v2 := mkFloat3 (of_Z 4) one zero in
  let v3 := mkFloat3 (of_Z 4) zero one in
  let b := calculateTriangleAABB v1 v2 v3 in
  qx (bounds0 b) = of_Z 4 /\ qx (bounds1 b) = of_Z 4 /\
  sub (qx (bounds1 b)) (qx (bounds0 b)) = zero /\
  gtb (sub (qx (bounds1 b)) (qx (bounds0 b))) zero = false.
Proof. vm_compute. auto. Qed.

(** ** Ray-triangle intersection *)

(** C3. A ray parallel to the plane of the triangle: the determinant is
    exactly zero, hence below [FLT_EPSILON] in magnitude and the hit flag is
    0, but [inv_det] is infinite and the product
    [dot(edge2, qvec) * inv_det * flag] is NaN: the [w] lane of the result
    is NaN, not 0. *)
Theorem triangleIntersect_parallel_ray_nan :
  let vert0 := mkFloat3 zero zero zero in
  let vert1 := mkFloat3 one zero zero in
  let vert2 := mkFloat3 zero one zero in
  let orig := mkFloat3 zero zero one in
  let dir := mkFloat3 one zero zero in
  let det := dot (sub3 vert1 vert0) (cross dir (sub3 vert2 vert0)) in
  ltb (fabs det) FLT_EPSILON = true /\
  qw (triangleIntersect vert0 vert1 vert2 orig dir) = S754_nan /\
  eqb (qw (triangleIntersect vert0 vert1 vert2 orig dir)) zero = false.
Proof. vm_compute. auto. Qed.

(** ** Bitonic sort: kernel selection *)

Section SortLaunches.

Import BitonicSort.

Variable backend : Launch -> option Errata.
Variable maxWG : Z.

(** With [ALLOWB = 2+4+8] the B16 branch is compiled out. *)
Lemma selectKernel_spec inc :
  selectKernel inc =
    if 4 <=? inc then (PARALLEL_BITONIC_B8_KERNEL, 3)
    else if 2 <=? inc then (PARALLEL_BITONIC_B4_KERNEL, 2)
    else (PARALLEL_BITONIC_B2_KERNEL, 1).
Proof.
  unfold selectKernel.
  destruct (Z.geb_spec inc 8), (Z.geb_spec inc 4), (Z.geb_spec inc 2),
    (Z.leb_spec 4 inc), (Z.leb_spec 2 inc); try lia; reflexivity.
Qed.

Lemma i32_small n : - 2 ^ 31 <= n < 2 ^ 31 -> i32 n = n.
Proof. intros H. unfold i32. rewrite Z.mod_small; lia. Qed.

Lemma shiftr_bound N n : 0 <= N -> 0 <= n -> 0 <= Z.shiftr N n <= N.
Proof.
  intros HN Hn. rewrite Z.shiftr_div_pow2 by lia.
  assert (0 < 2 ^ n) by lia. split.
  - apply Z.div_pos; lia.
  - apply Z.div_le_upper_bound; nia.
Qed.

Lemma launchOf_shape N length inc :
  0 <= N < 2 ^ 31 -> 0 <= maxWG < 2 ^ 31 ->
  launchShape maxWG N (launchOf maxWG N length inc).1 /\
  (launchOf maxWG N length inc).2 =
    (if 4 <=? inc then 3 else if 2 <=? inc then 2 else 1).
Proof.
  intros HN HW. unfold launchOf, launchShape. rewrite selectKernel_spec. cbv zeta.
  assert (Hs : forall n, 0 <= n -> i32 (Z.shiftr N n) = Z.shiftr N n).
  { intros n Hn. apply i32_small. pose proof (shiftr_bound N n). lia. }
  rewrite (i32_small maxWG) by lia. unfold zmin.
  destruct (4 <=? inc) eqn:E4; [|destruct (2 <=? inc) eqn:E2];
    cbn [fst snd kid arg_inc nThreads wg]; rewrite ?E4, ?E2;
    rewrite Hs by lia; (split; [split; [reflexivity|split; [reflexivity|]]|reflexivity]);
    destruct (Z.ltb_spec maxWG 256);
    match goal with |- context [?a <? ?b] => destruct (Z.ltb_spec a b) end; lia.
Qed.

Lemma incLoop_shape N length fuel : forall inc res err ls,
  0 <= N < 2 ^ 31 -> 0 <= maxWG < 2 ^ 31 ->
  incLoop backend maxWG fuel N length inc = Some (res, err, ls) ->
  Forall (launchShape maxWG N) ls.
Proof.
  induction fuel as [|fuel IH]; intros inc res err ls HN HW; cbn [incLoop]; [discriminate|].
  destruct (inc >? 0); [|intros [= <- <- <-]; constructor].
  pose proof (launchOf_shape N length inc HN HW) as [Hsh _].
  destruct (launchOf maxWG N length inc) as [launch ninc]. cbn [fst] in Hsh.
  destruct (backend launch).
  - intros [= <- <- <-]. constructor; [exact Hsh|constructor].
  - destruct (incLoop backend maxWG fuel N length (Z.shiftr inc ninc))
      as [[[res' err'] rest]|] eqn:E; cbn; [|discriminate].
    intros [= <- <- <-]. constructor; [exact Hsh|]. eapply IH; eauto.
Qed.

Lemma incLoop_total N length fuel : forall inc,
  0 <= N < 2 ^ 31 -> 0 <= maxWG < 2 ^ 31 ->
  inc < 2 ^ Z.of_nat fuel ->
  is_Some (incLoop backend maxWG (S fuel) N length inc).
Proof.
  induction fuel as [|fuel IH]; intros inc HN HW Hinc.
  - cbn [incLoop]. destruct (Z.gtb_spec inc 0); [|eauto].
    change (2 ^ Z.of_nat 0) with 1 in Hinc. lia.
  - remember (S fuel) as f eqn:Ef. cbn [incLoop].
    destruct (Z.gtb_spec inc 0); [|eauto].
    pose proof (launchOf_shape N length inc HN HW) as [_ Hn].
    destruct (launchOf maxWG N length inc) as [launch ninc]. cbn [snd] in Hn.
    destruct (backend launch); [eauto|].
    assert (Hninc : 1 <= ninc <= 3) by (subst ninc; repeat case_match; lia).
    assert (Hlt : Z.shiftr inc ninc < 2 ^ Z.of_nat fuel).
    { rewrite Z.shiftr_div_pow2 by lia.
      rewrite Ef, Nat2Z.inj_succ, Z.pow_succ_r in Hinc by lia.
      assert (2 ^ 1 <= 2 ^ ninc) by (apply Z.pow_le_mono_r; lia).
      assert (inc / 2 ^ ninc <= inc / 2 ^ 1)
        by (apply Z.div_le_compat_l; lia).
      assert (inc / 2 ^ 1 < 2 ^ Z.of_nat fuel)
        by (apply Z.div_lt_upper_bound; lia).
      lia. }
    subst f.
    destruct (IH (Z.shiftr inc ninc) HN HW Hlt) as [[[res err] rest] ->]. cbn. eauto.
Qed.

Lemma lengthLoop_shape N fuel : forall length res err ls,
  0 <= N < 2 ^ 31 -> 0 <= maxWG < 2 ^ 31 ->
  lengthLoop backend maxWG fuel N length = Some (res, err, ls) ->
  Forall (launchShape maxWG N) ls.
Proof.
  induction fuel as [|fuel IH]; intros length res err ls HN HW; cbn [lengthLoop]; [discriminate|].
  destruct (u64 length <? N); [|intros [= <- <- <-]; constructor].
  destruct (incLoop backend maxWG 32 N length length) as [[[r1 e1] l1]|] eqn:E1;
    cbn; [|discriminate].
  pose proof (incLoop_shape _ _ _ _ _ _ _ HN HW E1) as H1.
  destruct r1.
  - destruct (lengthLoop backend maxWG fuel N (i32 (Z.shiftl length 1)))
      as [[[r2 e2] l2]|] eqn:E2; cbn; [|discriminate].
    intros [= <- <- <-]. apply Forall_app. split; [exact H1|]. eapply IH; eauto.
  - intros [= <- <- <-]. exact H1.
Qed.

Lemma lengthLoop_total N fuel : forall k,
  0 <= N <= 2 ^ 30 -> 0 <= maxWG < 2 ^ 31 ->
  0 <= k <= 30 -> 30 <= k + Z.of_nat fuel ->
  is_Some (lengthLoop backend maxWG (S fuel) N (2 ^ k)).
Proof.
  induction fuel as [|fuel IH]; intros k HN HW Hk Hf.
  - assert (k = 30) by lia. subst k. cbn [lengthLoop].
    change (u64 (2 ^ 30)) with (2 ^ 30).
    destruct (Z.ltb_spec (2 ^ 30) N); [lia|eauto].
  - remember (S fuel) as f eqn:Ef. cbn [lengthLoop].
    assert (Hp : 2 ^ k <= 2 ^ 30) by (apply Z.pow_le_mono_r; lia).
    assert (0 < 2 ^ k) by lia.
    unfold u64. rewrite Z.mod_small by lia.
    destruct (Z.ltb_spec (2 ^ k) N) as [Hlt|]; [|eauto].
    assert (Hk30 : k < 30).
    { destruct (Z.lt_ge_cases k 30) as [|Hge]; [assumption|].
      assert (k = 30) by lia. subst k. lia. }
    destruct (incLoop_total N (2 ^ k) 31 (2 ^ k)) as [[[r1 e1] l1] ->]; [lia|lia| |].
    { change (Z.of_nat 31) with 31. lia. }
    cbn. destruct r1; [|eauto].
    rewrite Z.shiftl_mul_pow2, Z.mul_comm, <- Z.pow_succ_r by lia.
    assert (2 ^ Z.succ k <= 2 ^ 30) by (apply Z.pow_le_mono_r; lia).
    rewrite i32_small by lia. subst f.
    destruct (IH (Z.succ k)) as [[[r2 e2] l2] ->]; [lia|lia|lia|lia|]. cbn. eauto.
Qed.

(** C2 (amended). For every array size up to [2^30], under any behaviour
    of the backend, [sort] returns, and every launch it issued at a step
    with increment [inc] used kernel B8 when [inc >= 4], else B4 when
    [inc >= 2], else B2 (B16 is never chosen), over [N >> ninc] threads
    ([ninc] = 3, 2, 1) with workgroup size
    [min(256, maxWorkgroupSize, N >> ninc)]. *)
Theorem sort_kernel_selection N :
  0 <= N <= 2 ^ 30 -> 0 <= maxWG < 2 ^ 31 ->
  exists res err ls,
    sort backend maxWG N = Some (res, err, ls) /\
    forall l, l ∈ ls -> launchShape maxWG N l.
Proof.
  intros HN HW. unfold sort.
  destruct (lengthLoop_total N 63 0) as [[[res err] ls] E]; [lia|lia|lia|lia|].
  change (2 ^ 0) with 1 in E.
  exists res, err, ls. split; [exact E|].
  intros l Hl.
  assert (HN' : 0 <= N < 2 ^ 31) by lia.
  pose proof (lengthLoop_shape _ _ _ _ _ _ HN' HW E) as HF.
  rewrite Forall_forall in HF. exact (HF l Hl).
Qed.

End SortLaunches.

(** A run of [sort] on 16 items with a backend that never fails. *)
Lemma sort_kernel_selection_witness :
  0 <= 16 <= 2 ^ 30 /\ 0 <= 1024 < 2 ^ 31 /\
  exists res err ls,
    BitonicSort.sort (fun _ => None) 1024 16 = Some (res, err, ls) /\
    forall l, l ∈ ls -> launchShape 1024 16 l.
Proof.
  assert (H1 : 0 <= 16 <= 2 ^ 30) by lia.
  assert (H2 : 0 <= 1024 < 2 ^ 31) by lia.
  split; [exact H1|]. split; [exact H2|].
  exact (sort_kernel_selection (fun _ => None) 1024 16 H1 H2).
Defined.

(** C2 as stated fails: sorting 16 items, the step with [inc = 8] is run by
    kernel B8 over [16 >> 3] threads, not by B16 over [16 >> 4]. *)
Lemma sort_inc8_not_B16 :
  exists res err ls l,
    BitonicSort.sort (fun _ => None) 256 16 = Some (res, err, ls) /\
    l ∈ ls /\ 8 <= BitonicSort.arg_inc l /\
    BitonicSort.kid l = BitonicSort.PARALLEL_BITONIC_B8_KERNEL /\
    BitonicSort.kid l <> BitonicSort.PARALLEL_BITONIC_B16_KERNEL /\
    BitonicSort.nThreads l = 2 /\ BitonicSort.nThreads l <> Z.shiftr 16 4.
Proof.
  eexists _, _, _, (BitonicSort.mkLaunch BitonicSort.PARALLEL_BITONIC_B8_KERNEL 8 16 2 2).
  split; [vm_compute; reflexivity|].
  split; [|cbn; repeat split; (lia || discriminate)].
  do 3 apply list_elem_of_further. apply list_elem_of_here.
Qed.

(** ** Prefix sum: configuration errors *)

Section PrefixSumGuards.

Import PrefixSum.

Lemma isPowerOfTwo_loop_spec x fuel : forall s,
  1 <= s ->
  isPowerOfTwo_loop fuel x s = true <->
  exists k, s <= k < 64 /\ k < s + Z.of_nat fuel /\ x = 2 ^ k.
Proof.
  induction fuel as [|fuel IH]; intros s Hs; cbn [isPowerOfTwo_loop].
  - split; [discriminate|]. intros (k & ? & ? & _). lia.
  - destruct (Z.ltb_spec s 64) as [Hlt|Hge].
    + assert (Hu : u64 (Z.shiftl 1 s) = 2 ^ s).
      { rewrite Z.shiftl_1_l. unfold u64. apply Z.mod_small.
        split; [lia|]. apply Z.pow_lt_mono_r; lia. }
      rewrite Hu. destruct (Z.eqb_spec (2 ^ s) x) as [E|NE].
      * split; [|reflexivity]. intros _. exists s. lia.
      * rewrite IH by lia. split.
        -- intros (k & ? & ? & ?). exists k. lia.
        -- intros (k & ? & ? & ?). exists k.
           assert (k <> s) by (intros ->; congruence). lia.
    + split; [discriminate|]. intros (k & ? & ? & _). lia.
Qed.

(** [isPowerOfTwo] accepts zero and the powers of two below [2^64]. *)
Lemma isPowerOfTwo_spec x :
  isPowerOfTwo x = true <-> x = 0 \/ exists k, 0 <= k < 64 /\ x = 2 ^ k.
Proof.
  unfold isPowerOfTwo.
  destruct (Z.eqb_spec x 0) as [->|N0]; cbn [orb]; [tauto|].
  destruct (Z.eqb_spec x 1) as [->|N1]; cbn [orb].
  - split; [|reflexivity]. intros _. right. exists 0. split; [lia|reflexivity].
  - rewrite isPowerOfTwo_loop_spec by lia. split.
    + intros (k & ? & ? & ?). right. exists k. lia.
    + intros [?|(k & ? & ?)]; [contradiction|]. exists k.
      assert (k <> 0) by (intros ->; apply N1; assumption).
      change (Z.of_nat 64) with 64. lia.
Qed.

Variable backend : Launch -> option Errata.
Variable maxWG localMem : Z.

(** C7 (amended). [computePrefixSum] returns [Error] with the [Errata]
    filled and without any launch when the size is neither zero nor a
    power of two, or when twice the maximal workgroup size times
    [sizeof(CL_INT)] exceeds the local memory of the device; when the
    size is zero or a power of two and the memory suffices, it runs the
    scan loop from offset 1. *)
Theorem computePrefixSum_guards fuel size :
  0 <= maxWG < 2 ^ 61 ->
  let sizeOk := size = 0 \/ exists k, 0 <= k < 64 /\ size = 2 ^ k in
  let r := computePrefixSum backend maxWG localMem fuel size in
  (~ sizeOk ->
     r = Some (Error, Some (mkErrata "Input size must be adjusted to power of 2"), [])) /\
  (sizeOk -> 2 * maxWG * 4 > localMem ->
     r = Some (Error, Some (mkErrata "Insufficient Local Memory"), [])) /\
  (sizeOk -> 2 * maxWG * 4 <= localMem ->
     r = scanLoop backend maxWG fuel size (2 * maxWG) 1).
Proof.
  intros HW sizeOk r. subst r. unfold computePrefixSum.
  assert (H1 : u64 (Z.shiftl maxWG 1) = 2 * maxWG).
  { rewrite Z.shiftl_mul_pow2 by lia. unfold u64. rewrite Z.mod_small; lia. }
  assert (H2 : u64 (2 * maxWG * sizeof_CL_INT) = 2 * maxWG * 4).
  { unfold sizeof_CL_INT, u64. rewrite Z.mod_small; lia. }
  rewrite H1, H2.
  pose proof (isPowerOfTwo_spec size) as Hp. fold sizeOk in Hp.
  destruct (isPowerOfTwo size); cbn [negb].
  - assert (Hok : sizeOk) by (apply Hp; reflexivity).
    split; [intros Hn; contradiction|].
    destruct (Z.gtb_spec (2 * maxWG * 4) localMem); split; intros _ ?; (reflexivity || lia).
  - assert (Hno : ~ sizeOk) by (intros H; apply Hp in H; discriminate).
    split; [reflexivity|]. split; intros H; contradiction.
Qed.

End PrefixSumGuards.

(** A device with workgroups of 256 threads and 32 KiB of local memory. *)
Lemma computePrefixSum_guards_witness :
  0 <= 256 < 2 ^ 61 /\
  PrefixSum.computePrefixSum (fun _ => None) 256 32768 8 6 =
    Some (Error, Some (mkErrata "Input size must be adjusted to power of 2"), []).
Proof.
  assert (H : 0 <= 256 < 2 ^ 61) by lia.
  split; [exact H|].
  apply (computePrefixSum_guards (fun _ => None) 256 32768 8 6 H).
  intros [E|(k & Hk & E)]; [discriminate|].
  assert (k = 0 \/ k = 1 \/ k = 2 \/ 3 <= k) as [->|[->|[->|H3]]] by lia;
    try discriminate.
  assert (2 ^ 3 <= 2 ^ k) by (apply Z.pow_le_mono_r; lia). lia.
Defined.

(** C7 as stated fails at size 0: zero is not a power of two, yet
    [isPowerOfTwo(0)] is true and [computePrefixSum] returns [Success]. *)
Lemma computePrefixSum_zero_size_succeeds :
  (forall k, 0 <= k -> 0 <> 2 ^ k) /\
  PrefixSum.computePrefixSum (fun _ => None) 256 32768 8 0 = Some (Success, None, []).
Proof.
  split; [|vm_compute; reflexivity].
  intros k Hk. assert (0 < 2 ^ k) by (apply Z.pow_pos_nonneg; lia). lia.
Qed.

(** ** BVH traversal: the visit of an internal node *)

Lemma rd_lookup {A} (l : list A) (i : Z) (x : A) :
  rd l i = Some x <-> 0 <= i /\ l !! Z.to_nat i = Some x.
Proof.
  unfold rd. destruct (decide (0 <= i)); [tauto|].
  split; [discriminate|]. intros [? _]. contradiction.
Qed.

Lemma rd_bound {A} (l : list A) (i : Z) (x : A) :
  rd l i = Some x -> 0 <= i < Z.of_nat (length l).
Proof.
  intros H. apply rd_lookup in H as [H0 H]. apply lookup_lt_Some in H. lia.
Qed.

Lemma rd_is_Some {A} (l : list A) (i : Z) :
  0 <= i < Z.of_nat (length l) -> is_Some (rd l i).
Proof.
  intros H. unfold rd. destruct (decide (0 <= i)); [|lia].
  apply lookup_lt_is_Some. lia.
Qed.

Lemma u32_small n : 0 <= n < 2 ^ 32 -> u32 n = n.
Proof. intros H. unfold u32. apply Z.mod_small. exact H. Qed.

(** C1 (amended). When the loop body visits an internal node whose two
    children can be read, with a stack that is neither empty nor full:
    if both children are valid (positive slab parameter, or ray origin
    inside the box) the traversal descends into child A and pushes child
    B, whatever the two slab parameters are; if only one child is valid
    it descends into that child; if neither is valid it pops the stack.
    The closest contact found so far is left unchanged. *)
Theorem visit_inner_node ray bvh scene st node nodeA nodeB :
  rd bvh (currentIdx st) = Some node ->
  eqb (type node) INNER_NODE = true ->
  rd bvh (childA node) = Some nodeA ->
  rd bvh (childB node) = Some nodeB ->
  0 < stackPointer st < Z.of_nat (length (stack st)) ->
  Z.of_nat (length (stack st)) < 2 ^ 32 ->
  let aValid := childValid (boundingBox nodeA) ray in
  let bValid := childValid (boundingBox nodeB) ray in
  exists st',
    visit ray bvh scene st = Some st' /\
    resContactData st' = resContactData st /\
    resMaterialIdx st' = resMaterialIdx st /\
    if aValid && bValid then
      currentIdx st' = childA node /\
      stack st' = <[Z.to_nat (stackPointer st) := childB node]> (stack st) /\
      stackPointer st' = stackPointer st + 1
    else if aValid then
      currentIdx st' = childA node /\ stack st' = stack st /\
      stackPointer st' = stackPointer st
    else if bValid then
      currentIdx st' = childB node /\ stack st' = stack st /\
      stackPointer st' = stackPointer st
    else
      stack st !! Z.to_nat (stackPointer st - 1) = Some (currentIdx st') /\
      stack st' = stack st /\
      stackPointer st' = stackPointer st - 1.
Proof.
  intros Hn Ht HA HB Hsp Hlen aValid bValid.
  unfold visit. rewrite Hn. cbn. rewrite Ht.
  unfold visitInner. rewrite HA, HB. cbn. fold aValid bValid.
  destruct aValid, bValid; cbn [andb].
  - unfold push, descend, wr. cbn.
    destruct (decide (0 <= stackPointer st < Z.of_nat (length (stack st)))); [|lia].
    cbn. eexists. split; [reflexivity|]. cbn.
    rewrite u32_small by lia. auto.
  - eexists. split; [reflexivity|]. cbn. auto.
  - eexists. split; [reflexivity|]. cbn. auto.
  - unfold pop. rewrite u32_small by lia.
    destruct (rd_is_Some (stack st) (stackPointer st - 1)) as [v Hv]; [lia|].
    rewrite Hv. cbn. eexists. split; [reflexivity|]. cbn.
    apply rd_lookup in Hv as [_ Hv]. auto.
Qed.

Lemma visit_inner_node_witness :
  exists st',
    visit xRay twoLeafBVH emptyScene atRoot = Some st' /\
    currentIdx st' = 0 /\
    stack st' = <[1%nat := 1]> (stack atRoot) /\
    stackPointer st' = 2.
Proof.
  destruct (visit_inner_node xRay twoLeafBVH emptyScene atRoot
              (mkBVHNode UINT_MAX 0 1 0 (twoLeafBox 2 6 INNER_NODE))
              (mkBVHNode 2 0 0 0 (twoLeafBox 5 6 LEAF_NODE))
              (mkBVHNode 2 1 0 0 (twoLeafBox 2 3 LEAF_NODE)))
    as (st' & Hv & _ & _ & H); try reflexivity; try (cbn; lia).
  exists st'. split; [exact Hv|].
  change (childValid (boundingBox (mkBVHNode 2 0 0 0 (twoLeafBox 5 6 LEAF_NODE))) xRay)
    with true in H.
  change (childValid (boundingBox (mkBVHNode 2 1 0 0 (twoLeafBox 2 3 LEAF_NODE))) xRay)
    with true in H.
  exact H.
Defined.

(** C1 as stated fails: at the root of [twoLeafBVH] both children are
    valid, child B is entered by the ray at [t = 2] and child A at
    [t = 5], yet the traversal descends into child A, the farther one,
    and pushes child B. *)
Lemma visit_descends_into_farther_child :
  let tA := AABBIntersect (twoLeafBox 5 6 LEAF_NODE) (origin xRay) (direction xRay) in
  let tB := AABBIntersect (twoLeafBox 2 3 LEAF_NODE) (origin xRay) (direction xRay) in
  gtb tA zero = true /\ gtb tB zero = true /\ ltb tB tA = true /\
  exists st',
    visit xRay twoLeafBVH emptyScene atRoot = Some st' /\
    currentIdx st' = 0 /\ currentIdx st' <> 1 /\
    stack st' !! 1%nat = Some 1.
Proof.
  cbv zeta. repeat split; try (vm_compute; reflexivity).
  eexists. split; [vm_compute; reflexivity|].
  cbn. repeat split; (reflexivity || lia).
Qed.

(** ** Two-level grid: the pairs written by the kernels *)

Lemma foldl_cellsOf {S} (body : S -> Z -> Z -> Z -> S) xs ys zs : forall st,
  foldl (fun st z => foldl (fun st y => foldl (fun st x => body st x y z) st xs) st ys)
        st zs
  = foldl (fun st c => body st c.1.1 c.1.2 c.2) st (cellsOf xs ys zs).
Proof.
  unfold cellsOf. induction zs as [|z zs IHz]; intros st; [reflexivity|].
  cbn [foldl mbind list_bind]. rewrite foldl_app, <- IHz. f_equal.
  clear IHz. revert st. induction ys as [|y ys IHy]; intros st; [reflexivity|].
  cbn [foldl mbind list_bind]. rewrite foldl_app, <- IHy. f_equal.
  clear IHy. revert st. induction xs as [|x xs IHx]; intros st; [reflexivity|].
  cbn [foldl mbind list_bind app]. apply IHx.
Qed.

Lemma elem_of_cellsOf xs ys zs x y z :
  (x, y, z) ∈ cellsOf xs ys zs <-> x ∈ xs /\ y ∈ ys /\ z ∈ zs.
Proof.
  unfold cellsOf. rewrite list_elem_of_bind. split.
  - intros (z' & Hy & Hz). apply list_elem_of_bind in Hy as (y' & Hx & Hy).
    apply list_elem_of_bind in Hx as (x' & Hx' & Hx).
    apply list_elem_of_singleton in Hx'. injection Hx' as -> -> ->. auto.
  - intros (Hx & Hy & Hz). exists z. split; [|exact Hz].
    apply list_elem_of_bind. exists y. split; [|exact Hy].
    apply list_elem_of_bind. exists x. split; [|exact Hx].
    apply list_elem_of_singleton. reflexivity.
Qed.

Lemma length_bind_const {A B} (f : A -> list B) (n : nat) (l : list A) :
  (forall a, length (f a) = n) -> length (l ≫= f) = (length l * n)%nat.
Proof.
  intros Hf. induction l as [|a l IH]; [reflexivity|].
  cbn [mbind list_bind length] in *. rewrite length_app, Hf, IH. reflexivity.
Qed.

Lemma length_cellsOf xs ys zs :
  length (cellsOf xs ys zs) = (length zs * (length ys * length xs))%nat.
Proof.
  unfold cellsOf. apply length_bind_const. intros z.
  apply length_bind_const. intros y.
  rewrite (length_bind_const _ 1%nat) by reflexivity. lia.
Qed.

(** A loop invariant that holds initially and is kept by every iteration
    holds at the end. *)
Lemma foldl_invariant {S C} (I : S -> Prop) (body : S -> C -> S) cells : forall st,
  I st -> (forall st c, c ∈ cells -> I st -> I (body st c)) ->
  I (foldl body st cells).
Proof.
  induction cells as [|c cells IH]; intros st H0 Hstep; [exact H0|].
  cbn [foldl]. apply IH.
  - apply Hstep; [apply list_elem_of_here|exact H0].
  - intros st' c' Hc. apply Hstep. apply list_elem_of_further. exact Hc.
Qed.

(** Reading an array after a sequence of assignments: every element is an
    element of the array before them or the value of one assignment. *)
Lemma storeAll_lookup stores : forall array array' n v,
  storeAll stores array = Some array' ->
  array' !! n = Some v ->
  array !! n = Some v \/ exists i, (i, v) ∈ stores.
Proof.
  induction stores as [|[i w] stores IH]; intros array array' n v; cbn [storeAll].
  - intros [= <-] H. left. exact H.
  - unfold wr. destruct (decide (0 <= i < Z.of_nat (length array))); [|discriminate].
    cbn. intros Hs Hn. destruct (IH _ _ _ _ Hs Hn) as [H|(i' & H)].
    + destruct (decide (Z.to_nat i = n)) as [<-|Hne].
      * rewrite list_lookup_insert_eq in H by lia. injection H as <-.
        right. exists i. apply list_elem_of_here.
      * rewrite list_lookup_insert_ne in H by exact Hne. left. exact H.
    + right. exists i'. apply list_elem_of_further. exact H.
Qed.

(** C6. Whenever the top-level cell of the pair can be located in the
    grid, [writeOverlappingLeafPairs] runs to completion, and every pair
    it assigns to the leaf-pair array belongs to a leaf cell of that
    top-level cell for which [AABBTriangleIntersect] holds on the box
    (centre, half size) computed from the base of the top-level cell, the
    leaf resolution and the grid step; its key is the linear index of the
    leaf within the cell plus [firstLeafIdx] and its value the triangle.
    Consequently every element of the array afterwards is an element of
    the array before or such a pair. *)
Theorem writeOverlappingLeafPairs_precise v0 v1 v2 grid topLevelCell
        topLevelPair startIndex topLevelCoordinates :
  getCellRefFromIndex (ux topLevelPair) (resX grid) (resY grid) (resZ grid)
    = Some topLevelCoordinates ->
  exists stores,
    overlappingLeafPairStores v0 v1 v2 grid topLevelCell topLevelPair startIndex
      = Some stores /\
    (forall i p, (i, p) ∈ stores ->
       preciseLeafPair v0 v1 v2 grid topLevelCell topLevelPair topLevelCoordinates p) /\
    (forall pairs pairs' n p,
       writeOverlappingLeafPairs v0 v1 v2 grid topLevelCell topLevelPair
                                 startIndex pairs = Some pairs' ->
       pairs' !! n = Some p ->
       pairs !! n = Some p \/
       preciseLeafPair v0 v1 v2 grid topLevelCell topLevelPair topLevelCoordinates p).
Proof.
  intros Href. unfold writeOverlappingLeafPairs, overlappingLeafPairStores.
  rewrite Href. cbn [mbind option_bind].
  eexists. split; [reflexivity|].
  match goal with |- (forall i p, (i, p) ∈ ?s -> _) /\ _ =>
    assert (Hall : forall i p, (i, p) ∈ s ->
              preciseLeafPair v0 v1 v2 grid topLevelCell topLevelPair topLevelCoordinates p)
  end.
  { rewrite (foldl_cellsOf
               (writeLeaf v0 v1 v2 (topBaseOf grid topLevelCoordinates)
                          (leafStepOf grid topLevelCell)
                          (halfSizeOf (leafStepOf grid topLevelCell))
                          topLevelCell topLevelPair startIndex)).
    apply (foldl_invariant
             (fun st : Z * list Store => forall i p, (i, p) ∈ st.2 ->
                preciseLeafPair v0 v1 v2 grid topLevelCell topLevelPair
                                topLevelCoordinates p)).
    - intros i p H. cbn in H. apply not_elem_of_nil in H. contradiction.
    - intros st [[x y] z] Hc Hst i p. unfold writeLeaf. cbn [fst snd].
      destruct (AABBTriangleIntersect _ _ v0 v1 v2) eqn:Htest; [|apply Hst].
      cbn [fst snd]. rewrite elem_of_app. intros [H|H]; [exact (Hst i p H)|].
      apply list_elem_of_singleton in H. injection H as -> ->.
      apply elem_of_cellsOf in Hc as (Hx & Hy & Hz).
      apply elem_of_seqZ in Hx, Hy, Hz.
      exists x, y, z. repeat split; try lia; try exact Htest. }
  split; [exact Hall|].
  intros pairs pairs' n p Hs Hn.
  destruct (storeAll_lookup _ _ _ _ _ Hs Hn) as [H|(i & H)]; [left; exact H|].
  right. exact (Hall i p H).
Qed.

Lemma u32_add_l a b : u32 (u32 a + b) = u32 (a + b).
Proof. unfold u32. apply Zplus_mod_idemp_l. Qed.

Lemma u32_add_r a b : u32 (a + u32 b) = u32 (a + b).
Proof. unfold u32. apply Zplus_mod_idemp_r. Qed.

Lemma writeCell_fold grid firstPairIdx triangleIdx cells : forall n acc,
  foldl (fun st c => writeCell grid firstPairIdx triangleIdx st c.1.1 c.1.2 c.2)
        (u32 n, acc) cells
  = (u32 (n + Z.of_nat (length cells)),
     acc ++ imap (fun k c => (u32 (firstPairIdx + (n + Z.of_nat k)),
                              pairOfCell grid triangleIdx c)) cells).
Proof.
  induction cells as [|c cells IH]; intros n acc.
  - cbn. rewrite Z.add_0_r, app_nil_r. reflexivity.
  - cbn [foldl]. unfold writeCell at 2. cbn [fst snd].
    rewrite u32_add_l, u32_add_r, IH. cbn [length imap].
    rewrite <- app_assoc. cbn [app]. f_equal; [f_equal; lia|].
    f_equal. unfold pairOfCell at 2. rewrite Z.add_0_r. f_equal.
    apply imap_ext. intros k c' _. cbn. do 2 f_equal. lia.
Qed.

Lemma zmin_le_r a b : zmin a b <= b.
Proof. unfold zmin. destruct (Z.ltb_spec a b); lia. Qed.

Lemma uintRange_clamped a res lo :
  1 <= res < 2 ^ 32 ->
  uintRange lo (zmin a (u32 (res - 1))) =
    Some (seqZ lo (zmin a (u32 (res - 1)) - lo + 1)).
Proof.
  intros H. unfold uintRange.
  pose proof (zmin_le_r a (u32 (res - 1))) as Hle.
  rewrite u32_small in Hle |- * by lia.
  destruct (Z.eqb_spec (zmin a (res - 1)) UINT_MAX) as [E|_]; [|reflexivity].
  unfold UINT_MAX in E. lia.
Qed.

Lemma overlappingPairStores_spec v0 v1 v2 grid firstPairIdx triangleIdx :
  1 <= resX grid < 2 ^ 32 -> 1 <= resY grid < 2 ^ 32 -> 1 <= resZ grid < 2 ^ 32 ->
  overlappingPairStores v0 v1 v2 grid firstPairIdx triangleIdx
  = Some (imap (fun k c => (u32 (firstPairIdx + Z.of_nat k),
                            pairOfCell grid triangleIdx c))
               (spanCells (cellSpan v0 v1 v2 grid))).
Proof.
  intros HX HY HZ. unfold overlappingPairStores, spanCells.
  destruct (cellSpan v0 v1 v2 grid) as [cell cellExtents] eqn:E.
  unfold cellSpan in E. injection E as <- <-. cbn [cx cy cz umin3 fst snd].
  rewrite !uintRange_clamped by assumption. cbn [mbind option_bind].
  rewrite (foldl_cellsOf (writeCell grid firstPairIdx triangleIdx)).
  change (0, @nil Store) with (u32 0, @nil Store).
  rewrite writeCell_fold. cbn [snd app]. reflexivity.
Qed.

(** Consecutive assignments overwrite one segment of the array. *)
Lemma storeAll_consecutive (vals : list uint2) : forall (start : nat) array,
  (start + length vals <= length array)%nat ->
  storeAll (imap (fun k v => (Z.of_nat start + Z.of_nat k, v)) vals) array
  = Some (take start array ++ vals ++ drop (start + length vals) array).
Proof.
  induction vals as [|v vals IH]; intros start array Hlen.
  - cbn. rewrite Nat.add_0_r, take_drop. reflexivity.
  - cbn [imap storeAll length] in *. unfold wr.
    destruct (decide (0 <= Z.of_nat start + Z.of_nat 0 < Z.of_nat (length array)));
      [|lia].
    cbn [mbind option_bind].
    replace (Z.to_nat (Z.of_nat start + Z.of_nat 0)) with start by lia.
    rewrite (imap_ext _ (fun k v => (Z.of_nat (S start) + Z.of_nat k, v)))
      by (intros; cbn; f_equal; lia).
    rewrite IH by (rewrite length_insert; lia).
    f_equal.
    rewrite (take_S_r _ _ v) by (apply list_lookup_insert_eq; lia).
    rewrite take_insert_ge by lia.
    rewrite drop_insert_lt by lia.
    rewrite <- app_assoc. cbn [app].
    replace (S start + length vals)%nat with (start + S (length vals))%nat by lia.
    reflexivity.
Qed.

(** C5. For every triangle [g] the scene resolves, in a grid of non-zero
    resolution, [writePairs] assigns one pair (linear cell index, [g])
    for every integer cell between the first and the last cell of the
    bounding box of the triangle in clamped cell coordinates, in the order
    of the loops, to the consecutive entries of the pair array that start
    at [prefixSum[g] - counters[g]]; the rest of the array is unchanged. *)
Theorem writePairs_placement scene g grid prefixSum counters pairs v0 v1 v2 p c :
  fetchTriangle scene g = Some (v0, v1, v2) ->
  rd prefixSum g = Some p ->
  rd counters g = Some c ->
  1 <= resX grid < 2 ^ 32 -> 1 <= resY grid < 2 ^ 32 -> 1 <= resZ grid < 2 ^ 32 ->
  let span := cellSpan v0 v1 v2 grid in
  let cells := spanCells span in
  let myStart := u32 (p - c) in
  myStart + Z.of_nat (length cells) <= Z.of_nat (length pairs) ->
  Z.of_nat (length pairs) < 2 ^ 32 ->
  (forall x y z,
     (x, y, z) ∈ cells <->
     cx span.1 <= x <= cx span.2 /\ cy span.1 <= y <= cy span.2 /\
     cz span.1 <= z <= cz span.2) /\
  pairStores scene g grid prefixSum counters
  = Some (imap (fun k cl => (myStart + Z.of_nat k, pairOfCell grid g cl)) cells) /\
  writePairs scene g grid prefixSum counters pairs
  = Some (take (Z.to_nat myStart) pairs ++ map (pairOfCell grid g) cells
          ++ drop (Z.to_nat myStart + length cells) pairs).
Proof.
  intros Hf Hp Hc HX HY HZ span cells myStart Hfit Hlen.
  assert (H0 : 0 <= myStart) by (apply Z.mod_pos_bound; lia).
  assert (Hstores :
    pairStores scene g grid prefixSum counters
    = Some (imap (fun k cl => (myStart + Z.of_nat k, pairOfCell grid g cl)) cells)).
  { unfold pairStores. rewrite Hf, Hp, Hc. cbn [mbind option_bind].
    rewrite overlappingPairStores_spec by assumption. f_equal.
    apply imap_ext. intros k cl Hk. cbn. f_equal.
    apply lookup_lt_Some in Hk. fold span cells in Hk.
    apply u32_small. fold myStart. lia. }
  split; [|split; [exact Hstores|]].
  - intros x y z. unfold cells, spanCells. rewrite elem_of_cellsOf, !elem_of_seqZ. lia.
  - unfold writePairs. rewrite Hstores. cbn [mbind option_bind].
    rewrite <- (length_map (pairOfCell grid g) cells).
    rewrite <- (storeAll_consecutive (map (pairOfCell grid g) cells))
      by (rewrite length_map; lia).
    f_equal. rewrite imap_fmap. apply imap_ext. intros k cl _. cbn. f_equal. lia.
Qed.

Lemma writePairs_placement_witness :
  writePairs oneTriangleScene 0 cubeGrid [4] [4] noPairs
  = Some [mkUint2 4 0; mkUint2 5 0; mkUint2 6 0; mkUint2 7 0].
Proof.
  refine (proj2 (proj2
    (writePairs_placement oneTriangleScene 0 cubeGrid [4] [4] noPairs
       (mkFloat3 (neg half) (neg half) zero) (mkFloat3 half (neg half) zero)
       (mkFloat3 zero half zero) 4 4 _ _ _ _ _ _ _ _)));
    try reflexivity; try (vm_compute; intuition discriminate).
Defined.

Lemma writeOverlappingLeafPairs_precise_witness :
  exists stores,
    overlappingLeafPairStores
      (mkFloat3 (neg half) (neg half) zero) (mkFloat3 half (neg half) zero)
      (mkFloat3 zero half zero) cubeGrid (mkTopLevelCell 2 2 2 8) (mkUint2 4 0) 0
    = Some stores /\
    forall i p, (i, p) ∈ stores ->
      preciseLeafPair
        (mkFloat3 (neg half) (neg half) zero) (mkFloat3 half (neg half) zero)
        (mkFloat3 zero half zero) cubeGrid (mkTopLevelCell 2 2 2 8) (mkUint2 4 0)
        (mkUint3 0 0 1) p.
Proof.
  destruct (writeOverlappingLeafPairs_precise
              (mkFloat3 (neg half) (neg half) zero) (mkFloat3 half (neg half) zero)
              (mkFloat3 zero half zero) cubeGrid (mkTopLevelCell 2 2 2 8)
              (mkUint2 4 0) 0 (mkUint3 0 0 1))
    as (stores & Hs & Hall & _); [reflexivity|].
  exists stores. split; [exact Hs|exact Hall].
Defined.

(** ** Two-level grid: counted and written pairs *)

(** C9. The three vertices of [wideTriangle] lie inside the box of
    [wideGrid], whose bounding box covers 4097 x 4097 x 1 cells.
    [writeOverlappingPairs] assigns 16785409 pairs, one per cell, while
    [countOverlappingCells], which multiplies the three extents in
    binary32, returns 16785408: the count reserves one slot less than the
    write phase fills. *)
Theorem countOverlappingCells_undercounts :
  let '(v0, v1, v2) := wideTriangle in
  isPointInside (box wideGrid) v0 = true /\
  isPointInside (box wideGrid) v1 = true /\
  isPointInside (box wideGrid) v2 = true /\
  countOverlappingCells v0 v1 v2 wideGrid = 16785408 /\
  exists stores,
    overlappingPairStores v0 v1 v2 wideGrid 0 0 = Some stores /\
    Z.of_nat (length stores) = 16785409.
Proof.
  cbv beta iota delta [wideTriangle].
  do 4 (split; [vm_compute; reflexivity|]).
  eexists. split.
  - apply overlappingPairStores_spec; cbn; lia.
  - rewrite length_imap.
    assert (E : cellSpan (mkFloat3 zero zero zero) (mkFloat3 (of_Z 4097) zero zero)
                  (mkFloat3 zero (of_Z 4097) zero) wideGrid
                = (mkUint3 0 0 0, mkUint3 4096 4096 0))
      by (vm_compute; reflexivity).
    rewrite E. unfold spanCells. rewrite length_cellsOf, !length_seqZ.
    cbn [fst snd cx cy cz]. lia.
Qed.

(** ** Quaternion normalisation *)

(** Linear arithmetic with division and remainder by constants. *)
Ltac zlia := Z.to_euclidean_division_equations; lia.

Section SqrtNonZero.

Lemma digits2_pos_lower (m : positive) :
  2 ^ (Zpos (digits2_pos m) - 1) <= Zpos m.
Proof.
  induction m as [m IH|m IH|]; cbn [digits2_pos]; [| |cbn; lia];
    rewrite Pos2Z.inj_succ;
    replace (Z.succ (Z.pos (digits2_pos m)) - 1)
      with (Z.succ (Z.pos (digits2_pos m) - 1)) by lia;
    rewrite Z.pow_succ_r by lia; lia.
Qed.

Lemma shr_1_mantissa mrs :
  0 <= shr_m mrs -> shr_m (shr_1 mrs) = shr_m mrs / 2.
Proof.
  destruct mrs as [m r0 s0]. cbn [shr_m]. intros Hm.
  destruct m as [|[p|p|]|p]; cbn [shr_1 shr_m]; try lia; try reflexivity.
  - rewrite Pos2Z.inj_xI. zlia.
  - rewrite Pos2Z.inj_xO. zlia.
Qed.

Lemma iter_shr_1_mantissa p : forall mrs,
  0 <= shr_m mrs ->
  shr_m (SpecFloat.iter_pos shr_1 p mrs) = shr_m mrs / 2 ^ Zpos p.
Proof.
  assert (Hnn : forall mrs, 0 <= shr_m mrs -> 0 <= shr_m (shr_1 mrs)).
  { intros mrs H. rewrite shr_1_mantissa by exact H. apply Z.div_pos; lia. }
  induction p as [p IH|p IH|]; intros mrs Hm; cbn [SpecFloat.iter_pos].
  - assert (H1 := Hnn _ Hm).
    assert (H2 : 0 <= shr_m (SpecFloat.iter_pos shr_1 p (shr_1 mrs))).
    { rewrite IH by exact H1. apply Z.div_pos; lia. }
    assert (E : 2 ^ Z.pos p~1 = 2 * (2 ^ Z.pos p * 2 ^ Z.pos p)).
    { rewrite <- Z.pow_add_r, <- Z.pow_succ_r by lia. f_equal. lia. }
    rewrite IH, IH, shr_1_mantissa, E by assumption.
    rewrite !Z.div_div by lia. reflexivity.
  - assert (H2 : 0 <= shr_m (SpecFloat.iter_pos shr_1 p mrs)).
    { rewrite IH by exact Hm. apply Z.div_pos; lia. }
    assert (E : 2 ^ Z.pos p~0 = 2 ^ Z.pos p * 2 ^ Z.pos p).
    { rewrite <- Z.pow_add_r by lia. f_equal. lia. }
    rewrite IH, IH, E by assumption.
    rewrite Z.div_div by lia. reflexivity.
  - rewrite shr_1_mantissa by exact Hm. reflexivity.
Qed.

(** Aligning a positive mantissa whose exponent is at least [emin] keeps
    the mantissa positive. *)
Lemma shr_fexp_positive m e l :
  1 <= m -> -149 <= e ->
  1 <= shr_m (shr_fexp prec emax m e l).1 /\ -149 <= (shr_fexp prec emax m e l).2.
Proof.
  intros Hm He. unfold shr_fexp, shr.
  assert (Hrec : shr_m (shr_record_of_loc m l) = m)
    by (destruct l as [|[]]; reflexivity).
  destruct m as [|m|m]; try lia. cbn [Zdigits2].
  destruct (fexp prec emax (Z.pos (digits2_pos m) + e) - e) as [|n|n] eqn:En;
    cbn [fst snd]; rewrite ?Hrec; try lia.
  unfold fexp, SpecFloat.emin, prec, emax in En.
  rewrite iter_shr_1_mantissa by (rewrite Hrec; lia). rewrite Hrec.
  assert (Hn : Z.pos n <= Z.pos (digits2_pos m) - 1) by lia.
  pose proof (digits2_pos_lower m) as Hd.
  assert (2 ^ Z.pos n <= 2 ^ (Z.pos (digits2_pos m) - 1))
    by (apply Z.pow_le_mono_r; lia).
  split; [|lia].
  apply Z.div_le_lower_bound; lia.
Qed.

Lemma round_nearest_even_ge m l : m <= round_nearest_even m l.
Proof.
  unfold round_nearest_even. destruct l as [|[]]; try lia.
  destruct (Z.even m); lia.
Qed.

Lemma binary_round_aux_nonzero s m e l :
  1 <= m -> -149 <= e ->
  is_zero (binary_round_aux prec emax s m e l) = false.
Proof.
  intros Hm He. unfold binary_round_aux.
  pose proof (shr_fexp_positive m e l Hm He) as [H1 H2].
  destruct (shr_fexp prec emax m e l) as [mrs' e']. cbn [fst snd] in H1, H2.
  pose proof (round_nearest_even_ge (shr_m mrs') (loc_of_shr_record mrs')) as Hr.
  pose proof (shr_fexp_positive
                (round_nearest_even (shr_m mrs') (loc_of_shr_record mrs'))
                e' loc_Exact ltac:(lia) H2) as [H3 _].
  destruct (shr_fexp prec emax _ e' loc_Exact) as [mrs'' e'']. cbn [fst] in H3.
  destruct (shr_m mrs'') as [|m''|m'']; try lia.
  destruct (e'' <=? emax - prec); reflexivity.
Qed.

(** The square root of a positive finite number whose exponent is at
    least [-46] is not a zero. *)
Lemma sqrt_finite_nonzero m e :
  -46 <= e -> is_zero (sqrt (S754_finite false m e)) = false.
Proof.
  intros He. unfold sqrt, SFsqrt, SFsqrt_core_binary.
  set (e' := Z.min (fexp prec emax (Z.div2 (Zdigits2 (Z.pos m) + e + 1))) (Z.div2 e)).
  assert (Hdiv2 : -23 <= Z.div2 e /\ 2 * Z.div2 e <= e).
  { rewrite Z.div2_div. zlia. }
  assert (He' : -149 <= e' /\ 2 * e' <= e).
  { unfold e', fexp, SpecFloat.emin, prec, emax. lia. }
  set (m' := match e - 2 * e' with
             | 0 => Z.pos m | Z.pos _ => Z.shiftl (Z.pos m) (e - 2 * e') | Z.neg _ => 0
             end).
  assert (Hm' : 1 <= m').
  { unfold m'. destruct (e - 2 * e') as [|s|s] eqn:Es; try lia.
    rewrite Z.shiftl_mul_pow2 by lia.
    assert (0 < 2 ^ Z.pos s) by lia. nia. }
  clearbody m'. clearbody e'.
  pose proof (Z.sqrtrem_sqrt m') as Hq.
  destruct (Z.sqrtrem m') as [q rm]. cbn [fst] in Hq.
  assert (1 <= q).
  { subst q. assert (0 < Z.sqrt m') by (apply Z.sqrt_pos; lia). lia. }
  apply binary_round_aux_nonzero; lia.
Qed.

End SqrtNonZero.

(** C10. [normalizeQuaternion] divides only on the path where the squared
    magnitude [d] is not below [FLT_EPSILON], and the divisor [sqrt(d)] is
    then not a zero: when [d < FLT_EPSILON] the result is the identity
    rotation [(1, 0, 0, 0)]; otherwise every component is multiplied by
    [1 / sqrt(d)]. *)
Theorem normalizeQuaternion_guard (q : Transform.Quaternion) :
  let d := Transform.squaredMagnitude q in
  (ltb d FLT_EPSILON = true ->
     Transform.normalizeQuaternion q = Transform.mkQuaternion one zero zero zero) /\
  (ltb d FLT_EPSILON = false ->
     is_zero (sqrt d) = false /\
     Transform.normalizeQuaternion q =
       Transform.mkQuaternion
         (mul (Transform.r q) (div one (sqrt d)))
         (mul (Transform.i q) (div one (sqrt d)))
         (mul (Transform.j q) (div one (sqrt d)))
         (mul (Transform.k q) (div one (sqrt d)))).
Proof.
  intros d. unfold Transform.normalizeQuaternion. fold d. split; intros H; rewrite H.
  - reflexivity.
  - split; [|reflexivity].
    destruct d as [s|s| |s m e].
    + discriminate H.
    + destruct s; [discriminate H|reflexivity].
    + reflexivity.
    + destruct s; [discriminate H|].
      apply sqrt_finite_nonzero.
      unfold ltb, SFltb, FLT_EPSILON in H. cbn [SFcompare] in H.
      destruct (Z.compare_spec e (-46)); [lia|discriminate H|lia].
Qed.

(** ** Radix tree: count-leading-zeros *)

Lemma land_pow2 x n :
  0 <= n -> Z.land x (2 ^ n) = if Z.testbit x n then 2 ^ n else 0.
Proof.
  intros Hn. apply Z.bits_inj'. intros m Hm.
  rewrite Z.land_spec, Z.pow2_bits_eqb by exact Hn.
  destruct (Z.eqb_spec n m) as [->|Hne].
  - destruct (Z.testbit x m); [|rewrite Z.bits_0; reflexivity].
    rewrite Z.pow2_bits_true by exact Hm. reflexivity.
  - rewrite andb_false_r. destruct (Z.testbit x n); [|rewrite Z.bits_0; reflexivity].
    rewrite Z.pow2_bits_false by exact Hne. reflexivity.
Qed.

Lemma testbit_true_ge x n :
  0 <= n -> 0 <= x -> Z.testbit x n = true -> 2 ^ n <= x.
Proof.
  intros Hn Hx H. apply Z.testbit_true in H; [|exact Hn].
  assert (0 < 2 ^ n) by lia.
  pose proof (Z.mul_div_le x (2 ^ n) ltac:(lia)).
  assert (0 <= x / 2 ^ n) by (apply Z.div_pos; lia).
  remember (x / 2 ^ n) as q. assert (1 <= q) by zlia. nia.
Qed.

Lemma testbit_false_lt x n :
  0 <= n -> 0 <= x < 2 ^ (n + 1) -> Z.testbit x n = false -> x < 2 ^ n.
Proof.
  intros Hn Hx H. apply Z.testbit_false in H; [|exact Hn].
  assert (0 < 2 ^ n) by lia.
  rewrite Z.pow_add_r in Hx by lia. change (2 ^ 1) with 2 in Hx.
  assert (x / 2 ^ n < 2) by (apply Z.div_lt_upper_bound; lia).
  assert (0 <= x / 2 ^ n) by (apply Z.div_pos; lia).
  assert (E : x / 2 ^ n = 0).
  { remember (x / 2 ^ n) as q. zlia. }
  apply Z.div_small_iff in E; lia.
Qed.

Lemma clz_loop_spec x fuel : forall c,
  0 <= c <= 31 -> 0 < x < 2 ^ (32 - c) -> (32 - c < Z.of_nat fuel) ->
  clz_loop fuel x (2 ^ (31 - c)) c = 31 - Z.log2 x.
Proof.
  induction fuel as [|fuel IH]; intros c Hc Hx Hf; [lia|].
  cbn [clz_loop]. rewrite land_pow2 by lia.
  destruct (Z.testbit x (31 - c)) eqn:Hb.
  - assert (2 ^ (31 - c) <= x) by (apply testbit_true_ge; [lia|lia|exact Hb]).
    destruct (Z.eqb_spec (2 ^ (31 - c)) 0); [lia|]. cbn [andb].
    rewrite (Z.log2_unique x (31 - c)); [lia|lia|].
    replace (Z.succ (31 - c)) with (32 - c) by lia. lia.
  - assert (Hlt : x < 2 ^ (31 - c)).
    { apply testbit_false_lt; [lia| |exact Hb].
      replace (31 - c + 1) with (32 - c) by lia. lia. }
    assert (c < 31).
    { destruct (Z.eq_dec c 31) as [->|]; [|lia]. change (2 ^ (31 - 31)) with 1 in Hlt. lia. }
    rewrite Z.eqb_refl. destruct (Z.ltb_spec c 32); [|lia]. cbn [andb].
    rewrite Z.shiftr_div_pow2 by lia.
    replace (2 ^ (31 - c) / 2 ^ 1) with (2 ^ (31 - (c + 1))).
    + apply IH; [lia| |lia]. replace (32 - (c + 1)) with (31 - c) by lia. lia.
    + rewrite <- Z.pow_sub_r by lia. f_equal. lia.
Qed.

Lemma CLZ_zero : CLZ 0 = 32.
Proof. reflexivity. Qed.

Lemma CLZ_pos x : 0 < x < 2 ^ 32 -> CLZ x = 31 - Z.log2 x.
Proof.
  intros Hx. unfold CLZ. change 2147483648 with (2 ^ (31 - 0)).
  apply clz_loop_spec; [lia|exact Hx|cbn; lia].
Qed.

Lemma CLZ_range x : 0 <= x < 2 ^ 32 -> 0 <= CLZ x <= 32.
Proof.
  intros Hx. destruct (Z.eq_dec x 0) as [->|]; [rewrite CLZ_zero; lia|].
  rewrite CLZ_pos by lia.
  pose proof (Z.log2_nonneg x).
  assert (Z.log2 x < 32) by (apply Z.log2_lt_pow2; lia). lia.
Qed.

Lemma log2_lt_32 a : 0 <= a < 2 ^ 32 -> Z.log2 a < 32.
Proof.
  intros Ha. destruct (Z.eq_dec a 0) as [->|]; [reflexivity|].
  apply Z.log2_lt_pow2; lia.
Qed.

Lemma lxor_range a b : 0 <= a < 2 ^ 32 -> 0 <= b < 2 ^ 32 -> 0 <= Z.lxor a b < 2 ^ 32.
Proof.
  intros Ha Hb. assert (H0 : 0 <= Z.lxor a b) by (apply Z.lxor_nonneg; lia).
  split; [exact H0|].
  destruct (Z.eq_dec (Z.lxor a b) 0) as [->|Hne]; [lia|].
  apply Z.log2_lt_pow2; [lia|].
  pose proof (Z.log2_lxor a b ltac:(lia) ltac:(lia)).
  pose proof (log2_lt_32 a Ha). pose proof (log2_lt_32 b Hb). lia.
Qed.

(** Of two different numbers, the larger one has the highest differing
    bit set. *)
Lemma highest_differing_bit a b :
  0 <= a < b ->
  Z.testbit a (Z.log2 (Z.lxor a b)) = false /\
  Z.testbit b (Z.log2 (Z.lxor a b)) = true.
Proof.
  intros Hab. set (x := Z.lxor a b). set (t := Z.log2 x).
  assert (Hx0 : 0 <= x) by (apply Z.lxor_nonneg; lia).
  assert (Hxne : x <> 0).
  { intros E. apply Z.lxor_eq in E. lia. }
  assert (Ht : 0 <= t) by apply Z.log2_nonneg.
  assert (Hbit : Z.testbit x t = true) by (apply Z.bit_log2; lia).
  assert (Hhigh : a / 2 ^ (t + 1) = b / 2 ^ (t + 1)).
  { rewrite <- !Z.shiftr_div_pow2 by lia. apply Z.bits_inj'. intros n Hn.
    rewrite !Z.shiftr_spec by lia.
    assert (Hz : Z.testbit x (n + (t + 1)) = false)
      by (apply Z.bits_above_log2; fold t; lia).
    unfold x in Hz. rewrite Z.lxor_spec in Hz.
    destruct (Z.testbit a (n + (t + 1))), (Z.testbit b (n + (t + 1)));
      (reflexivity || discriminate). }
  unfold x in Hbit. rewrite Z.lxor_spec in Hbit.
  destruct (Z.testbit a t) eqn:Ha, (Z.testbit b t) eqn:Hb; try discriminate; [|auto].
  exfalso.
  apply Z.testbit_true in Ha; [|exact Ht]. apply Z.testbit_false in Hb; [|exact Ht].
  rewrite Z.pow_add_r in Hhigh by lia. change (2 ^ 1) with 2 in Hhigh.
  assert (0 < 2 ^ t) by lia.
  rewrite <- !Z.div_div in Hhigh by lia.
  assert (a / 2 ^ t <= b / 2 ^ t) by (apply Z.div_le_mono; lia).
  remember (a / 2 ^ t) as qa. remember (b / 2 ^ t) as qb. zlia.
Qed.

(** In a sorted array the common prefixes of an entry with its two
    neighbours have different lengths, unless all three are equal. *)
Lemma neighbour_prefixes_differ minone precis pluone :
  0 <= minone <= precis -> precis <= pluone < 2 ^ 32 ->
  (minone =? precis) && (pluone =? precis) = false ->
  CLZ (Z.lxor precis minone) <> CLZ (Z.lxor precis pluone).
Proof.
  intros H1 H2 Hne.
  destruct (Z.eqb_spec minone precis) as [->|Hm];
    destruct (Z.eqb_spec pluone precis) as [Ep|Hp]; try discriminate Hne.
  - rewrite Z.lxor_nilpotent, CLZ_zero.
    pose proof (lxor_range precis pluone ltac:(lia) ltac:(lia)).
    assert (Z.lxor precis pluone <> 0) by (intros E; apply Z.lxor_eq in E; lia).
    rewrite CLZ_pos by lia. pose proof (Z.log2_nonneg (Z.lxor precis pluone)). lia.
  - subst pluone. rewrite Z.lxor_nilpotent, CLZ_zero.
    pose proof (lxor_range precis minone ltac:(lia) ltac:(lia)).
    assert (Z.lxor precis minone <> 0) by (intros E; apply Z.lxor_eq in E; lia).
    rewrite CLZ_pos by lia. pose proof (Z.log2_nonneg (Z.lxor precis minone)). lia.
  - pose proof (lxor_range precis minone ltac:(lia) ltac:(lia)).
    pose proof (lxor_range precis pluone ltac:(lia) ltac:(lia)).
    assert (Z.lxor precis minone <> 0) by (intros E; apply Z.lxor_eq in E; lia).
    assert (Z.lxor precis pluone <> 0) by (intros E; apply Z.lxor_eq in E; lia).
    rewrite !CLZ_pos by lia. intros E.
    assert (El : Z.log2 (Z.lxor precis minone) = Z.log2 (Z.lxor precis pluone)) by lia.
    destruct (highest_differing_bit minone precis ltac:(lia)) as [_ Hb1].
    destruct (highest_differing_bit precis pluone ltac:(lia)) as [Hb2 _].
    rewrite (Z.lxor_comm minone precis), El in Hb1. congruence.
Qed.

(** ** Radix tree: ranges and splits *)

Section RadixTree.

Variable mc : list uint2.
Variable N : Z.

(** The first [N] entries of [mc] are the sorted Morton pairs; the array
    may be longer (it is padded to a power of two before sorting). *)
Hypothesis HN : 2 <= N <= 2 ^ 29.
Hypothesis Hlen : N <= Z.of_nat (length mc).
Hypothesis Hkeys :
  forall n p, Z.of_nat n < N -> mc !! n = Some p -> 0 <= ux p < 2 ^ 32.
Hypothesis Hsorted :
  forall n p q, Z.of_nat (S n) < N ->
                mc !! n = Some p -> mc !! S n = Some q -> ux p <= ux q.

Lemma keyAt_Some n :
  0 <= n < N -> exists code, keyAt mc n = Some code /\ 0 <= code < 2 ^ 32.
Proof.
  intros Hn. unfold keyAt.
  destruct (rd_is_Some mc n ltac:(lia)) as [p Hp]. rewrite Hp. cbn.
  exists (ux p). split; [reflexivity|].
  apply rd_lookup in Hp as [_ Hp]. apply (Hkeys (Z.to_nat n)); [lia|exact Hp].
Qed.

Lemma keyAt_sorted n a b :
  n + 1 < N -> keyAt mc n = Some a -> keyAt mc (n + 1) = Some b -> a <= b.
Proof.
  unfold keyAt. intros Hn Ha Hb.
  destruct (rd mc n) as [p|] eqn:Hp; [|discriminate Ha].
  destruct (rd mc (n + 1)) as [q|] eqn:Hq; [|discriminate Hb].
  cbn in Ha, Hb. injection Ha as <-. injection Hb as <-.
  apply rd_lookup in Hp as [H0 Hp]. apply rd_lookup in Hq as [_ Hq].
  replace (Z.to_nat (n + 1)) with (S (Z.to_nat n)) in Hq by lia.
  apply (Hsorted (Z.to_nat n)); [lia|exact Hp|exact Hq].
Qed.

Lemma equalRunEnd_spec fuel : forall index,
  0 < index <= N - 1 -> N - 1 - index < Z.of_nat fuel ->
  exists e, equalRunEnd fuel mc (N - 1) index = Some e /\
            index <= e <= N - 1 /\ (index < N - 1 -> index < e).
Proof.
  induction fuel as [|fuel IH]; intros index Hi Hf; [lia|].
  cbn [equalRunEnd].
  destruct (Z.gtb_spec index 0); [|lia]. cbn [andb].
  destruct (Z.ltb_spec index (N - 1)) as [Hlt|Hge].
  - rewrite i32_small by lia.
    destruct (Z.geb_spec (index + 1) (N - 1)).
    + exists (index + 1). split; [reflexivity|lia].
    + destruct (keyAt_Some (index + 1) ltac:(lia)) as (a & -> & _).
      destruct (keyAt_Some (index + 1 + 1) ltac:(lia)) as (b & -> & _).
      cbn [mbind option_bind]. destruct (negb (a =? b)).
      * exists (index + 1). split; [reflexivity|lia].
      * destruct (IH (index + 1) ltac:(lia) ltac:(lia)) as (e & -> & He & _).
        exists e. split; [reflexivity|lia].
  - exists index. split; [reflexivity|lia].
Qed.

Lemma growLMax_spec dir precis d_min index fuel : forall k,
  dir = 1 \/ dir = -1 -> 0 <= index <= N - 1 ->
  1 <= k <= 31 -> k = 1 \/ 2 ^ k <= 2 * (N - 1) ->
  32 <= k + Z.of_nat fuel ->
  exists k',
    growLMax fuel mc (N - 1) index dir precis d_min (2 ^ k) (i32 (index + 2 ^ k * dir))
    = Some (2 ^ k') /\
    1 <= k' <= 31 /\ (k' = 1 \/ 2 ^ k' <= 2 * (N - 1)).
Proof.
  induction fuel as [|fuel IH]; intros k Hd Hi Hk Hb Hf; [lia|].
  cbn [growLMax].
  assert (Hp : 2 <= 2 ^ k <= 2 ^ 30).
  { destruct Hb as [->|Hb]; [cbn; lia|].
    split; [|lia]. change 2 with (2 ^ 1) at 1. apply Z.pow_le_mono_r; lia. }
  rewrite i32_small by nia.
  destruct ((index + 2 ^ k * dir <=? N - 1) && (index + 2 ^ k * dir >=? 0)) eqn:Hin.
  - apply andb_true_iff in Hin as [H1 H2]. apply Z.leb_le in H1. apply Z.geb_le in H2.
    destruct (keyAt_Some (index + 2 ^ k * dir) ltac:(lia)) as (code & -> & _).
    cbn [mbind option_bind].
    destruct (CLZ (Z.lxor precis code) >? d_min).
    + assert (Hle : 2 ^ k <= N - 1) by nia.
      assert (Hk29 : k < 29).
      { destruct (Z.lt_ge_cases k 29) as [|Hge]; [assumption|exfalso].
        assert (2 ^ 29 <= 2 ^ k) by (apply Z.pow_le_mono_r; lia). lia. }
      rewrite Z.shiftl_mul_pow2 by lia. change (2 ^ 1) with 2.
      replace (2 ^ k * 2) with (2 ^ (k + 1)) by (rewrite Z.pow_add_r by lia; reflexivity).
      assert (2 ^ (k + 1) = 2 * 2 ^ k) by (rewrite Z.pow_add_r by lia; lia).
      rewrite (i32_small (2 ^ (k + 1))) by lia.
      apply IH; [assumption|assumption|lia|right; lia|lia].
    + exists k. split; [reflexivity|lia].
  - exists k. split; [reflexivity|lia].
Qed.

Section Search.

Variables dir precis d_min index k : Z.
Hypothesis Hdir : dir = 1 \/ dir = -1.
Hypothesis Hindex : 0 < index < N - 1.
Hypothesis Hk : 1 <= k <= 31.
Hypothesis Hbound : k = 1 \/ 2 ^ k <= 2 * (N - 1).
Hypothesis Haccept :
  exists code, keyAt mc (index + dir) = Some code /\
               (CLZ (Z.lxor precis code) >? d_min) = true.

Lemma pow2_k_bounds : 2 <= 2 ^ k < 2 ^ 30.
Proof.
  destruct Hbound as [->|Hb]; [cbn; lia|].
  split; [|lia]. change 2 with (2 ^ 1) at 1. apply Z.pow_le_mono_r; lia.
Qed.

Lemma searchL_spec fuel : forall j l,
  1 <= j <= k + 1 ->
  0 <= l <= 2 ^ k - 2 ^ (k - j + 1) ->
  0 <= index + l * dir <= N - 1 ->
  k - j + 1 < Z.of_nat fuel ->
  exists r,
    searchL fuel mc (N - 1) index dir precis d_min (2 ^ k) (2 ^ j) l = Some r /\
    l <= r <= 2 ^ k - 1 /\
    0 <= index + r * dir <= N - 1 /\
    (j <= k -> 1 <= r).
Proof.
  pose proof pow2_k_bounds as Hp.
  induction fuel as [|fuel IH]; intros j l Hj Hl Hpos Hf; [lia|].
  cbn [searchL].
  assert (Hj0 : 0 < 2 ^ j) by lia.
  rewrite Z.quot_div_nonneg by lia.
  destruct (Z.eq_dec j (k + 1)) as [->|Hjk].
  - rewrite Z.div_small by (split; [lia|]; apply Z.pow_lt_mono_r; lia).
    cbn. exists l. split; [reflexivity|].
    replace (k - (k + 1) + 1) with 0 in Hl by lia. cbn in Hl. lia.
  - assert (Ht : 2 ^ k / 2 ^ j = 2 ^ (k - j)) by (rewrite <- Z.pow_sub_r by lia; reflexivity).
    rewrite Ht.
    assert (Ht1 : 1 <= 2 ^ (k - j)) by lia.
    assert (Et : 2 ^ (k - j + 1) = 2 * 2 ^ (k - j))
      by (rewrite Z.pow_add_r by lia; lia).
    destruct (Z.geb_spec (2 ^ (k - j)) 1); [|lia].
    assert (Hj1 : 2 ^ (j + 1) = 2 * 2 ^ j) by (rewrite Z.pow_add_r by lia; lia).
    assert (Hjle : 2 ^ j <= 2 ^ k) by (apply Z.pow_le_mono_r; lia).
    rewrite Z.shiftl_mul_pow2 by lia. change (2 ^ 1) with 2.
    replace (2 ^ j * 2) with (2 ^ (j + 1)) by lia.
    rewrite (i32_small (2 ^ (j + 1))) by lia.
    rewrite (i32_small (index + (l + 2 ^ (k - j)) * dir)) by nia.
    assert (Hnext : forall l',
      l <= l' <= l + 2 ^ (k - j) -> 0 <= index + l' * dir <= N - 1 ->
      (j = k -> 1 <= l') ->
      exists r,
        searchL fuel mc (N - 1) index dir precis d_min (2 ^ k) (2 ^ (j + 1)) l' = Some r /\
        l <= r <= 2 ^ k - 1 /\ 0 <= index + r * dir <= N - 1 /\ (j <= k -> 1 <= r)).
    { intros l' Hl' Hpos' Hone.
      destruct (IH (j + 1) l') as (r & Hr & Hr1 & Hr2 & Hr3); try lia.
      { replace (k - (j + 1) + 1) with (k - j) by lia. lia. }
      exists r. split; [exact Hr|]. split; [lia|]. split; [lia|].
      intros _. destruct (Z.eq_dec j k) as [E|]; [|apply Hr3; lia].
      specialize (Hone E). lia. }
    destruct ((index + (l + 2 ^ (k - j)) * dir <=? N - 1)
              && (index + (l + 2 ^ (k - j)) * dir >=? 0)) eqn:Hin.
    + apply andb_true_iff in Hin as [H1 H2]. apply Z.leb_le in H1. apply Z.geb_le in H2.
      destruct (keyAt_Some (index + (l + 2 ^ (k - j)) * dir) ltac:(lia))
        as (code & Hcode & _).
      rewrite Hcode. cbn [mbind option_bind].
      destruct (CLZ (Z.lxor precis code) >? d_min) eqn:Hc.
      * rewrite i32_small by lia. apply Hnext; [lia|lia|lia].
      * apply Hnext; [lia|lia|].
        intros ->. replace (k - k) with 0 in * by lia. change (2 ^ 0) with 1 in *.
        destruct (Z.eq_dec l 0) as [->|]; [|lia]. exfalso.
        destruct Haccept as (code' & Hcode' & Hacc).
        replace (index + (0 + 1) * dir) with (index + dir) in Hcode by lia.
        rewrite Hcode' in Hcode. injection Hcode as ->. congruence.
    + cbn [mbind option_bind]. apply Hnext; [lia|lia|].
      intros ->. replace (k - k) with 0 in * by lia. change (2 ^ 0) with 1 in *.
      destruct (Z.eq_dec l 0) as [->|]; [|lia]. exfalso.
      apply andb_false_iff in Hin.
      destruct Hin as [Hin|Hin];
        [apply Z.leb_gt in Hin|rewrite Z.geb_leb in Hin; apply Z.leb_gt in Hin]; lia.
Qed.

End Search.

Lemma determineRange_spec i :
  0 <= i < N - 1 ->
  exists first last,
    determineRange mc i N = Some (mkUint2 first last) /\
    0 <= first < last /\ last <= N - 1 /\ (first = i \/ last = i).
Proof.
  intros Hi. unfold determineRange.
  rewrite (u32_small (N - 1)) by lia. rewrite (i32_small (N - 1)) by lia.
  destruct (Z.eqb_spec i 0) as [->|Hi0].
  { exists 0, (N - 1). rewrite u32_small by lia. split; [reflexivity|lia]. }
  destruct (keyAt_Some (i - 1) ltac:(lia)) as (minone & Hm & Hmr).
  destruct (keyAt_Some i ltac:(lia)) as (precis & Hp & Hpr).
  destruct (keyAt_Some (i + 1) ltac:(lia)) as (pluone & Hq & Hqr).
  assert (Hs1 : minone <= precis).
  { apply (keyAt_sorted (i - 1)); [lia|exact Hm|].
    replace (i - 1 + 1) with i by lia. exact Hp. }
  assert (Hs2 : precis <= pluone) by (apply (keyAt_sorted i); [lia|assumption..]).
  rewrite Hm, Hp, Hq. cbn [mbind option_bind].
  destruct ((minone =? precis) && (pluone =? precis)) eqn:Hdup.
  - destruct (equalRunEnd_spec (Z.to_nat N) i ltac:(lia) ltac:(lia)) as (e & -> & He1 & He2).
    cbn [mbind option_bind]. exists i, e.
    rewrite !u32_small by lia. split; [reflexivity|lia].
  - pose proof (neighbour_prefixes_differ minone precis pluone
                  ltac:(lia) ltac:(lia) Hdup) as Hdiff.
    set (lrx := CLZ (Z.lxor precis minone)) in *.
    set (lry := CLZ (Z.lxor precis pluone)) in *.
    assert (Hsel : exists dir d_min,
      (if lrx >? lry then (-1, lry) else (1, lrx)) = (dir, d_min) /\
      (dir = 1 \/ dir = -1) /\
      exists code, keyAt mc (i + dir) = Some code /\
                   (CLZ (Z.lxor precis code) >? d_min) = true).
    { destruct (Z.gtb_spec lrx lry) as [Hgt|Hle].
      - exists (-1), lry. split; [reflexivity|]. split; [lia|].
        exists minone. split; [exact Hm|]. fold lrx. apply Z.gtb_lt. lia.
      - exists 1, lrx. split; [reflexivity|]. split; [lia|].
        exists pluone. split; [exact Hq|]. fold lry. apply Z.gtb_lt. lia. }
    destruct Hsel as (dir & d_min & -> & Hdir & Hacc).
    destruct (growLMax_spec dir precis d_min i 32 1 Hdir ltac:(lia) ltac:(lia)
                ltac:(lia) ltac:(lia)) as (k & Hg & Hk & Hkb).
    change (2 ^ 1) with 2 in Hg. rewrite Hg. cbn [mbind option_bind].
    destruct (searchL_spec dir precis d_min i k Hdir ltac:(lia) Hk Hkb Hacc 33 1 0)
      as (r & Hr & Hr1 & Hr2 & Hr3); try lia.
    { replace (k - 1 + 1) with k by lia. lia. }
    change (2 ^ 1) with 2 in Hr. rewrite Hr. cbn [mbind option_bind].
    specialize (Hr3 ltac:(lia)).
    rewrite i32_small by lia. unfold zmin, zmax.
    destruct Hdir as [-> | ->].
    + exists i, (i + r * 1).
      destruct (Z.ltb_spec i (i + r * 1)); [|lia].
      destruct (Z.gtb_spec i (i + r * 1)); [lia|].
      rewrite !u32_small by lia. split; [reflexivity|lia].
    + exists (i + r * -1), i.
      destruct (Z.ltb_spec i (i + r * -1)); [lia|].
      destruct (Z.gtb_spec i (i + r * -1)); [|lia].
      rewrite !u32_small by lia. split; [reflexivity|lia].
Qed.

Lemma splitSearch_spec firstCode commonPrefix first last fuel : forall split step,
  0 <= first -> last <= N - 1 ->
  first <= split < last -> 1 <= step <= last - first ->
  step <= 2 ^ Z.of_nat fuel -> fuel <> O ->
  exists s,
    splitSearch fuel mc firstCode commonPrefix last split step = Some s /\
    first <= s < last.
Proof.
  induction fuel as [|fuel IH]; intros split step Hf Hl Hs Hst Hfuel Hne; [congruence|].
  cbn [splitSearch].
  rewrite (i32_small (step + 1)) by lia.
  rewrite Z.shiftr_div_pow2 by lia. change (2 ^ 1) with 2.
  set (step' := (step + 1) / 2).
  assert (Hstep' : 1 <= step' <= step /\ 2 * step' <= step + 1) by (unfold step'; zlia).
  rewrite (i32_small (split + step')) by lia.
  assert (Hsplit : exists split',
    (if split + step' <? last
     then splitCode ← keyAt mc (split + step');
          Some (if CLZ (Z.lxor firstCode splitCode) >? commonPrefix
                then split + step' else split)
     else Some split) = Some split' /\ first <= split' < last).
  { destruct (Z.ltb_spec (split + step') last).
    - destruct (keyAt_Some (split + step') ltac:(lia)) as (code & -> & _).
      cbn [mbind option_bind].
      destruct (CLZ (Z.lxor firstCode code) >? commonPrefix);
        eexists; (split; [reflexivity|lia]).
    - exists split. split; [reflexivity|lia]. }
  destruct Hsplit as (split' & -> & Hs'). cbn [mbind option_bind].
  destruct (Z.gtb_spec step' 1) as [Hgt|Hle].
  - apply IH; try lia.
    + rewrite Nat2Z.inj_succ, Z.pow_succ_r in Hfuel by lia. lia.
    + intros ->. rewrite Nat2Z.inj_succ, Z.pow_succ_r in Hfuel by lia.
      change (2 ^ Z.of_nat 0) with 1 in Hfuel. lia.
  - exists split'. split; [reflexivity|lia].
Qed.

Lemma findSplit_spec first last :
  0 <= first < last -> last <= N - 1 ->
  exists s, findSplit mc first last = Some s /\ first <= s < last.
Proof.
  intros Hf Hl. unfold findSplit.
  destruct (keyAt_Some first ltac:(lia)) as (firstCode & -> & _).
  destruct (keyAt_Some last ltac:(lia)) as (lastCode & -> & _).
  cbn [mbind option_bind].
  destruct (firstCode =? lastCode).
  - exists first. split; [reflexivity|lia].
  - rewrite i32_small by lia.
    apply splitSearch_spec with (first := first); lia.
Qed.

Lemma upd_spec {A} (l : list A) (n : Z) (f : A -> A) :
  0 <= n < Z.of_nat (length l) ->
  exists x, rd l n = Some x /\ upd l n f = Some (<[Z.to_nat n := f x]> l).
Proof.
  intros Hn. destruct (rd_is_Some l n Hn) as [x Hx]. exists x. split; [exact Hx|].
  unfold upd. rewrite Hx. cbn [mbind option_bind]. unfold wr.
  destruct (decide (0 <= n < Z.of_nat (length l))); [reflexivity|contradiction].
Qed.

Lemma rd_insert_eq {A} (l : list A) (n : Z) (v : A) :
  0 <= n < Z.of_nat (length l) -> rd (<[Z.to_nat n := v]> l) n = Some v.
Proof.
  intros Hn. apply rd_lookup. split; [lia|]. apply list_lookup_insert_eq. lia.
Qed.

Lemma rd_insert_ne {A} (l : list A) (n m : Z) (v : A) :
  0 <= n -> 0 <= m -> n <> m -> rd (<[Z.to_nat n := v]> l) m = rd l m.
Proof.
  intros Hn Hm Hne. unfold rd. destruct (decide (0 <= m)); [|reflexivity].
  apply list_lookup_insert_ne. lia.
Qed.

Lemma upd_rd {A} (l : list A) (n : Z) (f : A -> A) :
  0 <= n < Z.of_nat (length l) ->
  exists x l',
    rd l n = Some x /\ upd l n f = Some l' /\ length l' = length l /\
    rd l' n = Some (f x) /\
    forall m, m <> n -> rd l' m = rd l m.
Proof.
  intros Hn. destruct (upd_spec l n f Hn) as (x & Hx & Hu).
  exists x, (<[Z.to_nat n := f x]> l).
  split; [exact Hx|]. split; [exact Hu|]. split; [apply length_insert|].
  split; [apply rd_insert_eq; exact Hn|].
  intros m Hm. unfold rd. destruct (decide (0 <= m)); [|reflexivity].
  apply list_lookup_insert_ne. lia.
Qed.

(** C4. For an array whose first [N] entries are the sorted Morton pairs
    ([2 <= N <= 2^29], leaf indices below [N] as values) and every internal
    node index [i] in
    [[0, N-1)], [constructNode] runs to completion on a node array of
    [2N - 1] entries.  With [[first, last]] the range computed by
    [determineRange] and [split] the position computed by [findSplit]:
    child A of node [i + N] is [sorted[split].value] if [first == split]
    and [split + N] otherwise; child B is [sorted[split+1].value] if
    [last == split + 1] and [split + 1 + N] otherwise; the parent of both
    children is [i + N]; and for [i = 0] the parent of node [N], the root,
    is [UINT_MAX]. *)
Theorem constructNode_children (nodes : list BVHNode) (i : Z) :
  Z.of_nat (length nodes) = 2 * N - 1 ->
  (forall n p, Z.of_nat n < N -> mc !! n = Some p -> 0 <= uy p < N) ->
  0 <= i < N - 1 ->
  exists first last split pairA pairB nodes' nodeI nodeA nodeB,
    determineRange mc i N = Some (mkUint2 first last) /\
    findSplit mc first last = Some split /\
    rd mc split = Some pairA /\ rd mc (split + 1) = Some pairB /\
    constructNode nodes mc N i = Some nodes' /\
    let child_A := if first =? split then uy pairA else split + N in
    let child_B := if last =? split + 1 then uy pairB else split + 1 + N in
    rd nodes' (i + N) = Some nodeI /\
    childA nodeI = child_A /\ childB nodeI = child_B /\
    rd nodes' child_A = Some nodeA /\ parent nodeA = i + N /\
    rd nodes' child_B = Some nodeB /\ parent nodeB = i + N /\
    (i = 0 -> parent nodeI = UINT_MAX).
Proof.
  intros Hnodes Hvals Hi.
  destruct (determineRange_spec i Hi) as (first & last & Hr & Hfl & Hl & Hends).
  destruct (findSplit_spec first last Hfl Hl) as (s & Hs & Hsb).
  destruct (rd_is_Some mc s ltac:(lia)) as [pairA HA].
  destruct (rd_is_Some mc (s + 1) ltac:(lia)) as [pairB HB].
  assert (HvA : 0 <= uy pairA < N).
  { apply rd_lookup in HA as [_ HA']. apply (Hvals (Z.to_nat s)); [lia|exact HA']. }
  assert (HvB : 0 <= uy pairB < N).
  { apply rd_lookup in HB as [_ HB']. apply (Hvals (Z.to_nat (s + 1))); [lia|exact HB']. }
  exists first, last, s, pairA, pairB.
  unfold constructNode. rewrite Hr. cbn [mbind option_bind ux uy].
  rewrite (i32_small first), (i32_small last), Hs by lia.
  cbn [mbind option_bind]. rewrite HA, HB. cbn [mbind option_bind].
  assert (Ezmin : zmin first last = first)
    by (unfold zmin; destruct (Z.ltb_spec first last); lia).
  assert (Ezmax : zmax first last = last)
    by (unfold zmax; destruct (Z.gtb_spec first last); lia).
  rewrite Ezmin, Ezmax, (u32_small s), (u32_small (s + 1)), (u32_small (i + N)),
    (u32_small (s + N)), (u32_small (s + 1 + N)) by lia.
  set (cA := if first =? s then uy pairA else s + N).
  set (cB := if last =? s + 1 then uy pairB else s + 1 + N).
  assert (EA : u32 (uy pairA * b2z (first =? s) + (s + N) * b2z (negb (first =? s))) = cA).
  { unfold cA. destruct (first =? s); cbn [b2z negb]; rewrite u32_small; lia. }
  assert (EB : u32 (uy pairB * b2z (last =? s + 1)
                    + (s + 1 + N) * b2z (negb (last =? s + 1))) = cB).
  { unfold cB. destruct (last =? s + 1); cbn [b2z negb]; rewrite u32_small; lia. }
  rewrite EA, EB.
  assert (HcA : 0 <= cA < 2 * N - 1 /\ cA <> i + N).
  { unfold cA. destruct (Z.eqb_spec first s); lia. }
  assert (HcB : 0 <= cB < 2 * N - 1 /\ cB <> i + N).
  { unfold cB. destruct (Z.eqb_spec last (s + 1)); lia. }
  clearbody cA cB. clear EA EB.
  destruct (upd_rd nodes (i + N) set_emptyBox ltac:(lia))
    as (n0 & l1 & _ & -> & Hl1 & Hr1 & _). cbn [mbind option_bind].
  destruct (upd_rd l1 (i + N) (set_type INNER_NODE) ltac:(lia))
    as (n1 & l2 & Hn1 & -> & Hl2 & Hr2 & _). cbn [mbind option_bind].
  assert (H3 : exists l3 n3,
    (if i + N =? N then upd l2 (i + N) (set_parent UINT_MAX) else Some l2) = Some l3 /\
    length l3 = length l2 /\ rd l3 (i + N) = Some n3 /\
    (i = 0 -> parent n3 = UINT_MAX)).
  { destruct (Z.eqb_spec (i + N) N) as [E|NE].
    - destruct (upd_rd l2 (i + N) (set_parent UINT_MAX) ltac:(lia))
        as (n2 & l3 & _ & -> & Hl3 & Hr3 & _).
      exists l3, (set_parent UINT_MAX n2). repeat split; assumption || reflexivity.
    - exists l2, (set_type INNER_NODE n1).
      split; [reflexivity|]. split; [reflexivity|]. split; [exact Hr2|]. lia. }
  destruct H3 as (l3 & n3 & -> & Hl3 & Hr3 & Hroot). cbn [mbind option_bind].
  destruct (upd_rd l3 (i + N) (set_childA cA) ltac:(lia))
    as (n3' & l4 & Hn3' & -> & Hl4 & Hr4 & _). cbn [mbind option_bind].
  rewrite Hr3 in Hn3'. injection Hn3' as <-.
  destruct (upd_rd l4 (i + N) (set_childB cB) ltac:(lia))
    as (n4 & l5 & Hn4 & -> & Hl5 & Hr5 & _). cbn [mbind option_bind].
  rewrite Hr4 in Hn4. injection Hn4 as <-.
  destruct (upd_rd l5 cA (set_parent (i + N)) ltac:(lia))
    as (xa & l6 & _ & -> & Hl6 & Hr6 & Ho6). cbn [mbind option_bind].
  destruct (upd_rd l6 cB (set_parent (i + N)) ltac:(lia))
    as (xb & l7 & Hxb & -> & Hl7 & Hr7 & Ho7).
  exists l7, (set_childB cB (set_childA cA n3)).
  assert (HA7 : exists nodeA, rd l7 cA = Some nodeA /\ parent nodeA = i + N).
  { destruct (Z.eq_dec cA cB) as [E|NE].
    - subst cB. eexists. split; [exact Hr7|reflexivity].
    - rewrite (Ho7 cA NE). eexists. split; [exact Hr6|reflexivity]. }
  destruct HA7 as (nodeA & HnA & HpA).
  exists nodeA, (set_parent (i + N) xb).
  split; [reflexivity|]. split; [reflexivity|]. split; [reflexivity|].
  split; [reflexivity|]. split; [reflexivity|]. cbv zeta.
  split; [rewrite (Ho7 (i + N)), (Ho6 (i + N)) by lia; exact Hr5|].
  split; [reflexivity|]. split; [reflexivity|].
  split; [exact HnA|]. split; [exact HpA|].
  split; [exact Hr7|]. split; [reflexivity|].
  exact Hroot.
Qed.

End RadixTree.

Lemma constructNode_children_witness :
  exists first last split pairA pairB nodes' nodeI nodeA nodeB,
    determineRange fourCodes 1 4 = Some (mkUint2 first last) /\
    findSplit fourCodes first last = Some split /\
    rd fourCodes split = Some pairA /\ rd fourCodes (split + 1) = Some pairB /\
    constructNode (replicate 7 blankNode) fourCodes 4 1 = Some nodes' /\
    let child_A := if first =? split then uy pairA else split + 4 in
    let child_B := if last =? split + 1 then uy pairB else split + 1 + 4 in
    rd nodes' (1 + 4) = Some nodeI /\
    childA nodeI = child_A /\ childB nodeI = child_B /\
    rd nodes' child_A = Some nodeA /\ parent nodeA = 1 + 4 /\
    rd nodes' child_B = Some nodeB /\ parent nodeB = 1 + 4 /\
    (1 = 0 -> parent nodeI = UINT_MAX).
Proof.
  assert (Hall : forall (P : uint2 -> Prop),
            P (mkUint2 1 3) -> P (mkUint2 2 0) -> P (mkUint2 4 1) -> P (mkUint2 5 2) ->
            forall n p, Z.of_nat n < 4 -> fourCodes !! n = Some p -> P p).
  { intros P H0 H1 H2 H3 n p _.
    destruct n as [|[|[|[|n]]]]; cbn; intros [= <-]; assumption. }
  apply (constructNode_children fourCodes 4).
  - lia.
  - cbn. lia.
  - apply Hall; cbn; lia.
  - intros n p q _.
    destruct n as [|[|[|[|n]]]]; cbn; intros [= <-] [= <-]; cbn; lia.
  - reflexivity.
  - apply Hall; cbn; lia.
  - lia.
Defined.

(** * Further properties of the same sources *)

(** ** Buffer and launch sizes *)

Lemma clz64_loop_spec x fuel : forall c,
  0 <= c <= 63 -> 0 < x < 2 ^ (64 - c) -> (64 - c < Z.of_nat fuel) ->
  clz64_loop fuel x (2 ^ (63 - c)) c = 63 - Z.log2 x.
Proof.
  induction fuel as [|fuel IH]; intros c Hc Hx Hf; [lia|].
  cbn [clz64_loop]. rewrite land_pow2 by lia.
  destruct (Z.testbit x (63 - c)) eqn:Hb.
  - assert (2 ^ (63 - c) <= x) by (apply testbit_true_ge; [lia|lia|exact Hb]).
    destruct (Z.eqb_spec (2 ^ (63 - c)) 0); [lia|]. cbn [andb].
    rewrite (Z.log2_unique x (63 - c)); [lia|lia|].
    replace (Z.succ (63 - c)) with (64 - c) by lia. lia.
  - assert (Hlt : x < 2 ^ (63 - c)).
    { apply testbit_false_lt; [lia| |exact Hb].
      replace (63 - c + 1) with (64 - c) by lia. lia. }
    assert (c < 63).
    { destruct (Z.eq_dec c 63) as [->|]; [|lia]. change (2 ^ (63 - 63)) with 1 in Hlt. lia. }
    rewrite Z.eqb_refl. destruct (Z.ltb_spec c 64); [|lia]. cbn [andb].
    rewrite Z.shiftr_div_pow2 by lia.
    replace (2 ^ (63 - c) / 2 ^ 1) with (2 ^ (63 - (c + 1))).
    + apply IH; [lia| |lia]. replace (64 - (c + 1)) with (63 - c) by lia. lia.
    + rewrite <- Z.pow_sub_r by lia. f_equal. lia.
Qed.

Lemma CLZ64_pos x : 0 < x < 2 ^ 64 -> CLZ64 x = 63 - Z.log2 x.
Proof.
  intros Hx. unfold CLZ64. change 9223372036854775808 with (2 ^ (63 - 0)).
  apply clz64_loop_spec; [lia|exact Hx|cbn; lia].
Qed.

Lemma largestPowerOfTwo_pos x :
  1 <= x < 2 ^ 31 -> largestPowerOfTwo x = Some (2 ^ Z.log2 x).
Proof.
  intros Hx. unfold largestPowerOfTwo.
  rewrite CLZ64_pos by lia.
  pose proof (Z.log2_nonneg x) as H0.
  assert (Hl : Z.log2 x < 31) by (apply Z.log2_lt_pow2; lia).
  replace (64 - (63 - Z.log2 x)) with (Z.log2 x + 1) by lia.
  rewrite Z.mod_small by lia.
  replace (Z.log2 x + 1 - 1) with (Z.log2 x) by lia.
  destruct (Z.leb_spec 0 (Z.log2 x)); [|lia].
  destruct (Z.ltb_spec (Z.log2 x) 31); [|lia]. cbn [andb].
  rewrite Z.shiftl_1_l. unfold u64. rewrite Z.mod_small; [reflexivity|].
  split; [lia|]. apply Z.pow_lt_mono_r; lia.
Qed.

(** X1. For every [x] below [2^31], [largestPowerOfTwo x] is the largest
    power of two that does not exceed [x]: the result [p = 2^(log2 x)]
    satisfies [p <= x < 2 p].  It is not the next power of two above [x]
    (the value of a number that is not a power of two is rounded down),
    and for [x = 0] the shift count is [-1], which is undefined. *)
Theorem largestPowerOfTwo_is_floor x :
  0 <= x < 2 ^ 31 ->
  match largestPowerOfTwo x with
  | None => x = 0
  | Some p => p = 2 ^ Z.log2 x /\ p <= x < 2 * p
  end.
Proof.
  intros Hx. destruct (Z.eq_dec x 0) as [->|Hne]; [reflexivity|].
  rewrite largestPowerOfTwo_pos by lia. split; [reflexivity|].
  pose proof (Z.log2_spec x ltac:(lia)) as Hs.
  rewrite Z.pow_succ_r in Hs by apply Z.log2_nonneg. lia.
Qed.

Lemma largestPowerOfTwo_is_floor_witness :
  match largestPowerOfTwo 5 with
  | None => 5 = 0
  | Some p => p = 2 ^ Z.log2 5 /\ p <= 5 < 2 * p
  end.
Proof. apply (largestPowerOfTwo_is_floor 5). lia. Defined.

(** X2. [closestMultipleTo number multiple] is the least multiple of
    [multiple] that is at least [number]: it is a multiple, it is not
    below [number] and it is less than [multiple] above it, whenever
    [multiple] is positive and the result fits [CL_UINT]. *)
Theorem closestMultipleTo_spec number multiple :
  0 <= number -> 0 < multiple -> number + multiple <= 2 ^ 32 ->
  exists r q, closestMultipleTo number multiple = Some r /\
    r = q * multiple /\ number <= r < number + multiple.
Proof.
  intros Hn Hm Hs. unfold closestMultipleTo.
  destruct (Z.eqb_spec multiple 0); [lia|].
  rewrite Z.rem_mod_nonneg, Z.quot_div_nonneg by lia.
  pose proof (Z.div_mod number multiple ltac:(lia)) as Hdm.
  pose proof (Z.mod_pos_bound number multiple Hm) as Hb.
  assert (0 <= number / multiple) by (apply Z.div_pos; lia).
  remember (number / multiple) as q. remember (number mod multiple) as md.
  destruct (Z.eqb_spec md 0) as [E|NE].
  - exists number, q. split; [reflexivity|]. nia.
  - exists ((q + 1) * multiple), (q + 1).
    assert (q + 1 < 2 ^ 32) by nia.
    rewrite (u32_small (q + 1)) by lia. rewrite u32_small by nia.
    split; [reflexivity|]. nia.
Qed.

Lemma closestMultipleTo_spec_witness :
  exists r q, closestMultipleTo 1000 64 = Some r /\
    r = q * 64 /\ 1000 <= r < 1000 + 64.
Proof. apply (closestMultipleTo_spec 1000 64); lia. Defined.

Lemma pow2_isPowerOfTwo k : 0 <= k < 64 -> isPowerOfTwo (2 ^ k) = true.
Proof. intros Hk. apply isPowerOfTwo_spec. right. exists k. auto. Qed.

(** X3. The number of entries of the Morton code buffer that
    [BVHManager::initializeFrame] hands to the bitonic sorter is a power of
    two (in the sense of [isPowerOfTwo]), at least the number of leaves and
    less than twice that number, for every scene of 1 to [2^30]
    triangles. *)
Theorem mortonBufferItems_next_power_of_two n :
  1 <= n <= 2 ^ 30 ->
  exists m, BVHManager.mortonBufferItems n = Some m /\
    isPowerOfTwo m = true /\ n <= m < 2 * n.
Proof.
  intros Hn. unfold BVHManager.mortonBufferItems.
  rewrite largestPowerOfTwo_pos by lia. cbn [mbind option_bind].
  pose proof (Z.log2_nonneg n) as H0.
  assert (Hl : Z.log2 n <= 30).
  { rewrite <- (Z.log2_pow2 30) by lia. apply Z.log2_le_mono. lia. }
  pose proof (Z.log2_spec n ltac:(lia)) as Hs.
  rewrite Z.pow_succ_r in Hs by lia.
  assert (Hp : 2 ^ Z.log2 n <= 2 ^ 30) by (apply Z.pow_le_mono_r; lia).
  rewrite u32_small by lia.
  destruct (Z.ltb_spec (2 ^ Z.log2 n) n).
  - exists (2 ^ Z.log2 n * 2).
    rewrite u32_small by lia. split; [reflexivity|]. split; [|lia].
    replace (2 ^ Z.log2 n * 2) with (2 ^ (Z.log2 n + 1))
      by (rewrite Z.pow_add_r by lia; reflexivity).
    apply pow2_isPowerOfTwo. lia.
  - exists (2 ^ Z.log2 n). split; [reflexivity|]. split; [|lia].
    apply pow2_isPowerOfTwo. lia.
Qed.

Lemma mortonBufferItems_next_power_of_two_witness :
  exists m, BVHManager.mortonBufferItems 5 = Some m /\
    isPowerOfTwo m = true /\ 5 <= m < 2 * 5.
Proof. apply (mortonBufferItems_next_power_of_two 5). lia. Defined.

(** X4. The padded sizes of [TwoLevelGridManager::initializeFrame],
    [largestPowerOfTwo(n) << 1], are powers of two strictly above [n] and at
    most [2 n]; in particular a count that already is a power of two is
    doubled. *)
Theorem powOfTwo_above_count n :
  1 <= n < 2 ^ 30 ->
  exists m, TwoLevelGridManager.powOfTwo n = Some m /\
    isPowerOfTwo m = true /\ n < m <= 2 * n.
Proof.
  intros Hn. unfold TwoLevelGridManager.powOfTwo.
  rewrite largestPowerOfTwo_pos by lia. cbn [mbind option_bind].
  pose proof (Z.log2_nonneg n) as H0.
  assert (Hl : Z.log2 n < 30) by (apply Z.log2_lt_pow2; lia).
  pose proof (Z.log2_spec n ltac:(lia)) as Hs.
  rewrite Z.pow_succ_r in Hs by lia.
  assert (Hp : 2 ^ Z.log2 n < 2 ^ 30) by (apply Z.pow_lt_mono_r; lia).
  rewrite Z.shiftl_mul_pow2 by lia. change (2 ^ 1) with 2.
  unfold u64. rewrite Z.mod_small by lia. rewrite u32_small by lia.
  exists (2 ^ Z.log2 n * 2). split; [reflexivity|]. split; [|lia].
  replace (2 ^ Z.log2 n * 2) with (2 ^ (Z.log2 n + 1))
    by (rewrite Z.pow_add_r by lia; reflexivity).
  apply pow2_isPowerOfTwo. lia.
Qed.

Lemma powOfTwo_above_count_witness :
  exists m, TwoLevelGridManager.powOfTwo 8 = Some m /\
    isPowerOfTwo m = true /\ 8 < m <= 2 * 8.
Proof. apply (powOfTwo_above_count 8). lia. Defined.

(** X5. [packIntsToLong a b] keeps [a] in the upper and [b] in the lower
    32 bits: both are recovered from the packed value, which fits
    [CL_ULONG]. *)
Theorem packIntsToLong_unpacks a b :
  0 <= a < 2 ^ 32 -> 0 <= b < 2 ^ 32 ->
  Z.shiftr (packIntsToLong a b) 32 = a /\
  Z.land (packIntsToLong a b) (2 ^ 32 - 1) = b /\
  0 <= packIntsToLong a b < 2 ^ 64.
Proof.
  intros Ha Hb. unfold packIntsToLong.
  change 4294967295 with (Z.ones 32). change (2 ^ 32 - 1) with (Z.ones 32).
  rewrite !Z.land_ones by lia. rewrite (Z.mod_small b) by lia.
  rewrite Z.shiftl_mul_pow2 by lia. unfold u64.
  rewrite (Z.mod_small (a * 2 ^ 32)) by lia.
  assert (E : Z.lor (a * 2 ^ 32) b = a * 2 ^ 32 + b).
  { rewrite <- Z.shiftl_mul_pow2 by lia. symmetry.
    rewrite <- Z.lxor_lor, <- Z.add_nocarry_lxor; [reflexivity| |].
    all: apply Z.bits_inj'; intros n Hn; rewrite Z.land_spec, Z.bits_0.
    all: destruct (Z.ltb_spec n 32);
      [rewrite Z.shiftl_spec_low by lia; reflexivity|].
    all: rewrite (Z.bits_above_log2 b n); [apply andb_false_r|lia|].
    all: destruct (Z.eq_dec b 0) as [->|]; [cbn; lia|].
    all: assert (Z.log2 b < 32) by (apply Z.log2_lt_pow2; lia); lia. }
  rewrite E. rewrite Z.shiftr_div_pow2 by lia.
  split; [zlia|]. split; [zlia|lia].
Qed.

Lemma packIntsToLong_unpacks_witness :
  Z.shiftr (packIntsToLong 7 9) 32 = 7 /\
  Z.land (packIntsToLong 7 9) (2 ^ 32 - 1) = 9 /\
  0 <= packIntsToLong 7 9 < 2 ^ 64.
Proof. apply (packIntsToLong_unpacks 7 9); lia. Defined.

(** ** Two-level grid: linear cell indices *)

Lemma getCellIndex_bound x y z rx ry rz :
  0 <= x < rx -> 0 <= y < ry -> 0 <= z < rz ->
  0 <= z * rx * ry + y * rx + x < rx * ry * rz.
Proof.
  intros Hx Hy Hz.
  assert (0 <= y * rx) by (apply Z.mul_nonneg_nonneg; lia).
  assert (y * rx <= (ry - 1) * rx) by (apply Z.mul_le_mono_nonneg_r; lia).
  assert (0 <= z * (rx * ry)) by (apply Z.mul_nonneg_nonneg; nia).
  assert (z * (rx * ry) <= (rz - 1) * (rx * ry))
    by (apply Z.mul_le_mono_nonneg_r; nia).
  lia.
Qed.

Lemma getCellIndex_decodes x y z rx ry rz :
  0 <= x < rx -> 0 <= y < ry -> 0 <= z < rz -> rx * ry * rz < 2 ^ 32 ->
  0 <= getCellIndex x y z rx ry rz < rx * ry * rz /\
  getCellRefFromIndex (getCellIndex x y z rx ry rz) rx ry rz
  = Some (mkUint3 x y z).
Proof.
  intros Hx Hy Hz Hr.
  pose proof (getCellIndex_bound x y z rx ry rz Hx Hy Hz) as Hb.
  assert (Ha : 0 < rx * ry < 2 ^ 32) by nia.
  unfold getCellIndex, getCellRefFromIndex.
  rewrite (u32_small (z * rx * ry + y * rx + x)) by lia.
  split; [exact Hb|].
  rewrite (u32_small (rx * ry)) by lia.
  destruct (Z.eqb_spec (rx * ry) 0); [lia|].
  destruct (Z.eqb_spec rx 0); [lia|]. cbn [orb].
  assert (Ez : Z.quot (z * rx * ry + y * rx + x) (rx * ry) = z).
  { rewrite Z.quot_div_nonneg by lia. symmetry.
    apply (Z.div_unique _ _ z (y * rx + x)); nia. }
  rewrite Ez.
  replace (z * rx * ry + y * rx + x - rx * ry * z) with (y * rx + x) by ring.
  rewrite (u32_small (y * rx + x)) by nia.
  rewrite Z.rem_mod_nonneg, Z.quot_div_nonneg by nia.
  f_equal. f_equal.
  - symmetry. apply (Z.mod_unique _ _ y x); [lia|ring].
  - symmetry. apply (Z.div_unique _ _ y x); [lia|ring].
Qed.

(** X6. In a grid whose number of cells fits [CL_UINT], the linear index
    of the cell [(x, y, z)] is below the number of cells, and
    [getCellRefFromIndex] recovers [(x, y, z)] from it. *)
Theorem getCellRefFromIndex_getCellIndex x y z rx ry rz :
  0 <= x < rx -> 0 <= y < ry -> 0 <= z < rz -> rx * ry * rz < 2 ^ 32 ->
  0 <= getCellIndex x y z rx ry rz < rx * ry * rz /\
  getCellRefFromIndex (getCellIndex x y z rx ry rz) rx ry rz
  = Some (mkUint3 x y z).
Proof. exact (getCellIndex_decodes x y z rx ry rz). Qed.

Lemma getCellRefFromIndex_getCellIndex_witness :
  0 <= getCellIndex 1 2 3 4 5 6 < 4 * 5 * 6 /\
  getCellRefFromIndex (getCellIndex 1 2 3 4 5 6) 4 5 6 = Some (mkUint3 1 2 3).
Proof. apply (getCellRefFromIndex_getCellIndex 1 2 3 4 5 6); lia. Defined.

Lemma to_uint_range x : 0 <= to_uint x < 2 ^ 32.
Proof.
  unfold to_uint, u32. destruct x; try lia. apply Z.mod_pos_bound. lia.
Qed.

Lemma zmin_ge a b : 0 <= a -> 0 <= b -> 0 <= zmin a b.
Proof. unfold zmin. destruct (a <? b); lia. Qed.

Lemma elem_of_imap_stores {A} (f : nat -> A -> Store) (l : list A) (s : Store) :
  s ∈ imap f l -> exists k c, l !! k = Some c /\ s = f k c.
Proof.
  intros H. apply list_elem_of_lookup in H as (k & H).
  rewrite list_lookup_imap in H.
  destruct (l !! k) as [c|] eqn:E; [|discriminate H].
  injection H as <-. eauto.
Qed.

(** X7. Every pair that [writeOverlappingPairs] assigns carries the index
    of the triangle and the linear index of a cell of the grid: the index
    is below [resX * resY * resZ], and it decodes to a cell between the first
    and the last cell of the bounding box of the triangle. *)
Theorem overlappingPairStores_cells_in_grid v0 v1 v2 grid firstPairIdx triangleIdx
        stores i p :
  1 <= resX grid -> 1 <= resY grid -> 1 <= resZ grid ->
  resX grid * resY grid * resZ grid < 2 ^ 32 ->
  overlappingPairStores v0 v1 v2 grid firstPairIdx triangleIdx = Some stores ->
  (i, p) ∈ stores ->
  let span := cellSpan v0 v1 v2 grid in
  uy p = triangleIdx /\
  0 <= ux p < resX grid * resY grid * resZ grid /\
  exists c,
    getCellRefFromIndex (ux p) (resX grid) (resY grid) (resZ grid) = Some c /\
    cx span.1 <= cx c <= cx span.2 /\
    cy span.1 <= cy c <= cy span.2 /\
    cz span.1 <= cz c <= cz span.2.
Proof.
  intros HX HY HZ HR Hst Hin span.
  assert (HX' : resX grid < 2 ^ 32) by nia.
  assert (HY' : resY grid < 2 ^ 32) by nia.
  assert (HZ' : resZ grid < 2 ^ 32) by nia.
  rewrite overlappingPairStores_spec in Hst by lia. injection Hst as <-.
  apply elem_of_imap_stores in Hin as (k & [[x y] z] & Hk & E).
  injection E as -> ->.
  apply list_elem_of_lookup_2 in Hk. unfold spanCells in Hk. fold span in Hk.
  apply elem_of_cellsOf in Hk as (Hx & Hy & Hz).
  apply elem_of_seqZ in Hx, Hy, Hz.
  assert (Hspan : 0 <= cx span.1 /\ cx span.2 <= resX grid - 1 /\
                  0 <= cy span.1 /\ cy span.2 <= resY grid - 1 /\
                  0 <= cz span.1 /\ cz span.2 <= resZ grid - 1).
  { unfold span, cellSpan. cbn [fst snd umin3 convert_uint3 cx cy cz].
    repeat split;
      first [ apply zmin_ge; [apply to_uint_range|rewrite u32_small; lia]
            | etransitivity; [apply zmin_le_r|rewrite u32_small; lia] ]. }
  destruct Hspan as (H1 & H2 & H3 & H4 & H5 & H6).
  unfold pairOfCell. cbn [ux uy fst snd].
  destruct (getCellIndex_decodes x y z (resX grid) (resY grid)
              (resZ grid)) as [Hb Hd]; try lia.
  split; [reflexivity|]. split; [exact Hb|].
  exists (mkUint3 x y z). split; [exact Hd|]. cbn [cx cy cz]. lia.
Qed.

Lemma overlappingPairStores_cells_in_grid_witness :
  let v0 := mkFloat3 (neg half) (neg half) zero in
  let v1 := mkFloat3 half (neg half) zero in
  let v2 := mkFloat3 zero half zero in
  let span := cellSpan v0 v1 v2 cubeGrid in
  uy (mkUint2 6 0) = 0 /\
  0 <= ux (mkUint2 6 0) < resX cubeGrid * resY cubeGrid * resZ cubeGrid /\
  exists c,
    getCellRefFromIndex (ux (mkUint2 6 0)) (resX cubeGrid) (resY cubeGrid)
                        (resZ cubeGrid) = Some c /\
    cx span.1 <= cx c <= cx span.2 /\
    cy span.1 <= cy c <= cy span.2 /\
    cz span.1 <= cz c <= cz span.2.
Proof.
  apply (overlappingPairStores_cells_in_grid
           (mkFloat3 (neg half) (neg half) zero) (mkFloat3 half (neg half) zero)
           (mkFloat3 zero half zero) cubeGrid 0 0
           [(0, mkUint2 4 0); (1, mkUint2 5 0); (2, mkUint2 6 0); (3, mkUint2 7 0)]
           2 (mkUint2 6 0));
    [cbn; lia|cbn; lia|cbn; lia|cbn; lia|vm_compute; reflexivity|].
  do 2 apply list_elem_of_further. apply list_elem_of_here.
Defined.

(** ** Morton codes *)

Lemma digits2_pos_upper (m : positive) : Zpos m < 2 ^ Zpos (digits2_pos m).
Proof.
  induction m as [m IH|m IH|]; cbn [digits2_pos]; [| |cbn; lia];
    rewrite Pos2Z.inj_succ, Z.pow_succ_r by lia; lia.
Qed.

(** Aligning a mantissa leaves at most [prec] digits. *)
Lemma shr_fexp_bounded m e l :
  0 <= m -> 0 <= shr_m (shr_fexp prec emax m e l).1 < 2 ^ 24.
Proof.
  intros Hm. unfold shr_fexp, shr.
  assert (Hrec : shr_m (shr_record_of_loc m l) = m)
    by (destruct l as [|[]]; reflexivity).
  destruct m as [|m|m]; [| |lia].
  - cbn [Zdigits2].
    destruct (fexp prec emax (0 + e) - e) as [|n|n]; cbn [fst]; rewrite ?Hrec; try lia.
    rewrite iter_shr_1_mantissa by (rewrite Hrec; lia). rewrite Hrec.
    rewrite Z.div_0_l by lia. lia.
  - cbn [Zdigits2]. pose proof (digits2_pos_upper m) as Hd.
    destruct (fexp prec emax (Z.pos (digits2_pos m) + e) - e) as [|n|n] eqn:En;
      cbn [fst]; rewrite ?Hrec.
    + unfold fexp, SpecFloat.emin, prec, emax in En.
      assert (2 ^ Z.pos (digits2_pos m) <= 2 ^ 24) by (apply Z.pow_le_mono_r; lia).
      lia.
    + unfold fexp, SpecFloat.emin, prec, emax in En.
      rewrite iter_shr_1_mantissa by (rewrite Hrec; lia). rewrite Hrec.
      split; [apply Z.div_pos; lia|].
      apply Z.div_lt_upper_bound; [lia|].
      rewrite <- Z.pow_add_r by lia.
      assert (2 ^ Z.pos (digits2_pos m) <= 2 ^ (Z.pos n + 24))
        by (apply Z.pow_le_mono_r; lia).
      lia.
    + unfold fexp, SpecFloat.emin, prec, emax in En.
      assert (2 ^ Z.pos (digits2_pos m) <= 2 ^ 24) by (apply Z.pow_le_mono_r; lia).
      lia.
Qed.

(** A finite result of rounding has a mantissa of at most [prec] digits. *)
Lemma binary_round_aux_bounded sx mx ex lx s m e :
  0 <= mx ->
  binary_round_aux prec emax sx mx ex lx = S754_finite s m e -> Zpos m < 2 ^ 24.
Proof.
  intros Hmx. unfold binary_round_aux.
  pose proof (shr_fexp_bounded mx ex lx Hmx) as H1.
  destruct (shr_fexp prec emax mx ex lx) as [mrs' e']. cbn [fst] in H1.
  pose proof (round_nearest_even_ge (shr_m mrs') (loc_of_shr_record mrs')) as Hr.
  pose proof (shr_fexp_bounded
                (round_nearest_even (shr_m mrs') (loc_of_shr_record mrs'))
                e' loc_Exact ltac:(lia)) as H2.
  destruct (shr_fexp prec emax _ e' loc_Exact) as [mrs'' e'']. cbn [fst] in H2.
  destruct (shr_m mrs'') as [|m''|m'']; try discriminate.
  destruct (e'' <=? emax - prec); [|discriminate].
  intros [= _ <- _]. lia.
Qed.

Lemma mul_bounded x y s m e :
  mul x y = S754_finite s m e -> Zpos m < 2 ^ 24.
Proof.
  unfold mul, SFmul.
  destruct x as [sx|sx| |sx mx ex], y as [sy|sy| |sy my ey]; try discriminate.
  apply binary_round_aux_bounded. lia.
Qed.

(** The clamp of [morton3D] followed by the conversion to [CL_UINT]. *)
Lemma clamp_to_uint f :
  (forall s m e, f = S754_finite s m e -> Zpos m < 2 ^ 24) ->
  0 <= to_uint (min (max f zero) (of_Z 1023)) <= 1023.
Proof.
  intros Hf.
  assert (C0 : 0 <= to_uint (min zero (of_Z 1023)) <= 1023)
    by (vm_compute; split; discriminate).
  assert (C1 : 0 <= to_uint (of_Z 1023) <= 1023)
    by (vm_compute; split; discriminate).
  destruct f as [s|s| |s m e].
  - exact C0.
  - destruct s; [exact C0|exact C1].
  - exact C0.
  - destruct s; [exact C0|].
    specialize (Hf false m e eq_refl).
    change (max (S754_finite false m e) zero) with (S754_finite false m e).
    unfold min, ltb, SFltb.
    change (of_Z 1023) with (S754_finite false 16760832 (-14)). cbn [SFcompare].
    destruct (Z.compare_spec e (-14)) as [->|Hlt|Hgt].
    + rewrite Pos.compare_cont_spec.
      destruct (Pos.compare_spec m 16760832) as [E|Hl|Hg]; cbn [Pos.switch_Eq];
        [exact C1| |exact C1].
      clear C0 C1. apply Pos2Z.pos_lt_pos in Hl.
      cbn [to_uint]. change (0 <=? -14) with false. cbv iota.
      rewrite Z.shiftr_div_pow2 by lia. change (- -14) with 14.
      assert (0 <= Z.pos m / 2 ^ 14 < 1023) by zlia.
      rewrite u32_small by lia. lia.
    + clear C0 C1. cbn [to_uint]. destruct (Z.leb_spec 0 e); [lia|].
      rewrite Z.shiftr_div_pow2 by lia.
      assert (2 ^ 15 <= 2 ^ (- e)) by (apply Z.pow_le_mono_r; lia).
      assert (0 <= Z.pos m / 2 ^ (- e)) by (apply Z.div_pos; lia).
      assert (Z.pos m / 2 ^ (- e) < 512).
      { apply Z.div_lt_upper_bound; lia. }
      rewrite u32_small by lia. lia.
    + exact C1.
Qed.

Lemma mortonCell_range x : 0 <= mortonCell x < 1024.
Proof.
  unfold mortonCell.
  pose proof (clamp_to_uint (mul x (of_Z 1024)) (mul_bounded x (of_Z 1024))). lia.
Qed.

Lemma land_range a m k : 0 <= a -> 0 <= m < 2 ^ k -> 0 <= Z.land a m < 2 ^ k.
Proof.
  intros Ha Hm. assert (H0 : 0 <= Z.land a m) by (apply Z.land_nonneg; lia).
  split; [exact H0|].
  destruct (Z.eq_dec (Z.land a m) 0) as [->|Hne]; [lia|].
  assert (0 <= k).
  { destruct (Z_lt_le_dec k 0) as [Hk|]; [|assumption].
    rewrite Z.pow_neg_r in Hm by exact Hk. lia. }
  apply Z.log2_lt_pow2; [lia|].
  pose proof (Z.log2_land a m Ha ltac:(lia)) as Hl.
  assert (m <> 0) by (intros ->; rewrite Z.land_0_r in Hne; lia).
  assert (Z.log2 m < k) by (apply Z.log2_lt_pow2; lia). lia.
Qed.

Lemma expandBits_range v : 0 <= expandBits v < 2 ^ 31.
Proof.
  unfold expandBits. apply land_range; [|lia].
  unfold u32. apply Z.mod_pos_bound. lia.
Qed.

Lemma expandBits_checked :
  forallb (fun v =>
    forallb (fun n => Bool.eqb (Z.testbit (expandBits v) n) (expandBits_bit v n))
            (seqZ 0 32)) (seqZ 0 1024) = true.
Proof. vm_compute. reflexivity. Qed.

Lemma expandBits_testbit v n :
  0 <= v < 1024 -> Z.testbit (expandBits v) n = expandBits_bit v n.
Proof.
  intros Hv. destruct (Z_lt_le_dec n 0) as [Hneg|Hn].
  { rewrite Z.testbit_neg_r by lia. unfold expandBits_bit.
    rewrite (Z.testbit_neg_r v) by zlia. rewrite andb_false_r. reflexivity. }
  destruct (Z_lt_le_dec n 32) as [Hlt|Hge].
  - pose proof expandBits_checked as H.
    rewrite forallb_forall in H. specialize (H v).
    rewrite forallb_forall in H.
    apply Bool.eqb_prop, H; apply list_elem_of_In, elem_of_seqZ; lia.
  - pose proof (expandBits_range v) as Hr. unfold expandBits_bit.
    destruct (Z.ltb_spec n 30); [lia|]. rewrite andb_false_r. cbn [andb].
    destruct (Z.eq_dec (expandBits v) 0) as [->|Hne]; [apply Z.bits_0|].
    apply Z.bits_above_log2; [lia|].
    assert (Z.log2 (expandBits v) < 31) by (apply Z.log2_lt_pow2; lia). lia.
Qed.

Lemma expandBits_lt v : 0 <= v < 1024 -> 0 <= expandBits v < 2 ^ 28.
Proof.
  intros Hv. pose proof (expandBits_range v) as Hr. split; [lia|].
  destruct (Z.eq_dec (expandBits v) 0) as [->|Hne]; [lia|].
  apply Z.log2_lt_pow2; [lia|].
  destruct (Z_lt_le_dec (Z.log2 (expandBits v)) 28) as [|Hge]; [assumption|].
  exfalso.
  pose proof (Z.bit_log2 (expandBits v) ltac:(lia)) as Hb.
  rewrite expandBits_testbit in Hb by exact Hv. unfold expandBits_bit in Hb.
  assert (Z.log2 (expandBits v) < 31) by (apply Z.log2_lt_pow2; lia).
  apply andb_prop in Hb as [Hb _]. apply andb_prop in Hb as [Hm Hl].
  apply Z.eqb_eq in Hm. apply Z.ltb_lt in Hl.
  remember (Z.log2 (expandBits v)) as t. zlia.
Qed.

Lemma add_disjoint a b : Z.land a b = 0 -> a + b = Z.lor a b.
Proof.
  intros H. rewrite <- Z.lxor_lor by exact H. apply Z.add_nocarry_lxor. exact H.
Qed.

(** Bit [n] of a Morton code: bit [n / 3] of the coordinate [x], [y] or
    [z] as [n mod 3] is 2, 1 or 0. *)
Lemma morton3D_bits x y z n :
  Z.testbit (morton3D x y z) n
  = (n <? 30) &&
    Z.testbit (mortonCell (if n mod 3 =? 2 then x
                           else if n mod 3 =? 1 then y else z)) (n / 3).
Proof.
  destruct (Z_lt_le_dec n 0) as [Hneg|Hn].
  { rewrite Z.testbit_neg_r by lia. rewrite (Z.testbit_neg_r _ (n / 3)) by zlia.
    rewrite andb_false_r. reflexivity. }
  unfold morton3D.
  pose proof (mortonCell_range x) as Hx. pose proof (mortonCell_range y) as Hy.
  pose proof (mortonCell_range z) as Hz.
  pose proof (expandBits_lt _ Hx) as Hxx. pose proof (expandBits_lt _ Hy) as Hyy.
  pose proof (expandBits_lt _ Hz) as Hzz.
  pose proof (expandBits_testbit (mortonCell x)) as Bx.
  pose proof (expandBits_testbit (mortonCell y)) as By.
  pose proof (expandBits_testbit (mortonCell z)) as Bz.
  set (xx := expandBits (mortonCell x)) in *.
  set (yy := expandBits (mortonCell y)) in *.
  set (zz := expandBits (mortonCell z)) in *.
  rewrite (u32_small (xx * 4)), (u32_small (yy * 2)) by lia.
  rewrite (u32_small (xx * 4 + yy * 2)) by lia.
  rewrite u32_small by lia.
  change (xx * 4) with (xx * 2 ^ 2). change (yy * 2) with (yy * 2 ^ 1).
  rewrite <- !Z.shiftl_mul_pow2 by lia.
  assert (Tx : forall k, 0 <= k ->
    Z.testbit (Z.shiftl xx 2) k
    = (k mod 3 =? 2) && (k <? 32) && Z.testbit (mortonCell x) (k / 3)).
  { intros k Hk. rewrite Z.shiftl_spec by lia.
    destruct (Z_lt_le_dec k 2).
    - rewrite Z.testbit_neg_r by lia.
      destruct (Z.eqb_spec (k mod 3) 2); [exfalso; zlia|reflexivity].
    - rewrite Bx by lia. unfold expandBits_bit.
      destruct (Z.eqb_spec ((k - 2) mod 3) 0), (Z.eqb_spec (k mod 3) 2); try (exfalso; zlia);
        [|reflexivity].
      destruct (Z.ltb_spec (k - 2) 30), (Z.ltb_spec k 32); try (exfalso; lia);
        [|reflexivity].
      cbn [andb]. f_equal. zlia. }
  assert (Ty : forall k, 0 <= k ->
    Z.testbit (Z.shiftl yy 1) k
    = (k mod 3 =? 1) && (k <? 31) && Z.testbit (mortonCell y) (k / 3)).
  { intros k Hk. rewrite Z.shiftl_spec by lia.
    destruct (Z_lt_le_dec k 1).
    - rewrite Z.testbit_neg_r by lia.
      destruct (Z.eqb_spec (k mod 3) 1); [exfalso; zlia|reflexivity].
    - rewrite By by lia. unfold expandBits_bit.
      destruct (Z.eqb_spec ((k - 1) mod 3) 0), (Z.eqb_spec (k mod 3) 1); try (exfalso; zlia);
        [|reflexivity].
      destruct (Z.ltb_spec (k - 1) 30), (Z.ltb_spec k 31); try (exfalso; lia);
        [|reflexivity].
      cbn [andb]. f_equal. zlia. }
  assert (Dxy : Z.land (Z.shiftl xx 2) (Z.shiftl yy 1) = 0).
  { apply Z.bits_inj'. intros k Hk. rewrite Z.land_spec, Z.bits_0, Tx, Ty by lia.
    destruct (Z.eqb_spec (k mod 3) 2), (Z.eqb_spec (k mod 3) 1);
      try (exfalso; lia); cbn [andb]; rewrite ?andb_false_r; reflexivity. }
  rewrite (add_disjoint _ _ Dxy).
  assert (Dz : Z.land (Z.lor (Z.shiftl xx 2) (Z.shiftl yy 1)) zz = 0).
  { apply Z.bits_inj'. intros k Hk.
    rewrite Z.land_spec, Z.lor_spec, Z.bits_0, Tx, Ty, Bz by lia.
    unfold expandBits_bit.
    destruct (Z.eqb_spec (k mod 3) 2), (Z.eqb_spec (k mod 3) 1),
      (Z.eqb_spec (k mod 3) 0); try (exfalso; lia); cbn [andb orb];
      rewrite ?andb_false_r; reflexivity. }
  rewrite (add_disjoint _ _ Dz).
  rewrite !Z.lor_spec, Tx, Ty, Bz by lia. unfold expandBits_bit.
  assert (Hhi : forall c, 0 <= c < 1024 -> 30 <= n -> Z.testbit c (n / 3) = false).
  { intros c Hc Hge. destruct (Z.eq_dec c 0) as [->|]; [apply Z.bits_0|].
    apply Z.bits_above_log2; [lia|].
    assert (Z.log2 c < 10) by (apply Z.log2_lt_pow2; lia). zlia. }
  destruct (Z.ltb_spec n 30) as [Hlt|Hge].
  - destruct (Z.ltb_spec n 32); [|lia]. destruct (Z.ltb_spec n 31); [|lia].
    destruct (Z.eqb_spec (n mod 3) 2), (Z.eqb_spec (n mod 3) 1),
      (Z.eqb_spec (n mod 3) 0); try (exfalso; zlia); cbn [andb orb];
      rewrite ?orb_false_r; reflexivity.
  - rewrite (Hhi _ Hx), (Hhi _ Hy), (Hhi _ Hz) by lia.
    rewrite !andb_false_r. reflexivity.
Qed.

Lemma morton3D_range x y z : 0 <= morton3D x y z < 2 ^ 30.
Proof.
  assert (H0 : 0 <= morton3D x y z).
  { unfold morton3D, u32. apply Z.mod_pos_bound. lia. }
  split; [exact H0|].
  destruct (Z.eq_dec (morton3D x y z) 0) as [->|Hne]; [lia|].
  apply Z.log2_lt_pow2; [lia|].
  pose proof (Z.bit_log2 (morton3D x y z) ltac:(lia)) as Hb.
  rewrite morton3D_bits in Hb. apply andb_prop in Hb as [Hb _].
  apply Z.ltb_lt in Hb. exact Hb.
Qed.

(** X8. [morton3D] returns a 30-bit code for all arguments, NaN, infinite
    and out of the unit cube included: each coordinate is clamped to a
    10-bit cell, and bit [i] of the cells of [x], [y] and [z] is bit
    [3i + 2], [3i + 1] and [3i] of the code. *)
Theorem morton3D_interleaves x y z :
  0 <= morton3D x y z < 2 ^ 30 /\
  forall i, 0 <= i < 10 ->
    Z.testbit (morton3D x y z) (3 * i + 2) = Z.testbit (mortonCell x) i /\
    Z.testbit (morton3D x y z) (3 * i + 1) = Z.testbit (mortonCell y) i /\
    Z.testbit (morton3D x y z) (3 * i) = Z.testbit (mortonCell z) i.
Proof.
  split; [apply morton3D_range|]. intros i Hi. rewrite !morton3D_bits.
  replace ((3 * i + 2) mod 3) with 2 by zlia.
  replace ((3 * i + 1) mod 3) with 1 by zlia.
  replace ((3 * i) mod 3) with 0 by zlia.
  replace ((3 * i + 2) / 3) with i by zlia.
  replace ((3 * i + 1) / 3) with i by zlia.
  replace ((3 * i) / 3) with i by zlia.
  cbn [Z.eqb Pos.eqb].
  destruct (Z.ltb_spec (3 * i + 2) 30); [|lia].
  destruct (Z.ltb_spec (3 * i + 1) 30); [|lia].
  destruct (Z.ltb_spec (3 * i) 30); [|lia].
  auto.
Qed.

(** X9. For a triangle the scene resolves and an index inside both
    arrays, [calculateMorton] runs to completion and changes exactly the
    entry [leafIndex] of each array: the pair holds a code below [2^30]
    (so it sorts before the [UINT_MAX] padding) and [leafIndex]; the node
    is a leaf that names the model, the submesh and the triangle, and its
    parent field is whatever the uninitialised local held. *)
Theorem calculateMorton_writes_leaf result0 leavesBuffer mortonCodesToLeaves
        leafIndex scene triangleRef :
  getTriangleRefByIndex scene leafIndex = Some triangleRef ->
  is_Some (fetchTriangle scene leafIndex) ->
  0 <= leafIndex < Z.of_nat (length leavesBuffer) ->
  0 <= leafIndex < Z.of_nat (length mortonCodesToLeaves) ->
  exists leaf code,
    calculateMorton result0 leavesBuffer mortonCodesToLeaves leafIndex scene
    = Some (<[Z.to_nat leafIndex := leaf]> leavesBuffer,
            <[Z.to_nat leafIndex := mkUint2 code leafIndex]> mortonCodesToLeaves) /\
    0 <= code < 2 ^ 30 /\
    type leaf = LEAF_NODE /\
    modelIndex leaf = cx triangleRef /\ submeshIndex leaf = cy triangleRef /\
    triangleIndex leaf = cz triangleRef /\
    parent leaf = parent result0.
Proof.
  intros Href [vs Hf] Hl Hm. unfold fetchTriangle in Hf. rewrite Href in Hf.
  cbn [mbind option_bind] in Hf.
  unfold calculateMorton. rewrite Href. cbn [mbind option_bind].
  destruct (getModelAtIndex (cx triangleRef) scene) as [model|]; [|discriminate Hf].
  cbn [mbind option_bind] in *.
  destruct (getMeshAtIndex (cy triangleRef) model) as [mesh|]; [|discriminate Hf].
  cbn [mbind option_bind] in *. rewrite Hf.
  destruct vs as [[vertex1 vertex2] vertex3]. cbn [mbind option_bind].
  unfold wr.
  destruct (decide (0 <= leafIndex < Z.of_nat (length leavesBuffer))); [|contradiction].
  destruct (decide (0 <= leafIndex < Z.of_nat (length mortonCodesToLeaves)));
    [|contradiction].
  cbn [mbind option_bind].
  eexists _, _. split; [reflexivity|].
  split; [apply morton3D_range|]. repeat split.
Qed.

Lemma calculateMorton_writes_leaf_witness :
  exists leaf code,
    calculateMorton blankNode [blankNode] [mkUint2 UINT_MAX UINT_MAX] 0 oneTriangleScene
    = Some (<[Z.to_nat 0 := leaf]> [blankNode],
            <[Z.to_nat 0 := mkUint2 code 0]> [mkUint2 UINT_MAX UINT_MAX]) /\
    0 <= code < 2 ^ 30 /\
    type leaf = LEAF_NODE /\
    modelIndex leaf = 0 /\ submeshIndex leaf = 0 /\ triangleIndex leaf = 0 /\
    parent leaf = 0.
Proof.
  apply (calculateMorton_writes_leaf blankNode [blankNode] [mkUint2 UINT_MAX UINT_MAX]
           0 oneTriangleScene (mkUint3 0 0 0));
    [reflexivity|vm_compute; eexists; reflexivity|cbn; lia|cbn; lia].
Defined.

(** ** Scale translation *)

Lemma sub_zero_r x : sub x zero = x.
Proof. destruct x as [[]|[]| |s m e]; reflexivity. Qed.

(** X10. [normalizeScale] uses the old scale only through its length: the
    scale from [oldMin] to [oldMax] and the scale from 0 to
    [oldMax - oldMin] give the same result for every value.  The value is
    divided by the length and not shifted by [oldMin], so [oldMin] itself
    is mapped to [oldMin / (oldMax - oldMin)]. *)
Theorem normalizeScale_ignores_offset oldMin oldMax value :
  normalizeScale oldMin oldMax value
  = normalizeScale zero (sub oldMax oldMin) value.
Proof.
  unfold normalizeScale, translateScale. rewrite !sub_zero_r. reflexivity.
Qed.

(** ** Bounding boxes: unions and containment *)

Lemma leb_lexle a b :
  is_nan a = false -> is_nan b = false ->
  (leb a b = true <-> lexle (fkey a) (fkey b)).
Proof.
  unfold leb, SFleb, lexle.
  destruct a as [sa|sa| |sa ma ea], b as [sb|sb| |sb mb eb]; try discriminate;
    intros _ _; try destruct sa; try destruct sb; cbn [SFcompare fkey fst snd];
    try (split; [intros _; lia|reflexivity]);
    try (split; [discriminate|intros H; exfalso; lia]).
  - destruct (Z.compare_spec ea eb) as [->|H|H]; cbn.
    + change (Pos.compare_cont Eq ma mb) with (Pos.compare ma mb).
      destruct (Pos.compare_spec ma mb) as [->|H'|H']; cbn;
        (split; [intros H0; try discriminate H0; lia|intros H0; try reflexivity; lia]).
    + split; [discriminate|intros H0; exfalso; lia].
    + split; [intros _; lia|reflexivity].
  - destruct (Z.compare_spec ea eb) as [->|H|H]; cbn.
    + change (Pos.compare_cont Eq ma mb) with (Pos.compare ma mb).
      destruct (Pos.compare_spec ma mb) as [->|H'|H']; cbn;
        (split; [intros H0; try discriminate H0; lia|intros H0; try reflexivity; lia]).
    + split; [intros _; lia|reflexivity].
    + split; [discriminate|intros H0; exfalso; lia].
Qed.

Lemma ltb_lexle a b :
  is_nan a = false -> is_nan b = false ->
  (ltb a b = true <-> ~ lexle (fkey b) (fkey a)).
Proof.
  unfold ltb, SFltb, lexle.
  destruct a as [sa|sa| |sa ma ea], b as [sb|sb| |sb mb eb]; try discriminate;
    intros _ _; try destruct sa; try destruct sb; cbn [SFcompare fkey fst snd];
    try (split; [intros _; lia|reflexivity]);
    try (split; [discriminate|intros H; exfalso; lia]).
  - destruct (Z.compare_spec ea eb) as [->|H|H]; cbn.
    + change (Pos.compare_cont Eq ma mb) with (Pos.compare ma mb).
      destruct (Pos.compare_spec ma mb) as [->|H'|H']; cbn;
        (split; [intros H0; try discriminate H0; lia|intros H0; try reflexivity; lia]).
    + split; [discriminate|intros H0; exfalso; lia].
    + split; [intros _; lia|reflexivity].
  - destruct (Z.compare_spec ea eb) as [->|H|H]; cbn.
    + change (Pos.compare_cont Eq ma mb) with (Pos.compare ma mb).
      destruct (Pos.compare_spec ma mb) as [->|H'|H']; cbn;
        (split; [intros H0; try discriminate H0; lia|intros H0; try reflexivity; lia]).
    + split; [intros _; lia|reflexivity].
    + split; [discriminate|intros H0; exfalso; lia].
Qed.

Lemma leb_not_nan a b : leb a b = true -> is_nan a = false /\ is_nan b = false.
Proof.
  unfold leb, SFleb.
  destruct a as [sa|sa| |sa ma ea], b as [sb|sb| |sb mb eb];
    cbn [SFcompare is_nan]; try discriminate; auto.
Qed.

Lemma min_not_nan a b : is_nan a = false -> is_nan b = false -> is_nan (min a b) = false.
Proof. unfold min. destruct (ltb a b); auto. Qed.

Lemma max_not_nan a b : is_nan a = false -> is_nan b = false -> is_nan (max a b) = false.
Proof. unfold max. destruct (gtb a b); auto. Qed.

Lemma lexle_total a b : lexle a b \/ lexle b a.
Proof. unfold lexle. destruct a as [[a1 a2] a3], b as [[b1 b2] b3]. cbn. lia. Qed.

Lemma lexle_trans a b c : lexle a b -> lexle b c -> lexle a c.
Proof.
  unfold lexle. destruct a as [[a1 a2] a3], b as [[b1 b2] b3], c as [[c1 c2] c3].
  cbn. lia.
Qed.

Lemma lexle_refl a : lexle a a.
Proof. unfold lexle. lia. Qed.

Lemma ltb_false_lexle a b :
  is_nan a = false -> is_nan b = false ->
  ltb a b = false -> lexle (fkey b) (fkey a).
Proof.
  intros Ha Hb E.
  destruct (lexle_total (fkey b) (fkey a)) as [H|H]; [exact H|].
  assert (N : ltb a b <> true) by congruence.
  rewrite (ltb_lexle a b Ha Hb) in N.
  revert H N. unfold lexle.
  destruct (fkey a) as [[a1 a2] a3], (fkey b) as [[b1 b2] b3]. cbn. lia.
Qed.

Lemma leb_refl a : is_nan a = false -> leb a a = true.
Proof. intros Ha. apply leb_lexle; [assumption..|apply lexle_refl]. Qed.

Lemma leb_trans a b c : leb a b = true -> leb b c = true -> leb a c = true.
Proof.
  intros H1 H2.
  destruct (leb_not_nan _ _ H1) as [Ha Hb]. destruct (leb_not_nan _ _ H2) as [_ Hc].
  apply leb_lexle in H1, H2; try assumption.
  apply leb_lexle; try assumption. eapply lexle_trans; eassumption.
Qed.

Lemma min_le_l a b : is_nan a = false -> is_nan b = false -> leb (min a b) a = true.
Proof.
  intros Ha Hb. unfold min. destruct (ltb a b) eqn:E; [apply leb_refl; exact Ha|].
  apply leb_lexle; try assumption. apply ltb_false_lexle; assumption.
Qed.

Lemma min_le_r a b : is_nan a = false -> is_nan b = false -> leb (min a b) b = true.
Proof.
  intros Ha Hb. unfold min. destruct (ltb a b) eqn:E; [|apply leb_refl; exact Hb].
  apply leb_lexle; try assumption. apply ltb_lexle in E; try assumption.
  destruct (lexle_total (fkey a) (fkey b)); tauto.
Qed.

Lemma max_ge_l a b : is_nan a = false -> is_nan b = false -> leb a (max a b) = true.
Proof.
  intros Ha Hb. unfold max, gtb. change (SFltb b a) with (ltb b a). destruct (ltb b a) eqn:E; [apply leb_refl; exact Ha|].
  apply leb_lexle; try assumption. apply ltb_false_lexle; assumption.
Qed.

Lemma max_ge_r a b : is_nan a = false -> is_nan b = false -> leb b (max a b) = true.
Proof.
  intros Ha Hb. unfold max, gtb. change (SFltb b a) with (ltb b a). destruct (ltb b a) eqn:E; [|apply leb_refl; exact Hb].
  apply leb_lexle; try assumption. apply ltb_lexle in E; try assumption.
  destruct (lexle_total (fkey b) (fkey a)); tauto.
Qed.

(** One axis of a union of three intervals. *)
Lemma lane_contained la lb lc ha hb hc lo hi :
  is_nan la = false -> is_nan lb = false -> is_nan lc = false ->
  is_nan ha = false -> is_nan hb = false -> is_nan hc = false ->
  leb lo hi = true ->
  leb (min (min la lb) lc) lo = true -> leb hi (max (max ha hb) hc) = true ->
  containedInRange (min (min la lb) lc) (max (max ha hb) hc) lo
  && containedInRange (min (min la lb) lc) (max (max ha hb) hc) hi = true.
Proof.
  intros Hla Hlb Hlc Hha Hhb Hhc Hord Hlo Hhi. unfold containedInRange.
  rewrite Hlo, Hhi, (leb_trans _ _ _ Hlo Hord), (leb_trans _ _ _ Hord Hhi).
  reflexivity.
Qed.

Lemma numeric3_lanes v :
  numeric3 v = true ->
  is_nan (qx v) = false /\ is_nan (qy v) = false /\ is_nan (qz v) = false.
Proof.
  unfold numeric3. intros H. apply andb_prop in H as [H Hz].
  apply andb_prop in H as [Hx Hy].
  apply negb_true_iff in Hx, Hy, Hz. auto.
Qed.

Lemma min3_le a b c :
  is_nan a = false -> is_nan b = false -> is_nan c = false ->
  leb (min (min a b) c) a = true /\ leb (min (min a b) c) b = true /\
  leb (min (min a b) c) c = true.
Proof.
  intros Ha Hb Hc. pose proof (min_not_nan a b Ha Hb) as Hm.
  pose proof (min_le_l (min a b) c Hm Hc) as H1.
  split; [exact (leb_trans _ _ _ H1 (min_le_l a b Ha Hb))|].
  split; [exact (leb_trans _ _ _ H1 (min_le_r a b Ha Hb))|].
  apply min_le_r; assumption.
Qed.

Lemma max3_ge a b c :
  is_nan a = false -> is_nan b = false -> is_nan c = false ->
  leb a (max (max a b) c) = true /\ leb b (max (max a b) c) = true /\
  leb c (max (max a b) c) = true.
Proof.
  intros Ha Hb Hc. pose proof (max_not_nan a b Ha Hb) as Hm.
  pose proof (max_ge_l (max a b) c Hm Hc) as H1.
  split; [exact (leb_trans _ _ _ (max_ge_l a b Ha Hb) H1)|].
  split; [exact (leb_trans _ _ _ (max_ge_r a b Ha Hb) H1)|].
  apply max_ge_r; assumption.
Qed.

Lemma merge3_contains_lemma a b c :
  numericBox a = true -> numericBox b = true -> numericBox c = true ->
  (orderedBox a = true -> AABBContains (merge3 a b c) a = true) /\
  (orderedBox b = true -> AABBContains (merge3 a b c) b = true) /\
  (orderedBox c = true -> AABBContains (merge3 a b c) c = true).
Proof.
  unfold numericBox. intros Ha Hb Hc.
  apply andb_prop in Ha as [Ha0 Ha1]. apply andb_prop in Hb as [Hb0 Hb1].
  apply andb_prop in Hc as [Hc0 Hc1].
  apply numeric3_lanes in Ha0 as (Ax0 & Ay0 & Az0), Ha1 as (Ax1 & Ay1 & Az1).
  apply numeric3_lanes in Hb0 as (Bx0 & By0 & Bz0), Hb1 as (Bx1 & By1 & Bz1).
  apply numeric3_lanes in Hc0 as (Cx0 & Cy0 & Cz0), Hc1 as (Cx1 & Cy1 & Cz1).
  destruct (min3_le _ _ _ Ax0 Bx0 Cx0) as (? & ? & ?).
  destruct (min3_le _ _ _ Ay0 By0 Cy0) as (? & ? & ?).
  destruct (min3_le _ _ _ Az0 Bz0 Cz0) as (? & ? & ?).
  destruct (max3_ge _ _ _ Ax1 Bx1 Cx1) as (? & ? & ?).
  destruct (max3_ge _ _ _ Ay1 By1 Cy1) as (? & ? & ?).
  destruct (max3_ge _ _ _ Az1 Bz1 Cz1) as (? & ? & ?).
  unfold orderedBox, AABBContains, merge3. cbn [bounds0 bounds1 min4 max4 qx qy qz].
  repeat split; intros Ho; apply andb_prop in Ho as [Ho Hz];
    apply andb_prop in Ho as [Hx Hy];
    rewrite !lane_contained by assumption; reflexivity.
Qed.

Lemma orderedBox_numericBox b : orderedBox b = true -> numericBox b = true.
Proof.
  unfold orderedBox, numericBox, numeric3. intros H.
  apply andb_prop in H as [H Hz]. apply andb_prop in H as [Hx Hy].
  apply leb_not_nan in Hx as [-> ->], Hy as [-> ->], Hz as [-> ->]. reflexivity.
Qed.

(** X11. The union [merge3] of three boxes contains, in the sense of
    [AABBContains], each of its arguments whose minimum corner is below
    its maximum corner, in whichever position it is passed, provided no
    coordinate of the other two boxes is NaN. *)
Theorem merge3_contains a b c :
  numericBox b = true -> numericBox c = true -> orderedBox a = true ->
  AABBContains (merge3 a b c) a = true /\
  AABBContains (merge3 b a c) a = true /\
  AABBContains (merge3 b c a) a = true.
Proof.
  intros Hb Hc Ho. pose proof (orderedBox_numericBox a Ho) as Ha.
  split; [|split].
  - apply (merge3_contains_lemma a b c); assumption.
  - apply (merge3_contains_lemma b a c); assumption.
  - apply (merge3_contains_lemma b c a); assumption.
Qed.

Lemma merge3_contains_witness :
  let a := twoLeafBox 5 6 LEAF_NODE in
  let b := twoLeafBox 2 3 LEAF_NODE in
  AABBContains (merge3 a b emptyBox) a = true /\
  AABBContains (merge3 b a emptyBox) a = true /\
  AABBContains (merge3 b emptyBox a) a = true.
Proof.
  apply (merge3_contains (twoLeafBox 5 6 LEAF_NODE) (twoLeafBox 2 3 LEAF_NODE) emptyBox);
    reflexivity.
Defined.


(** X12. [mergeBoundingBox] on an inner node whose children can be read
    replaces the box of the node by one that contains the boxes of both
    children (the test of [testBoundingBoxCorrectness]); the node stays an
    inner node, although its type is the [w] lane of [bounds[0]] and goes
    through the same [MIN4], and parent and children are unchanged. *)
Theorem mergeBoundingBox_encloses_children nodes currentIdx current nodeA nodeB :
  rd nodes currentIdx = Some current ->
  rd nodes (childA current) = Some nodeA ->
  rd nodes (childB current) = Some nodeB ->
  numericBox (boundingBox current) = true ->
  orderedBox (boundingBox nodeA) = true ->
  orderedBox (boundingBox nodeB) = true ->
  type current = INNER_NODE ->
  type nodeA = LEAF_NODE \/ type nodeA = INNER_NODE ->
  type nodeB = LEAF_NODE \/ type nodeB = INNER_NODE ->
  exists current',
    mergeBoundingBox nodes currentIdx
    = Some (<[Z.to_nat currentIdx := current']> nodes) /\
    AABBContains (boundingBox current') (boundingBox nodeA) = true /\
    AABBContains (boundingBox current') (boundingBox nodeB) = true /\
    type current' = INNER_NODE /\
    parent current' = parent current /\
    childA current' = childA current /\ childB current' = childB current.
Proof.
  intros Hc HA HB Hnc HoA HoB Tc TA TB.
  unfold mergeBoundingBox. rewrite Hc. cbn [mbind option_bind]. rewrite HA, HB.
  cbn [mbind option_bind].
  destruct (upd_spec nodes currentIdx
              (set_boundingBox (merge3 (boundingBox nodeA) (boundingBox nodeB)
                                       (boundingBox current)))
              (rd_bound _ _ _ Hc)) as (x & Hx & ->).
  rewrite Hc in Hx. injection Hx as <-.
  eexists. split; [reflexivity|].
  destruct (merge3_contains_lemma (boundingBox nodeA) (boundingBox nodeB)
              (boundingBox current)) as (H1 & H2 & _);
    [apply orderedBox_numericBox; assumption..|assumption|].
  cbn [set_boundingBox boundingBox parent childA childB data0 data1 data2].
  split; [apply H1; assumption|]. split; [apply H2; assumption|].
  split; [|repeat split].
  unfold type in *. cbn [set_boundingBox boundingBox merge3 bounds0 min4 qw].
  rewrite Tc.
  destruct TA as [-> | ->], TB as [-> | ->]; reflexivity.
Qed.

Lemma mergeBoundingBox_encloses_children_witness :
  exists current',
    mergeBoundingBox twoLeafBVH 2 = Some (<[Z.to_nat 2 := current']> twoLeafBVH) /\
    AABBContains (boundingBox current') (twoLeafBox 5 6 LEAF_NODE) = true /\
    AABBContains (boundingBox current') (twoLeafBox 2 3 LEAF_NODE) = true /\
    type current' = INNER_NODE /\
    parent current' = UINT_MAX /\ childA current' = 0 /\ childB current' = 1.
Proof.
  apply (mergeBoundingBox_encloses_children twoLeafBVH 2
           (mkBVHNode UINT_MAX 0 1 0 (twoLeafBox 2 6 INNER_NODE))
           (mkBVHNode 2 0 0 0 (twoLeafBox 5 6 LEAF_NODE))
           (mkBVHNode 2 1 0 0 (twoLeafBox 2 3 LEAF_NODE)));
    first [reflexivity | left; reflexivity].
Defined.

(** X13. A point inside a box is inside the union [merge] of that box with
    any box without NaN coordinates, on whichever side it is passed. *)
Theorem isPointInside_merge a b point :
  numericBox b = true ->
  isPointInside a point = true ->
  isPointInside (merge a b) point = true /\ isPointInside (merge b a) point = true.
Proof.
  unfold numericBox. intros Hb Hin.
  apply andb_prop in Hb as [Hb0 Hb1].
  apply numeric3_lanes in Hb0 as (Bx0 & By0 & Bz0), Hb1 as (Bx1 & By1 & Bz1).
  unfold isPointInside, containedInRange in *.
  apply andb_prop in Hin as [Hin Hz]. apply andb_prop in Hin as [Hx Hy].
  apply andb_prop in Hx as [Hx0 Hx1], Hy as [Hy0 Hy1], Hz as [Hz0 Hz1].
  destruct (leb_not_nan _ _ Hx0) as [Ax0 _], (leb_not_nan _ _ Hx1) as [_ Ax1].
  destruct (leb_not_nan _ _ Hy0) as [Ay0 _], (leb_not_nan _ _ Hy1) as [_ Ay1].
  destruct (leb_not_nan _ _ Hz0) as [Az0 _], (leb_not_nan _ _ Hz1) as [_ Az1].
  unfold merge. cbn [bounds0 bounds1 min4 max4 qx qy qz].
  rewrite (leb_trans _ _ _ (min_le_l _ _ Ax0 Bx0) Hx0),
          (leb_trans _ _ _ (min_le_l _ _ Ay0 By0) Hy0),
          (leb_trans _ _ _ (min_le_l _ _ Az0 Bz0) Hz0),
          (leb_trans _ _ _ Hx1 (max_ge_l _ _ Ax1 Bx1)),
          (leb_trans _ _ _ Hy1 (max_ge_l _ _ Ay1 By1)),
          (leb_trans _ _ _ Hz1 (max_ge_l _ _ Az1 Bz1)),
          (leb_trans _ _ _ (min_le_r _ _ Bx0 Ax0) Hx0),
          (leb_trans _ _ _ (min_le_r _ _ By0 Ay0) Hy0),
          (leb_trans _ _ _ (min_le_r _ _ Bz0 Az0) Hz0),
          (leb_trans _ _ _ Hx1 (max_ge_r _ _ Bx1 Ax1)),
          (leb_trans _ _ _ Hy1 (max_ge_r _ _ By1 Ay1)),
          (leb_trans _ _ _ Hz1 (max_ge_r _ _ Bz1 Az1)).
  split; reflexivity.
Qed.

Lemma isPointInside_merge_witness :
  isPointInside (merge (twoLeafBox 2 3 LEAF_NODE) (twoLeafBox 5 6 LEAF_NODE))
                (mkFloat3 (of_Z 2) zero zero) = true /\
  isPointInside (merge (twoLeafBox 5 6 LEAF_NODE) (twoLeafBox 2 3 LEAF_NODE))
                (mkFloat3 (of_Z 2) zero zero) = true.
Proof.
  apply (isPointInside_merge (twoLeafBox 2 3 LEAF_NODE) (twoLeafBox 5 6 LEAF_NODE));
    reflexivity.
Defined.

Lemma overlap_lane la ha lb hb p :
  leb la p = true -> leb p ha = true -> leb lb p = true -> leb p hb = true ->
  ltb (min ha hb) (max la lb) = false.
Proof.
  intros H1 H2 H3 H4.
  assert (Hmin : leb p (min ha hb) = true) by (unfold min; destruct (ltb ha hb); assumption).
  assert (Hmax : leb (max la lb) p = true) by (unfold max; destruct (gtb la lb); assumption).
  pose proof (leb_trans _ _ _ Hmax Hmin) as Hle.
  destruct (leb_not_nan _ _ Hle) as [Na Nb].
  destruct (ltb (min ha hb) (max la lb)) eqn:E; [|reflexivity].
  apply ltb_lexle in E; try assumption. apply leb_lexle in Hle; try assumption.
  contradiction.
Qed.

(** X14. Two boxes that have a point in common, in the sense of
    [isPointInside], overlap in the sense of [AABBOverlaps]. *)
Theorem AABBOverlaps_common_point a b point :
  isPointInside a point = true -> isPointInside b point = true ->
  AABBOverlaps a b = true.
Proof.
  unfold isPointInside, containedInRange. intros Ha Hb.
  apply andb_prop in Ha as [Ha Haz]. apply andb_prop in Ha as [Hax Hay].
  apply andb_prop in Hb as [Hb Hbz]. apply andb_prop in Hb as [Hbx Hby].
  apply andb_prop in Hax as [? ?], Hay as [? ?], Haz as [? ?].
  apply andb_prop in Hbx as [? ?], Hby as [? ?], Hbz as [? ?].
  unfold AABBOverlaps.
  rewrite (overlap_lane _ _ _ _ (fx point)), (overlap_lane _ _ _ _ (fy point)),
          (overlap_lane _ _ _ _ (fz point)) by assumption.
  reflexivity.
Qed.

Lemma AABBOverlaps_common_point_witness :
  AABBOverlaps (twoLeafBox 2 6 INNER_NODE) (twoLeafBox 5 6 LEAF_NODE) = true.
Proof.
  apply (AABBOverlaps_common_point _ _ (mkFloat3 (of_Z 5) zero zero)); reflexivity.
Defined.

(** ** BVH traversal: the reported distance *)










(** ** Host drivers: failures of the backend *)

Lemma stopsAtFirstFailure_cons {L} (backend : L -> option Errata) l res err ls :
  backend l = None ->
  stopsAtFirstFailure backend res err ls ->
  stopsAtFirstFailure backend res err (l :: ls).
Proof.
  intros Hl. destruct res; cbn.
  - intros [-> H]. split; [reflexivity|]. constructor; assumption.
  - intros (ls' & l' & e & -> & H & Hb & ->). exists (l :: ls'), l', e.
    split; [reflexivity|]. split; [constructor; assumption|]. auto.
Qed.

Lemma stopsAtFirstFailure_app {L} (backend : L -> option Errata) l1 res err ls :
  Forall (fun l => backend l = None) l1 ->
  stopsAtFirstFailure backend res err ls ->
  stopsAtFirstFailure backend res err (l1 ++ ls).
Proof.
  induction 1 as [|l l1 Hl _ IH]; intros H; [exact H|].
  cbn [app]. apply stopsAtFirstFailure_cons; auto.
Qed.

Section SortFailures.

Import BitonicSort.

Variable backend : Launch -> option Errata.
Variable maxWG : Z.

Lemma incLoop_stops N length fuel : forall inc res err ls,
  incLoop backend maxWG fuel N length inc = Some (res, err, ls) ->
  stopsAtFirstFailure backend res err ls.
Proof.
  induction fuel as [|fuel IH]; intros inc res err ls; cbn [incLoop]; [discriminate|].
  destruct (inc >? 0); [|intros [= <- <- <-]; cbn; auto].
  destruct (launchOf maxWG N length inc) as [launch ninc].
  destruct (backend launch) as [e|] eqn:Hb.
  - intros [= <- <- <-]. exists [], launch, e. cbn. auto.
  - destruct (incLoop backend maxWG fuel N length (Z.shiftr inc ninc))
      as [[[res' err'] rest]|] eqn:E; cbn; [|discriminate].
    intros [= <- <- <-]. apply stopsAtFirstFailure_cons; [exact Hb|].
    eapply IH; eauto.
Qed.

Lemma lengthLoop_stops N fuel : forall length res err ls,
  lengthLoop backend maxWG fuel N length = Some (res, err, ls) ->
  stopsAtFirstFailure backend res err ls.
Proof.
  induction fuel as [|fuel IH]; intros length res err ls; cbn [lengthLoop];
    [discriminate|].
  destruct (u64 length <? N); [|intros [= <- <- <-]; cbn; auto].
  destruct (incLoop backend maxWG 32 N length length) as [[[r1 e1] l1]|] eqn:E1;
    cbn; [|discriminate].
  pose proof (incLoop_stops _ _ _ _ _ _ _ E1) as H1.
  destruct r1.
  - destruct (lengthLoop backend maxWG fuel N (i32 (Z.shiftl length 1)))
      as [[[r2 e2] l2]|] eqn:E2; cbn; [|discriminate].
    intros [= <- <- <-]. destruct H1 as [_ H1].
    apply stopsAtFirstFailure_app; [exact H1|]. eapply IH; eauto.
  - intros [= <- <- <-]. exact H1.
Qed.

(** X16. For every array size up to [2^30], [BitonicSort::sort] returns
    [Success] exactly when every launch it issued succeeded; otherwise it
    returns [Error] with the [Errata] of the launch that failed, and that
    launch is the last one issued. *)
Theorem sort_stops_at_first_failure N :
  0 <= N <= 2 ^ 30 -> 0 <= maxWG < 2 ^ 31 ->
  exists res err ls,
    sort backend maxWG N = Some (res, err, ls) /\
    stopsAtFirstFailure backend res err ls.
Proof.
  intros HN HW. unfold sort.
  destruct (lengthLoop_total backend maxWG N 63 0) as [[[res err] ls] E];
    [lia|lia|lia|cbn; lia|].
  change (2 ^ 0) with 1 in E.
  exists res, err, ls. split; [exact E|]. exact (lengthLoop_stops _ _ _ _ _ _ E).
Qed.

End SortFailures.

Lemma sort_stops_at_first_failure_witness :
  exists res err ls,
    BitonicSort.sort
      (fun l => if BitonicSort.arg_inc l =? 2 then Some (mkErrata "enqueue") else None)
      256 8 = Some (res, err, ls) /\
    stopsAtFirstFailure
      (fun l => if BitonicSort.arg_inc l =? 2 then Some (mkErrata "enqueue") else None)
      res err ls.
Proof.
  apply (sort_stops_at_first_failure
           (fun l => if BitonicSort.arg_inc l =? 2 then Some (mkErrata "enqueue")
                     else None) 256 8); lia.
Defined.

Section PrefixSumFailures.

Import PrefixSum.

Variable backend : Launch -> option Errata.
Variable maxWG localMem : Z.

Hypothesis HmaxWG : 1 <= maxWG <= 2 ^ 30.

Lemma localDataSize_value : u64 (Z.shiftl maxWG 1) = 2 * maxWG.
Proof.
  rewrite Z.shiftl_mul_pow2 by lia. change (2 ^ 1) with 2.
  unfold u64. rewrite Z.mod_small by lia. lia.
Qed.

Lemma roundUp_Some g : exists r, roundUp g maxWG = Some r.
Proof.
  unfold roundUp. destruct (Z.eqb_spec maxWG 0); [lia|]. eauto.
Qed.

Lemma invokeGroupKernel_Some offset length :
  offset <> 0 ->
  exists l, invokeGroupKernel backend maxWG offset length = Some (backend l, l).
Proof.
  intros Ho. unfold invokeGroupKernel.
  destruct (Z.eqb_spec offset 0); [contradiction|].
  destruct (roundUp_Some (Z.shiftr (u64 (Z.quot length offset + 1)) 1)) as [r ->].
  cbn [mbind option_bind]. eauto.
Qed.

Lemma invokeGlobalKernel_Some offset length :
  1 <= offset < 2 ^ 32 ->
  exists l, invokeGlobalKernel backend maxWG offset length = Some (backend l, l).
Proof.
  intros Ho. unfold invokeGlobalKernel. rewrite localDataSize_value.
  assert (Hm : 2 <= offset * (2 * maxWG) < 2 ^ 64) by nia.
  unfold u64 at 1. rewrite (Z.mod_small (offset * (2 * maxWG))) by lia.
  destruct (Z.eqb_spec (offset * (2 * maxWG)) 0); [lia|].
  match goal with |- context [roundUp ?g maxWG] => destruct (roundUp_Some g) as [r ->] end.
  cbn [mbind option_bind]. eauto.
Qed.

Lemma scanLoop_total size fuel : forall offset,
  0 <= size < 2 ^ 32 -> 1 <= offset -> size <= offset * 2 ^ Z.of_nat fuel ->
  exists res err ls,
    scanLoop backend maxWG (S fuel) size (2 * maxWG) offset = Some (res, err, ls) /\
    stopsAtFirstFailure backend res err ls.
Proof.
  induction fuel as [|fuel IH]; intros offset Hs Ho Hf.
  - cbn [scanLoop]. change (2 ^ Z.of_nat 0) with 1 in Hf.
    destruct (Z.ltb_spec offset size); [lia|].
    exists Success, None, []. cbn. auto.
  - remember (S fuel) as f eqn:Ef. cbn [scanLoop].
    destruct (Z.ltb_spec offset size) as [Hlt|]; [|exists Success, None, []; cbn; auto].
    destruct (Z.eqb_spec offset 0); [lia|].
    rewrite (u32_small offset), (u32_small size) by lia.
    assert (Hnext : exists res err ls,
      scanLoop backend maxWG f size (2 * maxWG) (u64 (offset * (2 * maxWG)))
      = Some (res, err, ls) /\ stopsAtFirstFailure backend res err ls).
    { subst f. unfold u64. rewrite Z.mod_small by nia. apply IH; [lia|nia|].
      rewrite Nat2Z.inj_succ, Z.pow_succ_r in Hf by lia.
      assert (0 < 2 ^ Z.of_nat fuel) by lia. nia. }
    destruct Hnext as (res & err & rest & Hn & Hstop).
    destruct (invokeGroupKernel_Some offset size ltac:(lia)) as (l1 & E1).
    destruct (invokeGlobalKernel_Some offset size ltac:(lia)) as (l2 & E2).
    rewrite E1, E2, Hn. cbn [mbind option_bind].
    destruct (Z.quot size offset >? 1), (offset >? 1); cbn [mbind option_bind].
    + destruct (backend l1) as [e|] eqn:B1.
      { exists Error, (Some e), [l1]. split; [reflexivity|].
        exists [], l1, e. cbn. auto. }
      destruct (backend l2) as [e|] eqn:B2.
      { exists Error, (Some e), ([l1] ++ [l2]). split; [reflexivity|].
        exists [l1], l2, e. cbn. auto. }
      exists res, err, ([l1] ++ [l2] ++ rest). split; [reflexivity|].
      cbn [app]. repeat apply stopsAtFirstFailure_cons; assumption.
    + destruct (backend l1) as [e|] eqn:B1.
      { exists Error, (Some e), [l1]. split; [reflexivity|].
        exists [], l1, e. cbn. auto. }
      exists res, err, ([l1] ++ [] ++ rest). split; [reflexivity|].
      cbn [app]. apply stopsAtFirstFailure_cons; assumption.
    + destruct (backend l2) as [e|] eqn:B2.
      { exists Error, (Some e), ([] ++ [l2]). split; [reflexivity|].
        exists [], l2, e. cbn. auto. }
      exists res, err, ([] ++ [l2] ++ rest). split; [reflexivity|].
      cbn [app]. apply stopsAtFirstFailure_cons; assumption.
    + exists res, err, ([] ++ [] ++ rest). split; [reflexivity|]. exact Hstop.
Qed.

(** X17. For a power-of-two size below [2^32], a workgroup size between 1
    and [2^30] and enough local memory, [computePrefixSum] returns: with
    [Success] when every launch succeeded, otherwise with [Error] and the
    [Errata] of the failed launch, which is the last one issued. *)
Theorem computePrefixSum_stops_at_first_failure fuel size :
  isPowerOfTwo size = true -> 0 <= size < 2 ^ 32 ->
  8 * maxWG <= localMem ->
  (33 <= fuel)%nat ->
  exists res err ls,
    computePrefixSum backend maxWG localMem fuel size = Some (res, err, ls) /\
    stopsAtFirstFailure backend res err ls.
Proof.
  intros Hp Hs Hm Hfuel. unfold computePrefixSum. rewrite Hp. cbn [negb].
  rewrite localDataSize_value. unfold sizeof_CL_INT.
  unfold u64. rewrite Z.mod_small by lia.
  destruct (Z.gtb_spec (2 * maxWG * 4) localMem); [lia|].
  destruct fuel as [|fuel]; [lia|].
  apply scanLoop_total; [lia|lia|].
  assert (2 ^ 32 <= 2 ^ Z.of_nat fuel) by (apply Z.pow_le_mono_r; lia). lia.
Qed.


End PrefixSumFailures.

Lemma computePrefixSum_stops_at_first_failure_witness :
  exists res err ls,
    PrefixSum.computePrefixSum
      (fun l => match PrefixSum.kernel l with
                | PrefixSum.global_prefixSum => Some (mkErrata "enqueue")
                | _ => None end) 4 32 40 64 = Some (res, err, ls) /\
    stopsAtFirstFailure
      (fun l => match PrefixSum.kernel l with
                | PrefixSum.global_prefixSum => Some (mkErrata "enqueue")
                | _ => None end) res err ls.
Proof.
  apply (computePrefixSum_stops_at_first_failure
           (fun l => match PrefixSum.kernel l with
                     | PrefixSum.global_prefixSum => Some (mkErrata "enqueue")
                     | _ => None end) 4 32 ltac:(lia) 40 64);
    [reflexivity|lia|lia|lia].
Defined.


(** ** Bitonic sort: the sizes of the launches *)

Lemma min_pow2 a b : 0 <= a -> 0 <= b -> Z.min (2 ^ a) (2 ^ b) = 2 ^ Z.min a b.
Proof.
  intros Ha Hb. destruct (Z.le_ge_cases a b) as [H|H].
  - rewrite (Z.min_l a b) by lia. apply Z.min_l. apply Z.pow_le_mono_r; lia.
  - rewrite (Z.min_r a b) by lia. apply Z.min_r. apply Z.pow_le_mono_r; lia.
Qed.

Lemma pow2_divide a b : 0 <= a <= b -> (2 ^ a | 2 ^ b).
Proof.
  intros H. exists (2 ^ (b - a)). rewrite <- Z.pow_add_r by lia. f_equal. lia.
Qed.

Section SortSizes.

Import BitonicSort.

Variable backend : Launch -> option Errata.
Variable maxWG : Z.

Lemma incLoop_inc_bound N length fuel : forall inc res err ls,
  incLoop backend maxWG fuel N length inc = Some (res, err, ls) ->
  Forall (fun l => 1 <= arg_inc l <= inc) ls.
Proof.
  induction fuel as [|fuel IH]; intros inc res err ls; cbn [incLoop]; [discriminate|].
  destruct (Z.gtb_spec inc 0) as [Hpos|]; [|intros [= <- <- <-]; constructor].
  unfold launchOf. destruct (selectKernel inc) as [kid ninc] eqn:Ek.
  assert (Hn : 0 <= ninc).
  { unfold selectKernel in Ek. repeat case_match; injection Ek as <- <-; lia. }
  destruct (backend _).
  - intros [= <- <- <-]. constructor; [cbn; lia|constructor].
  - destruct (incLoop backend maxWG fuel N length (Z.shiftr inc ninc))
      as [[[res' err'] rest]|] eqn:E; cbn; [|discriminate].
    intros [= <- <- <-]. constructor; [cbn; lia|].
    apply IH in E. eapply Forall_impl; [exact E|]. cbn. intros l Hl.
    pose proof (shiftr_bound inc ninc ltac:(lia) Hn). lia.
Qed.

Lemma lengthLoop_inc_bound N fuel : forall k res err ls,
  0 <= N <= 2 ^ 30 -> 0 <= k <= 30 ->
  lengthLoop backend maxWG fuel N (2 ^ k) = Some (res, err, ls) ->
  Forall (fun l => 1 <= arg_inc l < N) ls.
Proof.
  induction fuel as [|fuel IH]; intros k res err ls HN Hk; cbn [lengthLoop];
    [discriminate|].
  assert (Hp : 0 < 2 ^ k <= 2 ^ 30) by (split; [lia|apply Z.pow_le_mono_r; lia]).
  unfold u64. rewrite Z.mod_small by lia.
  destruct (Z.ltb_spec (2 ^ k) N) as [Hlt|]; [|intros [= <- <- <-]; constructor].
  assert (Hk30 : k < 30).
  { destruct (Z.lt_ge_cases k 30) as [|Hge]; [assumption|].
    assert (k = 30) by lia. subst k. lia. }
  destruct (incLoop backend maxWG 32 N (2 ^ k) (2 ^ k)) as [[[r1 e1] l1]|] eqn:E1;
    cbn; [|discriminate].
  pose proof (incLoop_inc_bound _ _ _ _ _ _ _ E1) as H1.
  assert (H1' : Forall (fun l => 1 <= arg_inc l < N) l1).
  { eapply Forall_impl; [exact H1|]. cbn. intros l Hb. lia. }
  destruct r1; [|intros [= <- <- <-]; exact H1'].
  rewrite Z.shiftl_mul_pow2, Z.mul_comm, <- Z.pow_succ_r by lia.
  assert (2 ^ Z.succ k <= 2 ^ 30) by (apply Z.pow_le_mono_r; lia).
  rewrite i32_small by lia.
  destruct (lengthLoop backend maxWG fuel N (2 ^ Z.succ k))
    as [[[r2 e2] l2]|] eqn:E2; cbn; [|discriminate].
  intros [= <- <- <-]. apply Forall_app. split; [exact H1'|].
  eapply (IH (Z.succ k)); [exact HN|lia|exact E2].
Qed.

(** X19. For an array of [2^n] items ([1 <= n <= 30]) on a device whose
    maximal workgroup size is a power of two or at least 256, every launch
    of [BitonicSort::sort] has an increment between 1 and the array size,
    at least one thread, and a workgroup size between 1 and 256 that does
    not exceed the device maximum and divides the number of threads. *)
Theorem sort_launch_sizes n :
  1 <= n <= 30 ->
  256 <= maxWG < 2 ^ 31 \/ (exists w, 0 <= w <= 30 /\ maxWG = 2 ^ w) ->
  exists res err ls,
    sort backend maxWG (2 ^ n) = Some (res, err, ls) /\
    Forall (fun l =>
              1 <= arg_inc l < 2 ^ n /\
              1 <= nThreads l /\
              1 <= wg l <= 256 /\ wg l <= maxWG /\
              (wg l | nThreads l)) ls.
Proof.
  intros Hn HW.
  assert (HN : 0 <= 2 ^ n <= 2 ^ 30) by (split; [lia|apply Z.pow_le_mono_r; lia]).
  assert (HW' : 1 <= maxWG < 2 ^ 31).
  { destruct HW as [|(w & Hw & ->)]; [lia|].
    assert (2 ^ w <= 2 ^ 30) by (apply Z.pow_le_mono_r; lia). lia. }
  unfold sort.
  destruct (lengthLoop_total backend maxWG (2 ^ n) 63 0) as [[[res err] ls] E];
    [lia|lia|lia|cbn; lia|].
  change (2 ^ 0) with 1 in E.
  exists res, err, ls. split; [exact E|].
  pose proof (lengthLoop_shape backend maxWG (2 ^ n) _ 1 _ _ _ ltac:(lia) ltac:(lia) E)
    as Hshape.
  pose proof (lengthLoop_inc_bound (2 ^ n) _ 0 _ _ _ HN ltac:(lia) E) as Hinc.
  apply Forall_forall. intros l Hl.
  apply (proj1 (Forall_forall _ _) Hshape) in Hl as Hs.
  apply (proj1 (Forall_forall _ _) Hinc) in Hl as Hi. cbn beta in Hi.
  destruct Hs as (_ & HnT & Hwg). cbn zeta in HnT, Hwg.
  set (ninc := if 4 <=? arg_inc l then 3 else if 2 <=? arg_inc l then 2 else 1) in *.
  assert (Hninc : 1 <= ninc <= n).
  { unfold ninc. destruct (Z.leb_spec 4 (arg_inc l)).
    - split; [lia|]. destruct (Z_lt_le_dec n 3); [|lia].
      assert (2 ^ n <= 2 ^ 2) by (apply Z.pow_le_mono_r; lia). lia.
    - destruct (Z.leb_spec 2 (arg_inc l)).
      + split; [lia|]. destruct (Z_lt_le_dec n 2); [|lia].
        assert (2 ^ n <= 2 ^ 1) by (apply Z.pow_le_mono_r; lia). lia.
      + lia. }
  assert (Hsh : Z.shiftr (2 ^ n) ninc = 2 ^ (n - ninc)).
  { rewrite Z.shiftr_div_pow2 by lia. rewrite <- Z.pow_sub_r by lia. reflexivity. }
  rewrite Hsh in HnT, Hwg. rewrite HnT, Hwg.
  assert (Ht : 1 <= 2 ^ (n - ninc)) by lia.
  assert (Hm : exists a, 0 <= a <= 8 /\ Z.min 256 maxWG = 2 ^ a /\ 2 ^ a <= maxWG).
  { destruct HW as [H256|(w & Hw & ->)].
    - exists 8. rewrite Z.min_l by lia. split; [lia|]. split; [reflexivity|lia].
    - exists (Z.min 8 w). change 256 with (2 ^ 8). rewrite min_pow2 by lia.
      split; [lia|]. split; [reflexivity|]. apply Z.pow_le_mono_r; lia. }
  destruct Hm as (a & Ha & -> & Hale).
  rewrite min_pow2 by lia.
  assert (2 ^ Z.min a (n - ninc) <= 2 ^ a) by (apply Z.pow_le_mono_r; lia).
  assert (2 ^ a <= 2 ^ 8) by (apply Z.pow_le_mono_r; lia).
  split; [exact Hi|]. split; [exact Ht|]. split; [lia|]. split; [lia|].
  apply pow2_divide. lia.
Qed.

End SortSizes.

Lemma sort_launch_sizes_witness :
  exists res err ls,
    BitonicSort.sort (fun _ => None) 64 (2 ^ 4) = Some (res, err, ls) /\
    Forall (fun l =>
              1 <= BitonicSort.arg_inc l < 2 ^ 4 /\
              1 <= BitonicSort.nThreads l /\
              1 <= BitonicSort.wg l <= 256 /\ BitonicSort.wg l <= 64 /\
              (BitonicSort.wg l | BitonicSort.nThreads l)) ls.
Proof.
  apply (sort_launch_sizes (fun _ => None) 64 4); [lia|].
  right. exists 6. split; [lia|reflexivity].
Defined.

(** ** Prefix sum: the sizes of the launches *)

Section PrefixSumSizes.

Import PrefixSum.

Variable backend : Launch -> option Errata.
Variable maxWG localMem : Z.

Hypothesis HmaxWG : 1 <= maxWG <= 2 ^ 30.

(** The launches whose local size is the maximal workgroup size and
    whose global size is a multiple of it. *)
Lemma roundUp_multiple g r :
  0 <= g < 2 ^ 33 -> roundUp g maxWG = Some r -> (maxWG | r) /\ g <= r.
Proof.
  intros Hg. unfold roundUp. destruct (Z.eqb_spec maxWG 0); [lia|].
  intros [= <-]. unfold u64.
  rewrite (Z.mod_small (g + maxWG - 1)) by lia.
  rewrite Z.quot_div_nonneg by lia.
  pose proof (Z.div_mod (g + maxWG - 1) maxWG ltac:(lia)) as Hdm.
  pose proof (Z.mod_pos_bound (g + maxWG - 1) maxWG ltac:(lia)) as Hb.
  assert (0 <= (g + maxWG - 1) / maxWG) by (apply Z.div_pos; lia).
  remember ((g + maxWG - 1) / maxWG) as q. remember ((g + maxWG - 1) mod maxWG) as md.
  assert (q * maxWG <= g + maxWG - 1) by lia.
  rewrite Z.mod_small by nia.
  split; [exists q; reflexivity|lia].
Qed.

Lemma invokeGroupKernel_sizes offset length e l :
  0 <= length < 2 ^ 32 -> 1 <= offset ->
  invokeGroupKernel backend maxWG offset length = Some (e, l) ->
  kernel l = group_prefixSum /\ arg_offset l = offset /\
  localThreads l = maxWG /\ (maxWG | globalThreads l).
Proof.
  intros Hl Ho. unfold invokeGroupKernel. destruct (Z.eqb_spec offset 0); [lia|].
  destruct (roundUp _ maxWG) as [r|] eqn:Er; [|discriminate].
  cbn [mbind option_bind]. intros [= _ <-]. cbn.
  apply roundUp_multiple in Er as [Hd _]; [auto|].
  rewrite Z.quot_div_nonneg by lia.
  assert (0 <= length / offset <= length).
  { split; [apply Z.div_pos; lia|]. apply Z.div_le_upper_bound; nia. }
  unfold u64. rewrite Z.mod_small by lia.
  rewrite Z.shiftr_div_pow2 by lia. change (2 ^ 1) with 2.
  remember (length / offset) as q. zlia.
Qed.

Lemma invokeGlobalKernel_sizes offset length e l :
  1 <= offset < 2 ^ 32 ->
  invokeGlobalKernel backend maxWG offset length = Some (e, l) ->
  kernel l = global_prefixSum /\ arg_offset l = offset /\
  localThreads l = maxWG /\ (maxWG | globalThreads l).
Proof.
  intros Ho. unfold invokeGlobalKernel.
  destruct (_ =? 0); [discriminate|].
  destruct (roundUp _ maxWG) as [r|] eqn:Er; [|discriminate].
  cbn [mbind option_bind]. intros [= _ <-]. cbn.
  apply roundUp_multiple in Er as [Hd _]; [auto|].
  pose proof (Z.mod_pos_bound
                (u32 (length - offset)
                 - Z.quot (u32 (length - offset))
                          (u64 (offset * u64 (Z.shiftl maxWG 1))) * offset)
                (2 ^ 64) ltac:(lia)) as Hb.
  fold (u64 (u32 (length - offset)
             - Z.quot (u32 (length - offset))
                      (u64 (offset * u64 (Z.shiftl maxWG 1))) * offset)) in Hb.
  split; [lia|].
  assert (Hm : u64 (Z.shiftl maxWG 1) = 2 * maxWG).
  { rewrite Z.shiftl_mul_pow2 by lia. change (2 ^ 1) with 2.
    unfold u64. rewrite Z.mod_small by lia. lia. }
  rewrite Hm. assert (2 <= offset * (2 * maxWG) < 2 ^ 64) by nia.
  unfold u64 at 2. rewrite (Z.mod_small (offset * (2 * maxWG))) by lia.
  pose proof (Z.mod_pos_bound (length - offset) (2 ^ 32) ltac:(lia)) as Hg.
  fold (u32 (length - offset)) in Hg.
  remember (u32 (length - offset)) as g.
  rewrite Z.quot_div_nonneg by lia.
  assert (Hq : 0 <= g / (offset * (2 * maxWG)) * offset <= g).
  { assert (0 <= g / (offset * (2 * maxWG))) by (apply Z.div_pos; lia).
    pose proof (Z.mul_div_le g (offset * (2 * maxWG)) ltac:(lia)).
    remember (g / (offset * (2 * maxWG))) as q. nia. }
  unfold u64. rewrite Z.mod_small by lia. lia.
Qed.

Lemma scanLoop_sizes size fuel : forall offset res err ls,
  0 <= size < 2 ^ 32 -> 1 <= offset ->
  scanLoop backend maxWG fuel size (2 * maxWG) offset = Some (res, err, ls) ->
  Forall (fun l => localThreads l = maxWG /\ (maxWG | globalThreads l) /\
                   1 <= arg_offset l < size /\
                   (kernel l = global_prefixSum -> 1 < arg_offset l)) ls.
Proof.
  induction fuel as [|fuel IH]; intros offset res err ls Hs Ho; cbn [scanLoop];
    [discriminate|].
  destruct (Z.ltb_spec offset size) as [Hlt|]; [|intros [= <- <- <-]; constructor].
  destruct (Z.eqb_spec offset 0); [lia|].
  rewrite (u32_small offset), (u32_small size) by lia.
  assert (H1 : forall e l, invokeGroupKernel backend maxWG offset size = Some (e, l) ->
    localThreads l = maxWG /\ (maxWG | globalThreads l) /\
    1 <= arg_offset l < size /\ (kernel l = global_prefixSum -> 1 < arg_offset l)).
  { intros e l E. apply invokeGroupKernel_sizes in E as (Hk & Ha & Hl & Hd); [|lia|lia].
    rewrite Ha, Hk. repeat split; try assumption; try lia. discriminate. }
  assert (H2 : forall e l, 1 < offset ->
    invokeGlobalKernel backend maxWG offset size = Some (e, l) ->
    localThreads l = maxWG /\ (maxWG | globalThreads l) /\
    1 <= arg_offset l < size /\ (kernel l = global_prefixSum -> 1 < arg_offset l)).
  { intros e l Hgt E. apply invokeGlobalKernel_sizes in E as (Hk & Ha & Hl & Hd); [|lia].
    rewrite Ha. repeat split; try assumption; lia. }
  destruct (Z.quot size offset >? 1).
  - destruct (invokeGroupKernel backend maxWG offset size) as [[e1 l1]|] eqn:E1;
      cbn [mbind option_bind]; [|discriminate].
    specialize (H1 _ _ eq_refl).
    destruct e1 as [e|]; [intros [= <- <- <-]; constructor; [exact H1|constructor]|].
    destruct (Z.gtb_spec offset 1) as [Hgt|].
    + destruct (invokeGlobalKernel backend maxWG offset size) as [[e2 l2]|] eqn:E2;
        cbn [mbind option_bind]; [|discriminate].
      specialize (H2 _ _ Hgt eq_refl).
      destruct e2 as [e|];
        [intros [= <- <- <-]; constructor; [exact H1|constructor; [exact H2|constructor]]|].
      destruct (scanLoop backend maxWG fuel size (2 * maxWG) (u64 (offset * (2 * maxWG))))
        as [[[r e'] rest]|] eqn:E3; cbn [mbind option_bind]; [|discriminate].
      intros [= <- <- <-]. constructor; [exact H1|]. constructor; [exact H2|].
      apply (IH (u64 (offset * (2 * maxWG))) r e' rest); [lia| |exact E3].
      unfold u64. rewrite Z.mod_small by nia. nia.
    + cbn [mbind option_bind].
      destruct (scanLoop backend maxWG fuel size (2 * maxWG) (u64 (offset * (2 * maxWG))))
        as [[[r e'] rest]|] eqn:E3; cbn [mbind option_bind]; [|discriminate].
      intros [= <- <- <-]. constructor; [exact H1|].
      apply (IH (u64 (offset * (2 * maxWG))) r e' rest); [lia| |exact E3].
      unfold u64. rewrite Z.mod_small by nia. nia.
  - cbn [mbind option_bind].
    destruct (Z.gtb_spec offset 1) as [Hgt|].
    + destruct (invokeGlobalKernel backend maxWG offset size) as [[e2 l2]|] eqn:E2;
        cbn [mbind option_bind]; [|discriminate].
      specialize (H2 _ _ Hgt eq_refl).
      destruct e2 as [e|]; [intros [= <- <- <-]; constructor; [exact H2|constructor]|].
      destruct (scanLoop backend maxWG fuel size (2 * maxWG) (u64 (offset * (2 * maxWG))))
        as [[[r e'] rest]|] eqn:E3; cbn [mbind option_bind]; [|discriminate].
      intros [= <- <- <-]. constructor; [exact H2|].
      apply (IH (u64 (offset * (2 * maxWG))) r e' rest); [lia| |exact E3].
      unfold u64. rewrite Z.mod_small by nia. nia.
    + cbn [mbind option_bind].
      destruct (scanLoop backend maxWG fuel size (2 * maxWG) (u64 (offset * (2 * maxWG))))
        as [[[r e'] rest]|] eqn:E3; cbn [mbind option_bind]; [|discriminate].
      intros [= <- <- <-].
      apply (IH (u64 (offset * (2 * maxWG))) r e' rest); [lia| |exact E3].
      unfold u64. rewrite Z.mod_small by nia. nia.
Qed.

(** X20. Every launch of [computePrefixSum] uses the maximal workgroup
    size as its local size and a global size that is a multiple of it; its
    offset is at least 1 and below the input size, and the global kernel is
    only launched with an offset above 1. *)
Theorem computePrefixSum_launch_sizes fuel size res err ls :
  0 <= size < 2 ^ 32 ->
  computePrefixSum backend maxWG localMem fuel size = Some (res, err, ls) ->
  Forall (fun l => localThreads l = maxWG /\ (maxWG | globalThreads l) /\
                   1 <= arg_offset l < size /\
                   (kernel l = global_prefixSum -> 1 < arg_offset l)) ls.
Proof.
  intros Hs. unfold computePrefixSum.
  destruct (isPowerOfTwo size); cbn [negb]; [|intros [= <- <- <-]; constructor].
  assert (Hm : u64 (Z.shiftl maxWG 1) = 2 * maxWG).
  { rewrite Z.shiftl_mul_pow2 by lia. change (2 ^ 1) with 2.
    unfold u64. rewrite Z.mod_small by lia. lia. }
  rewrite Hm.
  destruct (_ >? localMem); [intros [= <- <- <-]; constructor|].
  apply scanLoop_sizes; lia.
Qed.

End PrefixSumSizes.

Lemma computePrefixSum_launch_sizes_witness :
  Forall (fun l => PrefixSum.localThreads l = 4 /\ (4 | PrefixSum.globalThreads l) /\
                   1 <= PrefixSum.arg_offset l < 64 /\
                   (PrefixSum.kernel l = PrefixSum.global_prefixSum ->
                    1 < PrefixSum.arg_offset l))
    [PrefixSum.mkLaunch PrefixSum.group_prefixSum 1 64 32 4;
     PrefixSum.mkLaunch PrefixSum.group_prefixSum 8 64 4 4;
     PrefixSum.mkLaunch PrefixSum.global_prefixSum 8 64 56 4].
Proof.
  apply (computePrefixSum_launch_sizes (fun _ => None) 4 32 ltac:(lia) 40 64 Success None);
    [lia|vm_compute; reflexivity].
Defined.

(** ** Scene buffer: from a global triangle index to its submesh *)

Lemma meshTriangles_nonneg ms :
  Forall (fun s => 0 <= mesh_numberOfTriangles s) ms -> 0 <= meshTriangles ms.
Proof.
  induction 1 as [|s ms Hs _ IH]; [reflexivity|].
  change (meshTriangles (s :: ms)) with (mesh_numberOfTriangles s + meshTriangles ms).
  lia.
Qed.

Lemma modelTriangles_nonneg ms :
  Forall consistentModel ms -> 0 <= modelTriangles ms.
Proof.
  induction 1 as [|m ms (E & H & _) _ IH]; [reflexivity|].
  change (modelTriangles (m :: ms)) with (model_numberOfTriangles m + modelTriangles ms).
  pose proof (meshTriangles_nonneg _ H). lia.
Qed.

Lemma modelTriangles_app l1 l2 :
  modelTriangles (l1 ++ l2) = modelTriangles l1 + modelTriangles l2.
Proof.
  induction l1 as [|m l1 IH]; [reflexivity|]. cbn [app].
  change (modelTriangles (m :: l1 ++ l2))
    with (model_numberOfTriangles m + modelTriangles (l1 ++ l2)).
  change (modelTriangles (m :: l1))
    with (model_numberOfTriangles m + modelTriangles l1).
  lia.
Qed.

Lemma walkModels_spec g : forall ms k acc,
  Forall consistentModel ms ->
  0 <= acc <= g -> g < acc + modelTriangles ms -> acc + modelTriangles ms < 2 ^ 31 ->
  exists j m,
    walkModels ms k acc g
    = Some (k + Z.of_nat j, m,
            acc + modelTriangles (take j ms) + model_numberOfTriangles m) /\
    ms !! j = Some m /\
    acc + modelTriangles (take j ms) <= g
      < acc + modelTriangles (take j ms) + model_numberOfTriangles m.
Proof.
  induction ms as [|m ms IH]; intros k acc Hc Ha Hg Hb; [cbn in Hg; lia|].
  apply Forall_cons in Hc as [Hm Hc].
  change (modelTriangles (m :: ms))
    with (model_numberOfTriangles m + modelTriangles ms) in Hg, Hb.
  pose proof (modelTriangles_nonneg ms Hc) as H0.
  assert (Hcm : 0 <= model_numberOfTriangles m).
  { destruct Hm as (-> & H & _). apply meshTriangles_nonneg, H. }
  cbn [walkModels]. rewrite i32_small by lia. rewrite u32_small by lia.
  destruct (Z.gtb_spec (acc + model_numberOfTriangles m) g) as [Hgt|Hle].
  - exists O, m. cbn [take lookup list_lookup].
    change (modelTriangles []) with 0. rewrite !Z.add_0_r. split; [reflexivity|]. split; [reflexivity|]. lia.
  - destruct (IH (k + 1) (acc + model_numberOfTriangles m) Hc) as (j & m' & E & Hj & Hr);
      [lia|lia|lia|].
    exists (S j), m'. cbn [take].
    change (modelTriangles (m :: take j ms))
      with (model_numberOfTriangles m + modelTriangles (take j ms)).
    rewrite E. split; [|split; [exact Hj|lia]].
    f_equal. f_equal; [f_equal; lia|lia].
Qed.

Lemma walkMeshes_spec g : forall ms k acc,
  Forall (fun s => 0 <= mesh_numberOfTriangles s) ms ->
  0 <= acc <= g -> g < acc + meshTriangles ms -> acc + meshTriangles ms < 2 ^ 31 ->
  exists j m,
    walkMeshes ms k acc g
    = Some (k + Z.of_nat j, m,
            acc + meshTriangles (take j ms) + mesh_numberOfTriangles m) /\
    ms !! j = Some m /\
    acc + meshTriangles (take j ms) <= g
      < acc + meshTriangles (take j ms) + mesh_numberOfTriangles m.
Proof.
  induction ms as [|m ms IH]; intros k acc Hc Ha Hg Hb; [cbn in Hg; lia|].
  apply Forall_cons in Hc as [Hm Hc].
  change (meshTriangles (m :: ms))
    with (mesh_numberOfTriangles m + meshTriangles ms) in Hg, Hb.
  pose proof (meshTriangles_nonneg ms Hc) as H0. cbn beta in Hm.
  cbn [walkMeshes]. rewrite i32_small by lia. rewrite u32_small by lia.
  destruct (Z.gtb_spec (acc + mesh_numberOfTriangles m) g) as [Hgt|Hle].
  - exists O, m. cbn [take lookup list_lookup].
    change (meshTriangles []) with 0. rewrite !Z.add_0_r. split; [reflexivity|]. split; [reflexivity|]. lia.
  - destruct (IH (k + 1) (acc + mesh_numberOfTriangles m) Hc) as (j & m' & E & Hj & Hr);
      [lia|lia|lia|].
    exists (S j), m'. cbn [take].
    change (meshTriangles (m :: take j ms))
      with (mesh_numberOfTriangles m + meshTriangles (take j ms)).
    rewrite E. split; [|split; [exact Hj|lia]].
    f_equal. f_equal; [f_equal; lia|lia].
Qed.

(** X21. In a scene whose headers agree with its content,
    [getTriangleRefByIndex] resolves every global triangle index [g] below
    the number of triangles to the model [m], the submesh [s] of that model
    and the local index [t] with [g] = (triangles of the models before
    [m]) + (triangles of the submeshes of [m] before [s]) + [t], where [t]
    is below the triangle count of the submesh. *)
Theorem getTriangleRefByIndex_resolves scene g :
  consistentScene scene -> 0 <= g < modelTriangles (models scene) ->
  exists m s t model mesh,
    getTriangleRefByIndex scene g = Some (mkUint3 (Z.of_nat m) (Z.of_nat s) t) /\
    models scene !! m = Some model /\ submeshes model !! s = Some mesh /\
    0 <= t < mesh_numberOfTriangles mesh /\
    g = modelTriangles (take m (models scene))
        + meshTriangles (take s (submeshes model)) + t.
Proof.
  intros (Hc & Hb & Hl) Hg. unfold getTriangleRefByIndex.
  destruct (walkModels_spec g (models scene) 0 0 Hc) as (m & model & -> & Hm & Hr);
    [lia|lia|lia|].
  cbn [mbind option_bind]. rewrite !Z.add_0_l in *.
  pose proof (proj1 (Forall_lookup _ _) Hc _ _ Hm) as (Em & Hs & Hls).
  assert (Hpre : 0 <= modelTriangles (take m (models scene))).
  { apply modelTriangles_nonneg, Forall_take, Hc. }
  assert (Htot : modelTriangles (take m (models scene)) + model_numberOfTriangles model
                 <= modelTriangles (models scene)).
  { pose proof (f_equal modelTriangles (take_drop_middle _ _ _ Hm)) as E.
    rewrite modelTriangles_app in E.
    change (modelTriangles (model :: drop (S m) (models scene)))
      with (model_numberOfTriangles model + modelTriangles (drop (S m) (models scene)))
      in E.
    assert (0 <= modelTriangles (drop (S m) (models scene)))
      by (apply modelTriangles_nonneg, Forall_drop, Hc).
    lia. }
  match goal with |- context [i32 ?x] =>
    replace x with (modelTriangles (take m (models scene))) by lia end.
  rewrite i32_small by lia.
  destruct (walkMeshes_spec g (submeshes model) 0
              (modelTriangles (take m (models scene))) Hs)
    as (s & mesh & -> & Hsm & Hr'); [lia|lia|lia|].
  cbn [mbind option_bind]. rewrite !Z.add_0_l.
  set (B := modelTriangles (take m (models scene))
            + meshTriangles (take s (submeshes model))) in *.
  assert (0 <= meshTriangles (take s (submeshes model)))
    by (apply meshTriangles_nonneg, Forall_take, Hs).
  replace (B + mesh_numberOfTriangles mesh - mesh_numberOfTriangles mesh) with B by lia.
  rewrite (i32_small B) by lia.
  rewrite (u32_small (g - B)) by lia.
  unfold zmax. destruct (Z.gtb_spec 0 (g - B)); [lia|].
  rewrite (i32_small (g - B)) by lia.
  apply lookup_lt_Some in Hm as Hm'. apply lookup_lt_Some in Hsm as Hsm'.
  rewrite !u32_small by lia.
  exists m, s, (g - B), model, mesh.
  split; [reflexivity|]. split; [exact Hm|]. split; [exact Hsm|]. lia.
Qed.

Lemma getTriangleRefByIndex_resolves_witness :
  exists m s t model mesh,
    getTriangleRefByIndex oneTriangleScene 0
    = Some (mkUint3 (Z.of_nat m) (Z.of_nat s) t) /\
    models oneTriangleScene !! m = Some model /\ submeshes model !! s = Some mesh /\
    0 <= t < mesh_numberOfTriangles mesh /\
    0 = modelTriangles (take m (models oneTriangleScene))
        + meshTriangles (take s (submeshes model)) + t.
Proof.
  apply (getTriangleRefByIndex_resolves oneTriangleScene 0).
  - repeat split; cbn; try lia.
    repeat constructor; cbn; lia.
  - cbn. lia.
Defined.

(** ** Transforms *)

(** X22. A quaternion whose squared magnitude is below [FLT_EPSILON]
    gives, after [normalizeQuaternion], the matrix of a pure translation:
    [setOrientationAndPos] builds exactly the matrix of [fillTranslate]
    for the same position. *)
Theorem degenerate_quaternion_translates (q : Transform.Quaternion) (pos : float3) :
  ltb (Transform.squaredMagnitude q) FLT_EPSILON = true ->
  Matrix4.setOrientationAndPos (Transform.normalizeQuaternion q) pos
  = Matrix4.fillTranslate pos.
Proof.
  intros H. unfold Transform.normalizeQuaternion. rewrite H.
  unfold Matrix4.setOrientationAndPos, Matrix4.fillTranslate.
  cbn [Transform.r Transform.i Transform.j Transform.k].
  f_equal; vm_compute; reflexivity.
Qed.

Lemma degenerate_quaternion_translates_witness :
  Matrix4.setOrientationAndPos
    (Transform.normalizeQuaternion (Transform.mkQuaternion zero zero zero zero))
    (mkFloat3 one half zero)
  = Matrix4.fillTranslate (mkFloat3 one half zero).
Proof.
  apply (degenerate_quaternion_translates
           (Transform.mkQuaternion zero zero zero zero) (mkFloat3 one half zero)).
  vm_compute. reflexivity.
Defined.

(** ** Count-leading-zeros and common prefixes *)

(** X23. The prefix test of the radix tree: for 32-bit keys [a], [b] and
    [0 <= p <= 31], [CLZ(a ^ b) > p] holds exactly when [a] and [b] agree
    on their [p + 1] most significant bits. *)
Theorem CLZ_lxor_common_prefix a b p :
  0 <= a < 2 ^ 32 -> 0 <= b < 2 ^ 32 -> 0 <= p <= 31 ->
  (CLZ (Z.lxor a b) > p <-> a / 2 ^ (31 - p) = b / 2 ^ (31 - p)).
Proof.
  intros Ha Hb Hp.
  pose proof (lxor_range a b Ha Hb) as Rx.
  assert (Hs : a / 2 ^ (31 - p) = b / 2 ^ (31 - p) <-> Z.lxor a b < 2 ^ (31 - p)).
  { rewrite <- !Z.shiftr_div_pow2 by lia. rewrite <- Z.lxor_eq_0_iff.
    rewrite <- Z.shiftr_lxor. rewrite Z.shiftr_div_pow2 by lia.
    rewrite Z.div_small_iff by lia. lia. }
  rewrite Hs.
  destruct (Z.eq_dec (Z.lxor a b) 0) as [E|NE].
  - rewrite E, CLZ_zero. split; intros _; lia.
  - rewrite CLZ_pos by lia. split.
    + intros H. apply Z.log2_lt_pow2; lia.
    + intros H. apply Z.log2_lt_pow2 in H; lia.
Qed.

Lemma CLZ_lxor_common_prefix_witness :
  CLZ (Z.lxor 4 5) > 28 <-> 4 / 2 ^ (31 - 28) = 5 / 2 ^ (31 - 28).
Proof. apply (CLZ_lxor_common_prefix 4 5 28); lia. Defined.

(** ** Scene buffer: indices past the last triangle *)

Lemma walkModels_none g : forall ms k acc,
  Forall consistentModel ms ->
  0 <= acc -> acc + modelTriangles ms <= g -> acc + modelTriangles ms < 2 ^ 31 ->
  walkModels ms k acc g = None.
Proof.
  induction ms as [|m ms IH]; intros k acc Hc Ha Hg Hb; [reflexivity|].
  apply Forall_cons in Hc as [Hm Hc].
  change (modelTriangles (m :: ms))
    with (model_numberOfTriangles m + modelTriangles ms) in Hg, Hb.
  pose proof (modelTriangles_nonneg ms Hc) as H0.
  assert (Hcm : 0 <= model_numberOfTriangles m).
  { destruct Hm as (-> & H & _). apply meshTriangles_nonneg, H. }
  cbn [walkModels]. rewrite i32_small by lia. rewrite u32_small by lia.
  destruct (Z.gtb_spec (acc + model_numberOfTriangles m) g); [lia|].
  apply IH; [exact Hc|lia|lia|lia].
Qed.

(** X24. [getTriangleRefByIndex] is undefined for an index that is not
    below the number of triangles of the scene: the first loop walks past
    the last model. *)
Theorem getTriangleRefByIndex_past_the_end scene g :
  consistentScene scene -> modelTriangles (models scene) <= g ->
  getTriangleRefByIndex scene g = None.
Proof.
  intros (Hc & Hb & _) Hg. unfold getTriangleRefByIndex.
  rewrite walkModels_none; [reflexivity|exact Hc|lia|lia|lia].
Qed.

Lemma getTriangleRefByIndex_past_the_end_witness :
  getTriangleRefByIndex oneTriangleScene 1 = None.
Proof.
  apply (getTriangleRefByIndex_past_the_end oneTriangleScene 1).
  - repeat split; cbn; try lia.
    repeat constructor; cbn; lia.
  - cbn. lia.
Defined.

(** ** Two-level grid: the leaf pairs of a top-level pair *)

Lemma writeLeaf_hit v0 v1 v2 grid topLevelCell topLevelPair coords startIndex st c :
  writeLeaf v0 v1 v2 (topBaseOf grid coords) (leafStepOf grid topLevelCell)
            (halfSizeOf (leafStepOf grid topLevelCell))
            topLevelCell topLevelPair startIndex st c.1.1 c.1.2 c.2
  = if leafHit v0 v1 v2 grid topLevelCell coords c
    then (u32 (st.1 + 1),
          st.2 ++ [(u32 (startIndex + st.1), pairOfLeaf topLevelCell topLevelPair c)])
    else st.
Proof. unfold writeLeaf, leafHit, pairOfLeaf. cbn [fst snd]. reflexivity. Qed.

Lemma writeLeaf_fold v0 v1 v2 grid topLevelCell topLevelPair coords startIndex cells :
  forall n acc,
  foldl (fun st c =>
           writeLeaf v0 v1 v2 (topBaseOf grid coords) (leafStepOf grid topLevelCell)
                     (halfSizeOf (leafStepOf grid topLevelCell))
                     topLevelCell topLevelPair startIndex st c.1.1 c.1.2 c.2)
        (u32 n, acc) cells
  = (u32 (n + Z.of_nat (length (List.filter (leafHit v0 v1 v2 grid topLevelCell coords)
                                            cells))),
     acc ++ imap (fun k c => (u32 (startIndex + (n + Z.of_nat k)),
                              pairOfLeaf topLevelCell topLevelPair c))
                 (List.filter (leafHit v0 v1 v2 grid topLevelCell coords) cells)).
Proof.
  induction cells as [|c cells IH]; intros n acc.
  - cbn. rewrite Z.add_0_r, app_nil_r. reflexivity.
  - cbn [foldl List.filter]. rewrite writeLeaf_hit.
    destruct (leafHit v0 v1 v2 grid topLevelCell coords c).
    + cbn [fst snd]. rewrite u32_add_l, u32_add_r, IH. cbn [length imap].
      rewrite <- app_assoc. cbn [app]. f_equal; [f_equal; lia|].
      f_equal. unfold pairOfLeaf at 2. rewrite Z.add_0_r. f_equal.
      apply imap_ext. intros k c' _. cbn. do 2 f_equal. lia.
    + apply IH.
Qed.

Lemma overlappingLeafPairStores_spec v0 v1 v2 grid topLevelCell topLevelPair
      startIndex coords :
  getCellRefFromIndex (ux topLevelPair) (resX grid) (resY grid) (resZ grid)
  = Some coords ->
  overlappingLeafPairStores v0 v1 v2 grid topLevelCell topLevelPair startIndex
  = Some (imap (fun k c => (u32 (startIndex + Z.of_nat k),
                            pairOfLeaf topLevelCell topLevelPair c))
               (List.filter (leafHit v0 v1 v2 grid topLevelCell coords)
                            (leafCells topLevelCell))).
Proof.
  intros Hc. unfold overlappingLeafPairStores. rewrite Hc. cbn [mbind option_bind].
  rewrite (foldl_cellsOf
             (writeLeaf v0 v1 v2 (topBaseOf grid coords) (leafStepOf grid topLevelCell)
                        (halfSizeOf (leafStepOf grid topLevelCell))
                        topLevelCell topLevelPair startIndex)).
  change (0, @nil Store) with (u32 0, @nil Store).
  rewrite writeLeaf_fold. cbn [snd app]. reflexivity.
Qed.

Lemma length_filter_le {A} (f : A -> bool) (l : list A) :
  (length (List.filter f l) <= length l)%nat.
Proof.
  induction l as [|a l IH]; [reflexivity|]. cbn [List.filter].
  destruct (f a); cbn [length]; lia.
Qed.

(** X25. [writeLeafPairs] writes one pair for every leaf cell of the
    top-level cell that passes [AABBTriangleIntersect], and for no other:
    in the order of the loops, into the consecutive entries of the pair
    array that start at [prefixSum[i] - counters[i]], leaving the rest of
    the array unchanged; there are at most as many pairs as leaf cells. *)
Theorem writeLeafPairs_placement scene topLevelPairs topLevelCells tlpIndex grid
        prefixSum counters pairs p c topLevelPair v0 v1 v2 topLevelCell coords :
  rd prefixSum tlpIndex = Some p ->
  rd counters tlpIndex = Some c ->
  rd topLevelPairs tlpIndex = Some topLevelPair ->
  fetchTriangle scene (uy topLevelPair) = Some (v0, v1, v2) ->
  rd topLevelCells (ux topLevelPair) = Some topLevelCell ->
  getCellRefFromIndex (ux topLevelPair) (resX grid) (resY grid) (resZ grid)
  = Some coords ->
  let hits := List.filter (leafHit v0 v1 v2 grid topLevelCell coords)
                          (leafCells topLevelCell) in
  let myStart := u32 (p - c) in
  myStart + Z.of_nat (length hits) <= Z.of_nat (length pairs) ->
  Z.of_nat (length pairs) < 2 ^ 32 ->
  (length hits <= length (leafCells topLevelCell))%nat /\
  writeLeafPairs scene topLevelPairs topLevelCells tlpIndex grid prefixSum counters
                 pairs
  = Some (take (Z.to_nat myStart) pairs
          ++ map (pairOfLeaf topLevelCell topLevelPair) hits
          ++ drop (Z.to_nat myStart + length hits) pairs).
Proof.
  intros Hp Hc Ht Hf Hcell Hco hits myStart Hfit Hlen.
  assert (H0 : 0 <= myStart) by (apply Z.mod_pos_bound; lia).
  split; [apply length_filter_le|].
  unfold writeLeafPairs, leafPairStores.
  rewrite Hp, Hc, Ht. cbn [mbind option_bind]. rewrite Hf. cbn [mbind option_bind].
  rewrite Hcell. cbn [mbind option_bind].
  rewrite (overlappingLeafPairStores_spec _ _ _ _ _ _ _ coords) by exact Hco.
  cbn [mbind option_bind]. fold hits myStart.
  rewrite <- (length_map (pairOfLeaf topLevelCell topLevelPair) hits).
  rewrite <- (storeAll_consecutive (map (pairOfLeaf topLevelCell topLevelPair) hits))
    by (rewrite length_map; lia).
  f_equal. rewrite imap_fmap. apply imap_ext. intros k cl Hk. cbn. f_equal.
  apply lookup_lt_Some in Hk. rewrite u32_small by lia. lia.
Qed.

Lemma writeLeafPairs_placement_witness :
  let v0 := mkFloat3 (neg half) (neg half) zero in
  let v1 := mkFloat3 half (neg half) zero in
  let v2 := mkFloat3 zero half zero in
  let topLevelCell := mkTopLevelCell 2 2 1 24 in
  let topLevelPair := mkUint2 6 0 in
  let hits := List.filter (leafHit v0 v1 v2 cubeGrid topLevelCell (mkUint3 0 1 1))
                          (leafCells topLevelCell) in
  let myStart := u32 (5 - 3) in
  (length hits <= length (leafCells topLevelCell))%nat /\
  writeLeafPairs oneTriangleScene [topLevelPair] sampleCells 0 cubeGrid [5] [3]
                 (replicate 8 (mkUint2 UINT_MAX UINT_MAX))
  = Some (take (Z.to_nat myStart) (replicate 8 (mkUint2 UINT_MAX UINT_MAX))
          ++ map (pairOfLeaf topLevelCell topLevelPair) hits
          ++ drop (Z.to_nat myStart + length hits)
                  (replicate 8 (mkUint2 UINT_MAX UINT_MAX))).
Proof.
  apply (writeLeafPairs_placement oneTriangleScene [mkUint2 6 0] sampleCells 0 cubeGrid
           [5] [3] (replicate 8 (mkUint2 UINT_MAX UINT_MAX)) 5 3 (mkUint2 6 0));
    first [reflexivity | vm_compute; discriminate | vm_compute; reflexivity].
Defined.

(** ** Radix tree: the range of an inner node *)

(** A key between two keys shares with the first at least the prefix the
    second one shares with it. *)
Lemma lxor_log2_between a b c :
  0 <= a -> 0 <= c -> a <= b <= c \/ c <= b <= a ->
  Z.log2 (Z.lxor a b) <= Z.log2 (Z.lxor a c).
Proof.
  intros Ha Hc Hb. set (t := Z.log2 (Z.lxor a c)).
  assert (Ht : 0 <= t) by apply Z.log2_nonneg.
  assert (Hac : 0 <= Z.lxor a c) by (apply Z.lxor_nonneg; lia).
  assert (Hhigh : a / 2 ^ (t + 1) = c / 2 ^ (t + 1)).
  { rewrite <- !Z.shiftr_div_pow2 by lia. apply Z.bits_inj'. intros n Hn.
    rewrite !Z.shiftr_spec by lia.
    assert (Hz : Z.testbit (Z.lxor a c) (n + (t + 1)) = false).
    { destruct (Z.eq_dec (Z.lxor a c) 0) as [E|NE]; [rewrite E; apply Z.bits_0|].
      apply Z.bits_above_log2; fold t; lia. }
    rewrite Z.lxor_spec in Hz.
    destruct (Z.testbit a (n + (t + 1))), (Z.testbit c (n + (t + 1)));
      (reflexivity || discriminate). }
  assert (Hbq : b / 2 ^ (t + 1) = a / 2 ^ (t + 1)).
  { assert (0 < 2 ^ (t + 1)) by lia.
    destruct Hb as [Hb|Hb].
    - assert (a / 2 ^ (t + 1) <= b / 2 ^ (t + 1)) by (apply Z.div_le_mono; lia).
      assert (b / 2 ^ (t + 1) <= c / 2 ^ (t + 1)) by (apply Z.div_le_mono; lia).
      lia.
    - assert (c / 2 ^ (t + 1) <= b / 2 ^ (t + 1)) by (apply Z.div_le_mono; lia).
      assert (b / 2 ^ (t + 1) <= a / 2 ^ (t + 1)) by (apply Z.div_le_mono; lia).
      lia. }
  assert (Hab0 : 0 <= Z.lxor a b) by (apply Z.lxor_nonneg; lia).
  destruct (Z.eq_dec (Z.lxor a b) 0) as [E|NE]; [rewrite E; exact Ht|].
  destruct (Z_lt_le_dec t (Z.log2 (Z.lxor a b))) as [Hlt|]; [exfalso|lia].
  pose proof (Z.bit_log2 (Z.lxor a b) ltac:(lia)) as Hbit.
  set (u := Z.log2 (Z.lxor a b)) in *.
  rewrite Z.lxor_spec in Hbit.
  assert (Hsame : Z.testbit a u = Z.testbit b u).
  { replace u with ((u - (t + 1)) + (t + 1)) by lia.
    rewrite <- !Z.shiftr_spec by lia. rewrite !Z.shiftr_div_pow2 by lia.
    rewrite Hbq. reflexivity. }
  rewrite Hsame in Hbit. destruct (Z.testbit b u); discriminate Hbit.
Qed.

Lemma CLZ_lxor_between a b c :
  0 <= a < 2 ^ 32 -> 0 <= b < 2 ^ 32 -> 0 <= c < 2 ^ 32 ->
  a <= b <= c \/ c <= b <= a ->
  CLZ (Z.lxor a c) <= CLZ (Z.lxor a b).
Proof.
  intros Ha Hb Hc Hbt.
  pose proof (lxor_range a b Ha Hb) as Rb.
  pose proof (lxor_range a c Ha Hc) as Rc.
  destruct (Z.eq_dec a b) as [<-|Hne].
  { rewrite Z.lxor_nilpotent, CLZ_zero. apply CLZ_range. exact Rc. }
  assert (Z.lxor a b <> 0) by (intros E; apply Z.lxor_eq in E; lia).
  assert (Z.lxor a c <> 0) by (intros E; apply Z.lxor_eq in E; lia).
  rewrite !CLZ_pos by lia.
  pose proof (lxor_log2_between a b c ltac:(lia) ltac:(lia) Hbt). lia.
Qed.

(** ** Radix tree: the split of a range *)

Section RadixSplit.

Variable mc : list uint2.
Variable N : Z.

Hypothesis HN : 2 <= N <= 2 ^ 29.
Hypothesis Hlen : N <= Z.of_nat (length mc).
Hypothesis Hkeys :
  forall n p, Z.of_nat n < N -> mc !! n = Some p -> 0 <= ux p < 2 ^ 32.
Hypothesis Hsorted :
  forall n p q, Z.of_nat (S n) < N ->
                mc !! n = Some p -> mc !! S n = Some q -> ux p <= ux q.

Lemma keyAt_le d : forall n a b,
  0 <= n -> n + Z.of_nat d < N ->
  keyAt mc n = Some a -> keyAt mc (n + Z.of_nat d) = Some b -> a <= b.
Proof.
  induction d as [|d IH]; intros n a b Hn Hd Ha Hb.
  - rewrite Z.add_0_r in Hb. rewrite Ha in Hb. injection Hb as <-. lia.
  - destruct (keyAt_Some mc N HN Hlen Hkeys (n + Z.of_nat d) ltac:(lia)) as (c & Hc & _).
    pose proof (IH n a c Hn ltac:(lia) Ha Hc).
    replace (n + Z.of_nat (S d)) with (n + Z.of_nat d + 1) in Hb by lia.
    pose proof (keyAt_sorted mc N HN Hsorted (n + Z.of_nat d) c b ltac:(lia) Hc Hb).
    lia.
Qed.

Lemma keyAt_mono n m a b :
  0 <= n <= m -> m < N -> keyAt mc n = Some a -> keyAt mc m = Some b -> a <= b.
Proof.
  intros Hn Hm Ha Hb. apply (keyAt_le (Z.to_nat (m - n)) n a b); [lia|lia|exact Ha|].
  rewrite Z2Nat.id by lia. replace (n + (m - n)) with m by lia. exact Hb.
Qed.

(** The binary search keeps a position whose key shares more than the
    common prefix with the first key, below positions that do not. *)
Lemma splitSearch_partitions firstCode commonPrefix first last fuel :
  forall split step,
  0 <= first -> last <= N - 1 ->
  keyAt mc first = Some firstCode ->
  (forall c, keyAt mc last = Some c -> CLZ (Z.lxor firstCode c) <= commonPrefix) ->
  first <= split < last -> 1 <= step <= last - first ->
  step <= 2 ^ Z.of_nat fuel -> fuel <> O ->
  (forall c, keyAt mc split = Some c -> CLZ (Z.lxor firstCode c) > commonPrefix) ->
  (forall j c, split + step <= j <= last -> keyAt mc j = Some c ->
               CLZ (Z.lxor firstCode c) <= commonPrefix) ->
  exists s,
    splitSearch fuel mc firstCode commonPrefix last split step = Some s /\
    first <= s < last /\
    (forall c, keyAt mc s = Some c -> CLZ (Z.lxor firstCode c) > commonPrefix) /\
    (forall j c, s < j <= last -> keyAt mc j = Some c ->
                 CLZ (Z.lxor firstCode c) <= commonPrefix).
Proof.
  induction fuel as [|fuel IH];
    intros split step Hf Hl Hfc Hlast Hs Hst Hfuel Hne HP HQ; [congruence|].
  cbn [splitSearch].
  rewrite (i32_small (step + 1)) by lia.
  rewrite Z.shiftr_div_pow2 by lia. change (2 ^ 1) with 2.
  set (step' := (step + 1) / 2).
  assert (Hstep' : 1 <= step' <= step /\ 2 * step' <= step + 1 /\ step <= 2 * step')
    by (unfold step'; zlia).
  rewrite (i32_small (split + step')) by lia.
  destruct (keyAt_Some mc N HN Hlen Hkeys first ltac:(lia)) as (fc' & Hfc' & Rfc).
  rewrite Hfc in Hfc'. injection Hfc' as <-.
  assert (Hsplit : exists split',
    (if split + step' <? last
     then splitCode ← keyAt mc (split + step');
          Some (if CLZ (Z.lxor firstCode splitCode) >? commonPrefix
                then split + step' else split)
     else Some split) = Some split' /\ first <= split' < last /\
    (forall c, keyAt mc split' = Some c -> CLZ (Z.lxor firstCode c) > commonPrefix) /\
    (forall j c, split' + step' <= j <= last -> keyAt mc j = Some c ->
                 CLZ (Z.lxor firstCode c) <= commonPrefix) /\
    (split' = split \/ split' = split + step')).
  { destruct (Z.ltb_spec (split + step') last) as [Hlt|Hge].
    - destruct (keyAt_Some mc N HN Hlen Hkeys (split + step') ltac:(lia))
        as (code & Hcode & Rcode).
      rewrite Hcode. cbn [mbind option_bind].
      destruct (Z.gtb_spec (CLZ (Z.lxor firstCode code)) commonPrefix) as [Hgt|Hle].
      + exists (split + step'). split; [reflexivity|]. split; [lia|].
        split; [intros c Hc; rewrite Hcode in Hc; injection Hc as <-; lia|].
        split; [|auto]. intros j c Hj Hc. apply (HQ j c); [lia|exact Hc].
      + exists split. split; [reflexivity|]. split; [lia|]. split; [exact HP|].
        split; [|auto]. intros j c Hj Hc.
        destruct (keyAt_Some mc N HN Hlen Hkeys j ltac:(lia)) as (c' & Hc' & Rc).
        rewrite Hc in Hc'. injection Hc' as <-.
        pose proof (keyAt_mono first (split + step') firstCode code
                      ltac:(lia) ltac:(lia) Hfc Hcode).
        pose proof (keyAt_mono (split + step') j code c ltac:(lia) ltac:(lia) Hcode Hc).
        pose proof (CLZ_lxor_between firstCode code c ltac:(lia) ltac:(lia) ltac:(lia)
                      ltac:(lia)).
        lia.
    - exists split. split; [reflexivity|]. split; [lia|]. split; [exact HP|].
      split; [|auto]. intros j c Hj Hc. assert (j = last) by lia. subst j.
      apply Hlast. exact Hc. }
  destruct Hsplit as (split' & -> & Hs' & HP' & HQ' & Hcase).
  cbn [mbind option_bind].
  destruct (Z.gtb_spec step' 1) as [Hgt|Hle].
  - apply IH; try assumption; try lia.
    + rewrite Nat2Z.inj_succ, Z.pow_succ_r in Hfuel by lia. lia.
    + intros ->. rewrite Nat2Z.inj_succ, Z.pow_succ_r in Hfuel by lia.
      change (2 ^ Z.of_nat 0) with 1 in Hfuel. lia.
  - exists split'. split; [reflexivity|]. split; [lia|]. split; [exact HP'|].
    intros j c Hj Hc. apply (HQ' j c); [lia|exact Hc].
Qed.

(** X26. On sorted keys, [findSplit] returns a position [s] of
    [[first, last)].  If the first and the last key differ, [s] is the
    last position whose key shares with the first key a longer prefix than
    the last key does: the keys at [first .. s] share more than the common
    prefix of the range, the keys at [s + 1 .. last] do not.  If the two
    keys are equal, [s] is [first]. *)
Theorem findSplit_partitions first last firstCode lastCode :
  0 <= first < last -> last <= N - 1 ->
  keyAt mc first = Some firstCode -> keyAt mc last = Some lastCode ->
  exists s,
    findSplit mc first last = Some s /\ first <= s < last /\
    (firstCode = lastCode -> s = first) /\
    (firstCode <> lastCode ->
     forall j c, first <= j <= last -> keyAt mc j = Some c ->
       (CLZ (Z.lxor firstCode c) >? CLZ (Z.lxor firstCode lastCode)) = (j <=? s)).
Proof.
  intros Hf Hl Hfc Hlc. unfold findSplit. rewrite Hfc, Hlc. cbn [mbind option_bind].
  destruct (keyAt_Some mc N HN Hlen Hkeys first ltac:(lia)) as (fc' & Hfc' & Rfc).
  rewrite Hfc in Hfc'. injection Hfc' as <-.
  destruct (keyAt_Some mc N HN Hlen Hkeys last ltac:(lia)) as (lc' & Hlc' & Rlc).
  rewrite Hlc in Hlc'. injection Hlc' as <-.
  destruct (Z.eqb_spec firstCode lastCode) as [E|NE].
  - exists first. split; [reflexivity|]. split; [lia|]. split; [auto|contradiction].
  - rewrite i32_small by lia.
    pose proof (lxor_range firstCode lastCode Rfc Rlc) as Rx.
    assert (Hx : Z.lxor firstCode lastCode <> 0)
      by (intros E; apply Z.lxor_eq in E; lia).
    assert (Hcp : CLZ (Z.lxor firstCode lastCode) <= 31).
    { rewrite CLZ_pos by lia.
      pose proof (Z.log2_nonneg (Z.lxor firstCode lastCode)). lia. }
    destruct (splitSearch_partitions firstCode (CLZ (Z.lxor firstCode lastCode))
                first last 32 first (last - first))
      as (s & Es & Hs & HP & HQ); try lia; try assumption.
    + intros c Hc. rewrite Hlc in Hc. injection Hc as <-. lia.
    + intros c Hc. rewrite Hfc in Hc. injection Hc as <-.
      rewrite Z.lxor_nilpotent, CLZ_zero. lia.
    + intros j c Hj Hc. assert (j = last) by lia. subst j.
      rewrite Hlc in Hc. injection Hc as <-. lia.
    + exists s. split; [exact Es|]. split; [exact Hs|]. split; [contradiction|].
      intros _ j c Hj Hc.
      destruct (keyAt_Some mc N HN Hlen Hkeys j ltac:(lia)) as (c' & Hc' & Rc).
      rewrite Hc in Hc'. injection Hc' as <-.
      destruct (Z.leb_spec j s) as [Hle|Hgt].
      * destruct (keyAt_Some mc N HN Hlen Hkeys s ltac:(lia)) as (cs & Hcs & Rcs).
        pose proof (HP cs Hcs).
        pose proof (keyAt_mono first j firstCode c ltac:(lia) ltac:(lia) Hfc Hc).
        pose proof (keyAt_mono j s c cs ltac:(lia) ltac:(lia) Hc Hcs).
        pose proof (CLZ_lxor_between firstCode c cs ltac:(lia) ltac:(lia) ltac:(lia)
                      ltac:(lia)).
        apply Z.gtb_lt. lia.
      * pose proof (HQ j c ltac:(lia) Hc).
        destruct (Z.gtb_spec (CLZ (Z.lxor firstCode c))
                             (CLZ (Z.lxor firstCode lastCode))); [lia|reflexivity].
Qed.

End RadixSplit.

Lemma findSplit_partitions_witness :
  exists s,
    findSplit fourCodes 0 3 = Some s /\ 0 <= s < 3 /\
    (1 = 5 -> s = 0) /\
    (1 <> 5 ->
     forall j c, 0 <= j <= 3 -> keyAt fourCodes j = Some c ->
       (CLZ (Z.lxor 1 c) >? CLZ (Z.lxor 1 5)) = (j <=? s)).
Proof.
  apply (findSplit_partitions fourCodes 4); try (cbn; lia); try reflexivity.
  - intros [|[|[|[|n]]]] p Hn Hp; cbn in Hp; try discriminate Hp;
      injection Hp as <-; cbn; lia.
  - intros [|[|[|n]]] p q Hn Hp Hq; cbn in Hp, Hq; try discriminate Hq;
      injection Hp as <-; injection Hq as <-; cbn; lia.
Defined.

Section RadixRange.

Variable mc : list uint2.
Variable N : Z.

Hypothesis HN : 2 <= N <= 2 ^ 29.
Hypothesis Hlen : N <= Z.of_nat (length mc).
Hypothesis Hkeys :
  forall n p, Z.of_nat n < N -> mc !! n = Some p -> 0 <= ux p < 2 ^ 32.
Hypothesis Hsorted :
  forall n p q, Z.of_nat (S n) < N ->
                mc !! n = Some p -> mc !! S n = Some q -> ux p <= ux q.

(** The doubling of [l_max] stops at a distance that leaves the array or
    whose key does not share the prefix. *)
Lemma growLMax_stops dir precis d_min index fuel : forall k,
  dir = 1 \/ dir = -1 -> 0 <= index <= N - 1 ->
  1 <= k <= 31 -> k = 1 \/ 2 ^ k <= 2 * (N - 1) ->
  32 <= k + Z.of_nat fuel ->
  exists k',
    growLMax fuel mc (N - 1) index dir precis d_min (2 ^ k) (i32 (index + 2 ^ k * dir))
    = Some (2 ^ k') /\
    1 <= k' <= 31 /\ (k' = 1 \/ 2 ^ k' <= 2 * (N - 1)) /\
    ~ sharesPrefix mc (N - 1) precis d_min (index + 2 ^ k' * dir).
Proof.
  induction fuel as [|fuel IH]; intros k Hd Hi Hk Hb Hf; [lia|].
  cbn [growLMax].
  assert (Hp : 2 <= 2 ^ k <= 2 ^ 30).
  { destruct Hb as [->|Hb]; [cbn; lia|].
    split; [|lia]. change 2 with (2 ^ 1) at 1. apply Z.pow_le_mono_r; lia. }
  rewrite i32_small by nia.
  destruct ((index + 2 ^ k * dir <=? N - 1) && (index + 2 ^ k * dir >=? 0)) eqn:Hin.
  - apply andb_true_iff in Hin as [H1 H2]. apply Z.leb_le in H1. apply Z.geb_le in H2.
    destruct (keyAt_Some mc N HN Hlen Hkeys (index + 2 ^ k * dir) ltac:(lia))
      as (code & Hcode & _).
    rewrite Hcode. cbn [mbind option_bind].
    destruct (Z.gtb_spec (CLZ (Z.lxor precis code)) d_min) as [Hgt|Hle].
    + assert (Hle : 2 ^ k <= N - 1) by nia.
      assert (Hk29 : k < 29).
      { destruct (Z.lt_ge_cases k 29) as [|Hge]; [assumption|exfalso].
        assert (2 ^ 29 <= 2 ^ k) by (apply Z.pow_le_mono_r; lia). lia. }
      rewrite Z.shiftl_mul_pow2 by lia. change (2 ^ 1) with 2.
      replace (2 ^ k * 2) with (2 ^ (k + 1)) by (rewrite Z.pow_add_r by lia; reflexivity).
      assert (2 ^ (k + 1) = 2 * 2 ^ k) by (rewrite Z.pow_add_r by lia; lia).
      rewrite (i32_small (2 ^ (k + 1))) by lia.
      apply IH; [assumption|assumption|lia|right; lia|lia].
    + exists k. split; [reflexivity|]. split; [lia|]. split; [exact Hb|].
      intros (_ & code' & Hc' & Hgt). rewrite Hcode in Hc'. injection Hc' as <-. lia.
  - exists k. split; [reflexivity|]. split; [lia|]. split; [exact Hb|].
    intros (Hr & _). apply andb_false_iff in Hin.
    destruct Hin as [Hin|Hin];
      [apply Z.leb_gt in Hin|rewrite Z.geb_leb in Hin; apply Z.leb_gt in Hin]; lia.
Qed.

Section Search.

Variables dir precis d_min index k : Z.
Hypothesis Hdir : dir = 1 \/ dir = -1.
Hypothesis Hindex : 0 < index < N - 1.
Hypothesis Hk : 1 <= k <= 31.
Hypothesis Hbound : k = 1 \/ 2 ^ k <= 2 * (N - 1).

(** The binary search keeps a distance [l] that shares the prefix, below
    a distance that does not. *)
Lemma searchL_prefix fuel : forall j l,
  1 <= j <= k + 1 ->
  0 <= l <= 2 ^ k - 2 ^ (k - j + 1) ->
  sharesPrefix mc (N - 1) precis d_min (index + l * dir) ->
  ~ sharesPrefix mc (N - 1) precis d_min (index + (l + 2 ^ (k - j + 1)) * dir) ->
  k - j + 1 < Z.of_nat fuel ->
  exists r,
    searchL fuel mc (N - 1) index dir precis d_min (2 ^ k) (2 ^ j) l = Some r /\
    l <= r <= 2 ^ k - 1 /\
    sharesPrefix mc (N - 1) precis d_min (index + r * dir) /\
    ~ sharesPrefix mc (N - 1) precis d_min (index + (r + 1) * dir).
Proof.
  pose proof (pow2_k_bounds mc N HN k Hk Hbound) as Hp.
  induction fuel as [|fuel IH]; intros j l Hj Hl HP HQ Hf; [lia|].
  cbn [searchL].
  assert (Hj0 : 0 < 2 ^ j) by lia.
  rewrite Z.quot_div_nonneg by lia.
  destruct (Z.eq_dec j (k + 1)) as [->|Hjk].
  - rewrite Z.div_small by (split; [lia|]; apply Z.pow_lt_mono_r; lia).
    cbn. exists l. split; [reflexivity|].
    replace (k - (k + 1) + 1) with 0 in * by lia. change (2 ^ 0) with 1 in *.
    split; [lia|]. split; [exact HP|exact HQ].
  - assert (Ht : 2 ^ k / 2 ^ j = 2 ^ (k - j)) by (rewrite <- Z.pow_sub_r by lia; reflexivity).
    rewrite Ht.
    assert (Ht1 : 1 <= 2 ^ (k - j)) by lia.
    assert (Et : 2 ^ (k - j + 1) = 2 * 2 ^ (k - j))
      by (rewrite Z.pow_add_r by lia; lia).
    destruct (Z.geb_spec (2 ^ (k - j)) 1); [|lia].
    assert (Hj1 : 2 ^ (j + 1) = 2 * 2 ^ j) by (rewrite Z.pow_add_r by lia; lia).
    assert (Hjle : 2 ^ j <= 2 ^ k) by (apply Z.pow_le_mono_r; lia).
    rewrite Z.shiftl_mul_pow2 by lia. change (2 ^ 1) with 2.
    replace (2 ^ j * 2) with (2 ^ (j + 1)) by lia.
    rewrite (i32_small (2 ^ (j + 1))) by lia.
    destruct HP as (HPr & HPc).
    rewrite (i32_small (index + (l + 2 ^ (k - j)) * dir)) by nia.
    assert (Hnext : forall l',
      l <= l' <= 2 ^ k - 2 ^ (k - j) ->
      sharesPrefix mc (N - 1) precis d_min (index + l' * dir) ->
      ~ sharesPrefix mc (N - 1) precis d_min (index + (l' + 2 ^ (k - j)) * dir) ->
      exists r,
        searchL fuel mc (N - 1) index dir precis d_min (2 ^ k) (2 ^ (j + 1)) l' = Some r /\
        l <= r <= 2 ^ k - 1 /\
        sharesPrefix mc (N - 1) precis d_min (index + r * dir) /\
        ~ sharesPrefix mc (N - 1) precis d_min (index + (r + 1) * dir)).
    { intros l' Hl' HP' HQ'.
      destruct (IH (j + 1) l') as (r & Hr & Hr1 & Hr2 & Hr3); try lia.
      { replace (k - (j + 1) + 1) with (k - j) by lia. lia. }
      { exact HP'. }
      { replace (k - (j + 1) + 1) with (k - j) by lia. exact HQ'. }
      exists r. split; [exact Hr|]. split; [lia|]. split; assumption. }
    destruct ((index + (l + 2 ^ (k - j)) * dir <=? N - 1)
              && (index + (l + 2 ^ (k - j)) * dir >=? 0)) eqn:Hin.
    + apply andb_true_iff in Hin as [H1 H2]. apply Z.leb_le in H1. apply Z.geb_le in H2.
      destruct (keyAt_Some mc N HN Hlen Hkeys (index + (l + 2 ^ (k - j)) * dir)
                  ltac:(lia)) as (code & Hcode & _).
      rewrite Hcode. cbn [mbind option_bind].
      destruct (Z.gtb_spec (CLZ (Z.lxor precis code)) d_min) as [Hgt|Hle].
      * rewrite i32_small by lia. apply Hnext; [lia| |].
        -- split; [lia|]. exists code. split; [exact Hcode|lia].
        -- replace (l + 2 ^ (k - j) + 2 ^ (k - j)) with (l + 2 ^ (k - j + 1)) by lia.
           exact HQ.
      * apply Hnext; [lia|split; assumption|].
        intros (_ & code' & Hc' & Hgt). rewrite Hcode in Hc'. injection Hc' as <-. lia.
    + cbn [mbind option_bind]. apply Hnext; [lia|split; assumption|].
      intros (Hr & _). apply andb_false_iff in Hin.
      destruct Hin as [Hin|Hin];
        [apply Z.leb_gt in Hin|rewrite Z.geb_leb in Hin; apply Z.leb_gt in Hin]; lia.
Qed.

End Search.

(** Along the array, away from [i] in either direction, the prefix
    shared with the key at [i] can only get shorter. *)
Lemma sharesPrefix_closer i precis d_min m m' :
  0 <= i <= N - 1 -> keyAt mc i = Some precis ->
  i <= m' <= m \/ m <= m' <= i ->
  sharesPrefix mc (N - 1) precis d_min m ->
  sharesPrefix mc (N - 1) precis d_min m'.
Proof.
  intros Hi Hp Hbt ((Hm0 & Hm1) & code & Hc & Hgt).
  split; [lia|].
  destruct (keyAt_Some mc N HN Hlen Hkeys i ltac:(lia)) as (p' & Hp' & Rp).
  rewrite Hp in Hp'. injection Hp' as <-.
  destruct (keyAt_Some mc N HN Hlen Hkeys m ltac:(lia)) as (c' & Hc' & Rc).
  rewrite Hc in Hc'. injection Hc' as <-.
  destruct (keyAt_Some mc N HN Hlen Hkeys m' ltac:(lia)) as (b & Hb & Rb).
  exists b. split; [exact Hb|].
  assert (Hord : precis <= b <= code \/ code <= b <= precis).
  { destruct Hbt as [Hbt|Hbt]; [left|right]; split;
      first [ eapply (keyAt_mono mc N HN Hlen Hkeys Hsorted); [| |eassumption|eassumption]; lia ]. }
  pose proof (CLZ_lxor_between precis b code Rp Rb Rc Hord). lia.
Qed.

(** X27. On sorted keys, for an inner node [i] whose two neighbours do not
    both carry its key, [determineRange] returns the radix-tree range of
    [i]: with [d_min] the shorter of the prefixes that the key at [i]
    shares with its two neighbours, the range has [i] at one end, every
    key inside it shares more than [d_min] leading bits with the key at
    [i], and the positions next to its two ends do not (or lie outside
    the array). *)
Theorem determineRange_prefix_range i minone precis pluone :
  0 < i < N - 1 ->
  keyAt mc (i - 1) = Some minone -> keyAt mc i = Some precis ->
  keyAt mc (i + 1) = Some pluone ->
  ~ (minone = precis /\ pluone = precis) ->
  let d_min := Z.min (CLZ (Z.lxor precis minone)) (CLZ (Z.lxor precis pluone)) in
  exists first last,
    determineRange mc i N = Some (mkUint2 first last) /\
    0 <= first < last /\ last <= N - 1 /\ (first = i \/ last = i) /\
    (forall m, first <= m <= last -> sharesPrefix mc (N - 1) precis d_min m) /\
    ~ sharesPrefix mc (N - 1) precis d_min (first - 1) /\
    ~ sharesPrefix mc (N - 1) precis d_min (last + 1).
Proof.
  intros Hi Hm Hp Hq Hnd d_min. unfold determineRange.
  rewrite (u32_small (N - 1)) by lia. rewrite (i32_small (N - 1)) by lia.
  destruct (Z.eqb_spec i 0) as [->|Hi0]; [lia|].
  destruct (keyAt_Some mc N HN Hlen Hkeys (i - 1) ltac:(lia)) as (x & Hx & Hmr).
  rewrite Hm in Hx. injection Hx as <-.
  destruct (keyAt_Some mc N HN Hlen Hkeys i ltac:(lia)) as (x & Hx & Hpr).
  rewrite Hp in Hx. injection Hx as <-.
  destruct (keyAt_Some mc N HN Hlen Hkeys (i + 1) ltac:(lia)) as (x & Hx & Hqr).
  rewrite Hq in Hx. injection Hx as <-.
  assert (Hs1 : minone <= precis).
  { apply (keyAt_sorted mc N HN Hsorted (i - 1)); [lia|exact Hm|].
    replace (i - 1 + 1) with i by lia. exact Hp. }
  assert (Hs2 : precis <= pluone)
    by (apply (keyAt_sorted mc N HN Hsorted i); [lia|assumption..]).
  rewrite Hm, Hp, Hq. cbn [mbind option_bind].
  destruct ((minone =? precis) && (pluone =? precis)) eqn:Hdup.
  { apply andb_true_iff in Hdup as [E1 E2]. apply Z.eqb_eq in E1, E2. tauto. }
  pose proof (neighbour_prefixes_differ minone precis pluone
                ltac:(lia) ltac:(lia) Hdup) as Hdiff.
  pose proof (CLZ_range _ (lxor_range precis minone Hpr Hmr)) as Rx.
  pose proof (CLZ_range _ (lxor_range precis pluone Hpr Hqr)) as Ry.
  set (lrx := CLZ (Z.lxor precis minone)) in *.
  set (lry := CLZ (Z.lxor precis pluone)) in *.
  assert (Hself : sharesPrefix mc (N - 1) precis d_min i).
  { split; [lia|]. exists precis. split; [exact Hp|].
    rewrite Z.lxor_nilpotent, CLZ_zero. unfold d_min. lia. }
  assert (Hsel : exists dir,
    (if lrx >? lry then (-1, lry) else (1, lrx)) = (dir, d_min) /\
    (dir = 1 \/ dir = -1) /\
    sharesPrefix mc (N - 1) precis d_min (i + dir) /\
    ~ sharesPrefix mc (N - 1) precis d_min (i - dir)).
  { unfold d_min. destruct (Z.gtb_spec lrx lry) as [Hgt|Hle].
    - exists (-1). rewrite Z.min_r by lia. split; [reflexivity|]. split; [lia|]. split.
      + split; [lia|]. exists minone. split; [exact Hm|]. fold lrx. lia.
      + intros (_ & c & Hc & Hgt'). replace (i - -1) with (i + 1) in Hc by lia.
        rewrite Hq in Hc. injection Hc as <-. fold lry in Hgt'. lia.
    - exists 1. rewrite Z.min_l by lia. split; [reflexivity|]. split; [lia|]. split.
      + split; [lia|]. exists pluone. split; [exact Hq|]. fold lry. lia.
      + intros (_ & c & Hc & Hgt').
        rewrite Hm in Hc. injection Hc as <-. fold lrx in Hgt'. lia. }
  destruct Hsel as (dir & -> & Hdir & Hnear & Hfar).
  destruct (growLMax_stops dir precis d_min i 32 1 Hdir ltac:(lia) ltac:(lia)
              ltac:(lia) ltac:(lia)) as (k & Hg & Hk & Hkb & Hstop).
  change (2 ^ 1) with 2 in Hg. rewrite Hg. cbn [mbind option_bind].
  destruct (searchL_prefix dir precis d_min i k Hdir ltac:(lia) Hk Hkb 33 1 0)
    as (r & Hr & Hr1 & HPr & HQr); try lia.
  { replace (k - 1 + 1) with k by lia. lia. }
  { replace (i + 0 * dir) with i by lia. exact Hself. }
  { replace (k - 1 + 1) with k by lia. replace (0 + 2 ^ k) with (2 ^ k) by lia.
    exact Hstop. }
  change (2 ^ 1) with 2 in Hr. rewrite Hr. cbn [mbind option_bind].
  assert (Hr0 : 1 <= r).
  { destruct (Z.eq_dec r 0) as [->|]; [|lia]. exfalso. apply HQr.
    replace (i + (0 + 1) * dir) with (i + dir) by lia. exact Hnear. }
  pose proof (pow2_k_bounds mc N HN k Hk Hkb) as Hp2.
  destruct HPr as (HPr1 & HPr2).
  rewrite i32_small by nia. unfold zmin, zmax.
  destruct Hdir as [-> | ->].
  - exists i, (i + r * 1).
    destruct (Z.ltb_spec i (i + r * 1)); [|lia].
    destruct (Z.gtb_spec i (i + r * 1)); [lia|].
    rewrite !u32_small by lia. split; [reflexivity|].
    split; [lia|]. split; [lia|]. split; [auto|]. split; [|split].
    + intros m Hmr'. apply (sharesPrefix_closer i precis d_min (i + r * 1) m);
        [lia|exact Hp|lia|split; assumption].
    + exact Hfar.
    + replace (i + r * 1 + 1) with (i + (r + 1) * 1) by lia. exact HQr.
  - exists (i + r * -1), i.
    destruct (Z.ltb_spec i (i + r * -1)); [lia|].
    destruct (Z.gtb_spec i (i + r * -1)); [|lia].
    rewrite !u32_small by lia. split; [reflexivity|].
    split; [lia|]. split; [lia|]. split; [auto|]. split; [|split].
    + intros m Hmr'. apply (sharesPrefix_closer i precis d_min (i + r * -1) m);
        [lia|exact Hp|lia|split; assumption].
    + replace (i + r * -1 - 1) with (i + (r + 1) * -1) by lia. exact HQr.
    + replace (i + 1) with (i - -1) by lia. exact Hfar.
Qed.

(** The walk over a run of equal codes ends at the last position of the
    run. *)
Lemma equalRunEnd_run precis fuel : forall index,
  0 < index < N - 1 -> N - 1 - index < Z.of_nat fuel ->
  keyAt mc (index + 1) = Some precis ->
  exists e, equalRunEnd fuel mc (N - 1) index = Some e /\
            index < e <= N - 1 /\
            (forall m, index < m <= e -> keyAt mc m = Some precis) /\
            (e = N - 1 \/ keyAt mc (e + 1) <> Some precis).
Proof.
  induction fuel as [|fuel IH]; intros index Hi Hf Hnext; [lia|].
  cbn [equalRunEnd].
  destruct (Z.gtb_spec index 0); [|lia]. cbn [andb].
  destruct (Z.ltb_spec index (N - 1)) as [Hlt|Hge]; [|lia].
  rewrite i32_small by lia.
  assert (Hone : forall m, index < m <= index + 1 -> keyAt mc m = Some precis).
  { intros m Hm. replace m with (index + 1) by lia. exact Hnext. }
  destruct (Z.geb_spec (index + 1) (N - 1)).
  - exists (index + 1). split; [reflexivity|]. split; [lia|]. split; [exact Hone|].
    left. lia.
  - rewrite Hnext.
    destruct (keyAt_Some mc N HN Hlen Hkeys (index + 1 + 1) ltac:(lia)) as (b & Hb & _).
    rewrite Hb. cbn [mbind option_bind].
    destruct (Z.eqb_spec precis b) as [<-|Hne]; cbn [negb].
    + destruct (IH (index + 1) ltac:(lia) ltac:(lia) Hb) as (e & -> & He & Hrun & Hend).
      exists e. split; [reflexivity|]. split; [lia|]. split; [|exact Hend].
      intros m Hm. destruct (Z.eq_dec m (index + 1)) as [->|]; [exact Hnext|].
      apply Hrun. lia.
    + exists (index + 1). split; [reflexivity|]. split; [lia|]. split; [exact Hone|].
      right. rewrite Hb. intros [= E]. congruence.
Qed.

(** X28. For an inner node [i] whose two neighbours carry the same key as
    [i], [determineRange] returns the range from [i] to the last position
    of the run of that key: all keys in the range are equal, and the key
    after the range, if there is one, is different. *)
Theorem determineRange_equal_run i precis :
  0 < i < N - 1 ->
  keyAt mc (i - 1) = Some precis -> keyAt mc i = Some precis ->
  keyAt mc (i + 1) = Some precis ->
  exists last,
    determineRange mc i N = Some (mkUint2 i last) /\
    i < last <= N - 1 /\
    (forall m, i <= m <= last -> keyAt mc m = Some precis) /\
    (last = N - 1 \/ keyAt mc (last + 1) <> Some precis).
Proof.
  intros Hi Hm Hp Hq. unfold determineRange.
  rewrite (u32_small (N - 1)) by lia. rewrite (i32_small (N - 1)) by lia.
  destruct (Z.eqb_spec i 0) as [->|Hi0]; [lia|].
  rewrite Hm, Hp, Hq. cbn [mbind option_bind]. rewrite Z.eqb_refl. cbn [andb].
  destruct (equalRunEnd_run precis (Z.to_nat N) i ltac:(lia) ltac:(lia) Hq)
    as (e & -> & He & Hrun & Hend).
  cbn [mbind option_bind]. exists e. rewrite !u32_small by lia.
  split; [reflexivity|]. split; [lia|]. split; [|exact Hend].
  intros m Hmr. destruct (Z.eq_dec m i) as [->|]; [exact Hp|]. apply Hrun. lia.
Qed.

End RadixRange.

Lemma determineRange_prefix_range_witness :
  let d_min := Z.min (CLZ (Z.lxor 2 1)) (CLZ (Z.lxor 2 4)) in
  exists first last,
    determineRange fourCodes 1 4 = Some (mkUint2 first last) /\
    0 <= first < last /\ last <= 4 - 1 /\ (first = 1 \/ last = 1) /\
    (forall m, first <= m <= last -> sharesPrefix fourCodes (4 - 1) 2 d_min m) /\
    ~ sharesPrefix fourCodes (4 - 1) 2 d_min (first - 1) /\
    ~ sharesPrefix fourCodes (4 - 1) 2 d_min (last + 1).
Proof.
  apply (determineRange_prefix_range fourCodes 4); try (cbn; lia); try reflexivity.
  - intros [|[|[|[|n]]]] p Hn Hp; cbn in Hp; try discriminate Hp;
      injection Hp as <-; cbn; lia.
  - intros [|[|[|n]]] p q Hn Hp Hq; cbn in Hp, Hq; try discriminate Hq;
      injection Hp as <-; injection Hq as <-; cbn; lia.
Defined.

Lemma determineRange_equal_run_witness :
  exists last,
    determineRange equalCodes 1 5 = Some (mkUint2 1 last) /\
    1 < last <= 5 - 1 /\
    (forall m, 1 <= m <= last -> keyAt equalCodes m = Some 3) /\
    (last = 5 - 1 \/ keyAt equalCodes (last + 1) <> Some 3).
Proof.
  apply (determineRange_equal_run equalCodes 5); try (cbn; lia); try reflexivity.
  intros [|[|[|[|[|n]]]]] p Hn Hp; cbn in Hp; try discriminate Hp;
    injection Hp as <-; cbn; lia.
Defined.
